(** * Tile expiry of osm2pgsql: quadkeys, the dirty-tile set and the polygon
      scratch structure

    A shallow embedding of [expire-tiles.cpp], [expire-tiles.hpp] and
    [intersecting_tiles.cpp].

    - [uint32_t] and [uint64_t] values are integers of [Z] with their
      wrap-around written out ([wrap32], [wrap64]).
    - A [double] is the rational ([Q]) it denotes.  An arithmetic operation
      on doubles is the exact result rounded to the nearest double, ties to
      the even one ([round_double]: IEEE 754 binary64 with its subnormal
      numbers), every operation rounded on its own, and a decimal literal is
      the double nearest to it.  Infinities, NaN and the sign of zero are not
      modelled: a result of magnitude [2^1024] or more is kept as the
      rational it rounds to, and a division by zero has no result.  [sqrt]
      and [atan2] of the C library are parameters.
    - [static_cast<uint32_t>] of a double truncates toward zero and is
      undefined outside the range of the target type.
    - [std::unordered_set<uint64_t>] is a finite set [gset Z].
    - A [void] method that mutates the object is a function from the old
      object to the new one; a method that may throw returns an [outcome]. *)

From Stdlib Require Import ZArith QArith Qround Qabs Qpower Lia Lqa.
From stdpp Require Import base decidable list sorting gmap sets.

Local Open Scope Z_scope.

(** ** Machine integers *)

Definition wrap32 (v : Z) : Z := v mod 2 ^ 32.
Definition wrap64 (v : Z) : Z := v mod 2 ^ 64.

Definition is_uint32 (v : Z) : Prop := 0 <= v < 2 ^ 32.

(** ** QuadkeyCodec *)

Module Quadkey.

(** [struct xy_coord_t { uint32_t x; uint32_t y; }] *)
Record xy_coord_t := mk_xy { xy_x : Z; xy_y : Z }.

(** The body of the loop of [expire_tiles::xy_to_quadkey]:
    [quadkey |= ((x & (1ULL << z)) << z);
     quadkey |= ((y & (1ULL << z)) << (z + 1));] *)
Definition xy_to_quadkey_step (x y z quadkey : Z) : Z :=
  let quadkey :=
    Z.lor quadkey (wrap64 (Z.shiftl (Z.land x (wrap64 (Z.shiftl 1 z))) z)) in
  Z.lor quadkey (wrap64 (Z.shiftl (Z.land y (wrap64 (Z.shiftl 1 z))) (z + 1))).

(** [for (uint32_t z = 0; z < zoom; z++)]: [n] iterations are left and the
    loop variable is [z]. *)
Fixpoint xy_to_quadkey_loop (x y : Z) (n : nat) (z quadkey : Z) : Z :=
  match n with
  | O => quadkey
  | S n' => xy_to_quadkey_loop x y n' (z + 1) (xy_to_quadkey_step x y z quadkey)
  end.

(** [uint64_t expire_tiles::xy_to_quadkey(uint32_t x, uint32_t y, uint32_t zoom)].
    The shifts are by less than 64 bits, as C++ requires, for [zoom <= 64]. *)
Definition xy_to_quadkey (x y zoom : Z) : Z :=
  xy_to_quadkey_loop x y (Z.to_nat zoom) 0 0.

(** The body of the loop of [expire_tiles::quadkey_to_xy] at loop variable
    [z]; the [static_cast<uint32_t>] and the [uint32_t] addition wrap. *)
Definition quadkey_to_xy_step (quadkey_coord z : Z) (result : xy_coord_t) : xy_coord_t :=
  let y' :=
    wrap32 (xy_y result +
            wrap32 (Z.shiftr (Z.land quadkey_coord (wrap64 (Z.shiftl 1 (2 * z - 1)))) z)) in
  let x' :=
    wrap32 (xy_x result +
            wrap32 (Z.shiftr (Z.land quadkey_coord (wrap64 (Z.shiftl 1 (2 * (z - 1)))))
                             (z - 1))) in
  {| xy_x := x'; xy_y := y' |}.

(** [for (uint32_t z = zoom; z > 0; --z)]: the loop variable is [S n]. *)
Fixpoint quadkey_to_xy_loop (quadkey_coord : Z) (n : nat) (result : xy_coord_t) : xy_coord_t :=
  match n with
  | O => result
  | S n' =>
      quadkey_to_xy_loop quadkey_coord n'
        (quadkey_to_xy_step quadkey_coord (Z.of_nat (S n')) result)
  end.

(** [xy_coord_t expire_tiles::quadkey_to_xy(uint64_t quadkey_coord, uint32_t zoom)];
    [xy_coord_t()] starts at [(0, 0)].  The shifts are by less than 64 bits,
    as C++ requires, for [zoom <= 32]. *)
Definition quadkey_to_xy (quadkey_coord zoom : Z) : xy_coord_t :=
  quadkey_to_xy_loop quadkey_coord (Z.to_nat zoom) {| xy_x := 0; xy_y := 0 |}.

(** The value [quadkey_to_xy] accumulates: the sum of the even
    (respectively odd) bits of the quadkey below level [n], moved to their
    place in the coordinate. *)
Fixpoint x_of_quadkey (q : Z) (n : nat) : Z :=
  match n with
  | O => 0
  | S n' => x_of_quadkey q n' + Z.b2z (Z.testbit q (2 * Z.of_nat n')) * 2 ^ Z.of_nat n'
  end.

Fixpoint y_of_quadkey (q : Z) (n : nat) : Z :=
  match n with
  | O => 0
  | S n' => y_of_quadkey q n' + Z.b2z (Z.testbit q (2 * Z.of_nat n' + 1)) * 2 ^ Z.of_nat n'
  end.

End Quadkey.

Import Quadkey.

(** ** Doubles and exceptions *)

Module Double.

(** The exponent [e] with [2^(e-1) <= |q| < 2^e], for [q] other than zero. *)
Definition mag (q : Q) : Z :=
  let k := Z.log2 (Z.abs (Qnum q)) - Z.log2 (Z.pos (Qden q)) in
  if Qle_bool (2 ^ k) (Qabs q) then k + 1 else k.

(** The integer nearest to [x], the even one of two that are equally near. *)
Definition round_nearest_even (x : Q) : Z :=
  let f := Qfloor x in
  match (x - inject_Z f ?= 1 # 2)%Q with
  | Lt => f
  | Eq => if Z.even f then f else f + 1
  | Gt => f + 1
  end.

(** The exponent of the unit in the last place of the doubles of the
    magnitude of [q]: a double has 53 bits of precision, and the subnormal
    doubles are the multiples of [2^-1074]. *)
Definition ulp_exponent (q : Q) : Z := Z.max (mag q - 53) (-1074).

(** The double nearest to [q] (round to nearest, ties to even). *)
Definition round_double (q : Q) : Q :=
  if Qeq_bool q 0 then 0%Q
  else
    let e := ulp_exponent q in
    let d := (inject_Z (round_nearest_even (Qabs q * 2 ^ (- e))) * 2 ^ e)%Q in
    if Qle_bool 0 q then d else (- d)%Q.

Arguments round_double : simpl never.

(** The rationals that are doubles. *)
Definition is_double (q : Q) : Prop := (round_double q == q)%Q.

(** [a + b], [a - b] and [a * b] on doubles. *)
Definition dadd (a b : Q) : Q := round_double (a + b).
Definition dsub (a b : Q) : Q := round_double (a - b).
Definition dmul (a b : Q) : Q := round_double (a * b).

(** [a / b] on doubles; a division by zero, which gives an infinity or a
    NaN, has no result here. *)
Definition ddiv (a b : Q) : option Q :=
  if Qeq_bool b 0 then None else Some (round_double (a / b)).

End Double.

Import Double.

(** [static_cast<uint32_t>(d)] for a [double] [d]: the fractional part is
    discarded (truncation toward zero); the behaviour is undefined when the
    truncated value is not a [uint32_t]. *)
Definition Qtrunc (d : Q) : Z := Z.quot (Qnum d) (Z.pos (Qden d)).

Definition to_uint32 (d : Q) : option Z :=
  let t := Qtrunc d in
  if (0 <=? t) && (t <? 2 ^ 32) then Some t else None.

(** [std::min] and [std::max] on doubles: [std::min(a, b)] is [(b < a) ? b : a],
    [std::max(a, b)] is [(a < b) ? b : a]. *)
Definition Qlt_bool (a b : Q) : bool := negb (Qle_bool b a).
Definition dmin (a b : Q) : Q := if Qlt_bool b a then b else a.
Definition dmax (a b : Q) : Q := if Qlt_bool a b then b else a.

(** The exceptions the code throws. *)
Inductive exn :=
| Runtime_error_map_width (self other : Z)
| Runtime_error_tile_width (self other : Q)
| Out_of_range.

(** The result of a method that may throw: the object (or objects) as it
    returns, the exception together with the objects as they are when it is
    thrown, or undefined behaviour. *)
Inductive outcome (A : Type) :=
| Returned (a : A)
| Thrown (e : exn) (a : A)
| Undefined.
Arguments Returned {A} a.
Arguments Thrown {A} e a.
Arguments Undefined {A}.

Definition bind_outcome {A : Type} (o : outcome A) (k : A -> outcome A) : outcome A :=
  match o with
  | Returned a => k a
  | Thrown e a => Thrown e a
  | Undefined => Undefined
  end.

(** ** Proof automation *)

(** Takes apart a hypothesis that says an optional computation has a result. *)
Ltac option_inv :=
  repeat match goal with
  | H : Some _ = Some _ |- _ => injection H as H; try subst
  | H : None = Some _ |- _ => discriminate H
  | H : mbind _ _ = Some _ |- _ => apply bind_Some in H; destruct H as (? & ? & H)
  | H : (if ?b then _ else _) = Some _ |- _ => destruct b eqn:?
  | H : (let '(_, _) := ?p in _) = Some _ |- _ => destruct p eqn:?
  | H : match ?x with _ => _ end = Some _ |- _ => destruct x eqn:?
  end.


(** ** ExpireSet *)

Module Expire.

(** [#define EARTH_CIRCUMFERENCE 40075016.68] *)
Definition EARTH_CIRCUMFERENCE : Q := round_double (Qmake 4007501668 100).

(** The data members of [struct expire_tiles]; the [projection] pointer is
    not read by any method modelled here. *)
Record expire_tiles := mk_expire_tiles {
  tile_width : Q;
  max_bbox : Q;
  map_width : Z;
  maxzoom : Z;
  last_tile_x : Z;
  last_tile_y : Z;
  m_dirty_tiles : gset Z
}.

Definition set_dirty_tiles (st : expire_tiles) (tiles : gset Z) : expire_tiles :=
  {| tile_width := tile_width st; max_bbox := max_bbox st;
     map_width := map_width st; maxzoom := maxzoom st;
     last_tile_x := last_tile_x st; last_tile_y := last_tile_y st;
     m_dirty_tiles := tiles |}.

(** The constructor.  With [maxzoom = 0] the members [map_width],
    [tile_width], [last_tile_x] and [last_tile_y] are left uninitialised:
    they keep the content [indeterminate] of the storage. [1U << maxzoom] is
    undefined for [maxzoom >= 32]. *)
Definition new_expire_tiles (max : Z) (bbox : Q) (indeterminate : expire_tiles)
  : expire_tiles :=
  if 0 <? max then
    let mw := wrap32 (Z.shiftl 1 max) in
    {| tile_width := round_double (Qdiv EARTH_CIRCUMFERENCE (inject_Z mw));
       max_bbox := bbox; map_width := mw; maxzoom := max;
       last_tile_x := wrap32 (mw + 1); last_tile_y := wrap32 (mw + 1);
       m_dirty_tiles := ∅ |}
  else
    {| tile_width := tile_width indeterminate;
       max_bbox := bbox; map_width := map_width indeterminate; maxzoom := max;
       last_tile_x := last_tile_x indeterminate;
       last_tile_y := last_tile_y indeterminate;
       m_dirty_tiles := ∅ |}.

(** [bool expire_tiles::valid_tile_coord(uint32_t coord)]:
    [return coord <= map_width;] *)
Definition valid_tile_coord (st : expire_tiles) (coord : Z) : bool :=
  coord <=? map_width st.

(** [void expire_tiles::expire_tile(uint32_t x, uint32_t y)] *)
Definition expire_tile (st : expire_tiles) (x y : Z) : expire_tiles :=
  if negb (valid_tile_coord st x) || negb (valid_tile_coord st y) then st
  else if negb (last_tile_x st =? x) || negb (last_tile_y st =? y) then
    {| tile_width := tile_width st; max_bbox := max_bbox st;
       map_width := map_width st; maxzoom := maxzoom st;
       last_tile_x := x; last_tile_y := y;
       m_dirty_tiles := {[ xy_to_quadkey x y (maxzoom st) ]} ∪ m_dirty_tiles st |}
  else st.

(** [void expire_tiles::from_bbox_without_buffer(uint32_t min_x, uint32_t min_y,
    uint32_t max_x, uint32_t max_y)]: two nested loops with inclusive upper
    bounds (which end only if the bounds are below [UINT32_MAX]). *)
Definition from_bbox_without_buffer (st : expire_tiles) (min_x min_y max_x max_y : Z)
  : expire_tiles :=
  foldl (fun st iterator_x =>
           foldl (fun st iterator_y => expire_tile st iterator_x iterator_y)
                 st (seqZ min_y (max_y - min_y + 1)))
        st (seqZ min_x (max_x - min_x + 1)).

(** [static constexpr double TILE_EXPIRY_LEEWAY = 0.1;] *)
Definition TILE_EXPIRY_LEEWAY : Q := round_double (Qmake 1 10).

(** [void expire_tiles::from_bbox(double min_x, double min_y, double max_x,
    double max_y)]; [None] when one of the four casts is undefined. *)
Definition from_bbox (st : expire_tiles) (min_x min_y max_x max_y : Q)
  : option expire_tiles :=
  match to_uint32 (dsub min_x TILE_EXPIRY_LEEWAY), to_uint32 (dsub min_y TILE_EXPIRY_LEEWAY),
        to_uint32 (dadd max_x TILE_EXPIRY_LEEWAY), to_uint32 (dadd max_y TILE_EXPIRY_LEEWAY) with
  | Some x0, Some y0, Some x1, Some y1 => Some (from_bbox_without_buffer st x0 y0 x1 y1)
  | _, _, _, _ => None
  end.

(** [void expire_tiles::merge_and_destroy(expire_tiles &other)] on two
    distinct objects; the result is the pair (this object, [other]). *)
Definition merge_and_destroy (self other : expire_tiles)
  : outcome (expire_tiles * expire_tiles) :=
  if negb (map_width self =? map_width other) then
    Thrown (Runtime_error_map_width (map_width self) (map_width other)) (self, other)
  else if negb (Qeq_bool (tile_width self) (tile_width other)) then
    Thrown (Runtime_error_tile_width (tile_width self) (tile_width other)) (self, other)
  else
    let merged :=
      if decide (size (m_dirty_tiles self) = 0%nat)
      then m_dirty_tiles other                          (* std::move *)
      else m_dirty_tiles self ∪ m_dirty_tiles other     (* insert(begin, end) *) in
    Returned (set_dirty_tiles self merged, set_dirty_tiles other ∅).

(** A tile handed to [output_dirty_tile(x, y, zoom)]. *)
Definition dirty_tile : Type := Z * Z * Z.
Definition tile_zoom (t : dirty_tile) : Z := t.2.

(** The inner loop of [output_and_destroy] for one stored quadkey:
    [for (uint32_t dz = 0; dz <= maxzoom - minzoom; dz++)], with [n]
    iterations left. *)
Fixpoint output_zoom_levels (maxzoom q last_quadkey : Z) (n : nat) (dz : Z)
  : list dirty_tile :=
  match n with
  | O => []
  | S n' =>
      let qt_current := Z.shiftr q (dz * 2) in
      (if qt_current =? Z.shiftr last_quadkey (dz * 2) then []
       else
         let xy := quadkey_to_xy qt_current (maxzoom - dz) in
         [(xy_x xy, xy_y xy, maxzoom - dz)])
      ++ output_zoom_levels maxzoom q last_quadkey n' (dz + 1)
  end.

(** The outer loop over the sorted vector; [last_quadkey = *it] after each
    element. *)
Fixpoint output_sorted (maxzoom minzoom : Z) (tiles_maxzoom : list Z) (last_quadkey : Z)
  : list dirty_tile :=
  match tiles_maxzoom with
  | [] => []
  | q :: rest =>
      output_zoom_levels maxzoom q last_quadkey (Z.to_nat (maxzoom - minzoom + 1)) 0
      ++ output_sorted maxzoom minzoom rest q
  end.

(** [uint64_t last_quadkey = 1ULL << (2 * maxzoom);] *)
Definition initial_last_quadkey (maxzoom : Z) : Z :=
  wrap64 (Z.shiftl 1 (wrap32 (2 * maxzoom))).

(** [output_and_destroy] from the vector [tiles_maxzoom] on: [std::sort],
    the initial [last_quadkey] and the two loops.  The argument is the
    content of the vector as built from the iteration of the hash set. *)
Definition output_tiles (maxzoom minzoom : Z) (tiles_maxzoom : list Z) : list dirty_tile :=
  output_sorted maxzoom minzoom (merge_sort Z.le tiles_maxzoom)
                (initial_last_quadkey maxzoom).

(** [template <class TILE_WRITER> void output_and_destroy(TILE_WRITER &, uint32_t minzoom)]:
    the sequence of calls of [output_dirty_tile]; [None] when
    [assert(minzoom <= maxzoom)] fails. *)
Definition output_and_destroy (st : expire_tiles) (minzoom : Z) : option (list dirty_tile) :=
  if minzoom <=? maxzoom st then
    Some (output_tiles (maxzoom st) minzoom (elements (m_dirty_tiles st)))
  else None.

(** The tile of zoom level [v] that contains the tile of the maxzoom quadkey [q]. *)
Definition ancestor_tile (maxzoom q v : Z) : dirty_tile :=
  let xy := quadkey_to_xy q maxzoom in
  (Z.shiftr (xy_x xy) (maxzoom - v), Z.shiftr (xy_y xy) (maxzoom - v), v).

Definition tile_quadkey (t : dirty_tile) : Z := xy_to_quadkey t.1.1 t.1.2 t.2.

(** The quadkeys written at the level [dz] below maxzoom, in order, and
    the tile written for such a quadkey. *)
Definition level_step (dz q last_quadkey : Z) : list Z :=
  if Z.shiftr q (dz * 2) =? Z.shiftr last_quadkey (dz * 2) then []
  else [Z.shiftr q (dz * 2)].

Fixpoint level_quadkeys (dz : Z) (tiles : list Z) (last_quadkey : Z) : list Z :=
  match tiles with
  | [] => []
  | q :: rest => level_step dz q last_quadkey ++ level_quadkeys dz rest q
  end.

Definition level_tile (maxzoom dz a : Z) : dirty_tile :=
  let xy := quadkey_to_xy a (maxzoom - dz) in (xy_x xy, xy_y xy, maxzoom - dz).

(** The sorted vector, and the quadkeys written at the level [dz] when
    [output_tiles] runs on it. *)
Definition sorted_tiles (tiles_maxzoom : list Z) : list Z := merge_sort Z.le tiles_maxzoom.

Definition written_quadkeys (maxzoom : Z) (tiles_maxzoom : list Z) (dz : Z) : list Z :=
  level_quadkeys dz (sorted_tiles tiles_maxzoom) (initial_last_quadkey maxzoom).

(** Every stored quadkey is below the sentinel [1 << (2 * maxzoom)]. *)
Definition quadkeys_in_range (st : expire_tiles) : Prop :=
  forall q, q ∈ m_dirty_tiles st -> 0 <= q < 2 ^ (2 * maxzoom st).

(** The invariant carried through every operation: the configuration is
    the one the constructor computes, and the stored quadkeys are in range. *)
Definition well_formed (st : expire_tiles) : Prop :=
  0 <= maxzoom st <= 31 /\ map_width st = 2 ^ maxzoom st /\ quadkeys_in_range st.

End Expire.

(** ** Rasterizer *)

Module Rasterizer.

Import Expire.

(** [static_cast<int>(d)] for a [double] [d]. *)
Definition to_int (d : Q) : option Z :=
  let t := Qtrunc d in
  if (- 2 ^ 31 <=? t) && (t <? 2 ^ 31) then Some t else None.

(** A loop over [xs] whose body may be undefined. *)
Definition for_each (xs : list Z) (body : expire_tiles -> Z -> option expire_tiles)
    (st : expire_tiles) : option expire_tiles :=
  foldl (fun o x => st ← o; body st x) (Some st) xs.

(** [double expire_tiles::normalise_tile_coord(double coord)].  The result
    [(2 << maxzoom) - 1] is computed in [int], where it overflows for
    [maxzoom >= 30]: [None] is that undefined behaviour. *)
Definition normalise_tile_coord (st : expire_tiles) (coord : Q) : option Q :=
  if Qlt_bool (inject_Z (map_width st)) coord then
    if maxzoom st <? 30 then Some (inject_Z (Z.shiftl 2 (maxzoom st) - 1)) else None
  else if Qlt_bool coord 0 then Some 0%Q
  else Some coord.

(** [void expire_tiles::expire_vertical_line(double x, double y1, double y2)];
    [None] when the assertion fails or a cast is undefined. *)
Definition expire_vertical_line (st : expire_tiles) (x y1 y2 : Q) : option expire_tiles :=
  if negb (Qlt_bool y1 y2) then None
  else
    st ← from_bbox st x y1 x y1;
    first ← to_uint32 (dadd y1 1);
    last ← to_uint32 y2;
    st ← for_each (seqZ first (last - first))
                  (fun st y => column ← to_uint32 x; Some (expire_tile st column y)) st;
    from_bbox st x y2 x y2.

(** [void expire_tiles::expire_line(double x1, double y1, double x2, double y2)] *)
Definition expire_line (st : expire_tiles) (x1 y1 x2 y2 : Q) : option expire_tiles :=
  if negb (Qlt_bool x1 x2) then None
  else
    incline ← ddiv (dsub y2 y1) (dsub x2 x1);
    let y_intercept := dsub y2 (dmul incline x2) in
    if Qeq_bool incline 0
       && (Qlt_bool y_intercept 0 || Qlt_bool (inject_Z (map_width st)) y_intercept)
    then Some st
    else if Qle_bool x2 0 then Some st
    else
      let '(x1, y1) := if Qlt_bool x1 0 then (0%Q, y_intercept) else (x1, y1) in
      '(x1, y1) ← (if Qlt_bool y1 0
                   then x ← ddiv (- y_intercept)%Q incline; Some (x, 0%Q)
                   else Some (x1, y1));
      '(x2, y2) ← (if Qlt_bool y2 0
                   then x ← ddiv (- y_intercept)%Q incline; Some (x, 0%Q)
                   else Some (x2, y2));
      tile_x ← to_uint32 x1;
      tile_y ← to_uint32 y1;
      let st := expire_tile st tile_x tile_y in
      first ← to_uint32 (dadd x1 1);
      last ← to_uint32 x2;
      st ← for_each (seqZ first (last - first + 1))
                    (fun st x =>
                       tile_y ← to_uint32 (dadd (dmul incline (inject_Z x)) y_intercept);
                       Some (expire_tile st x tile_y)) st;
      let min_y := dmin y1 y2 in
      let max_y := dmax y1 y2 in
      first ← to_uint32 (dadd min_y 1);
      last ← to_uint32 max_y;
      for_each (seqZ first (last - first + 1))
               (fun st y =>
                  x ← ddiv (dsub (inject_Z y) y_intercept) incline;
                  tile_x ← to_uint32 x;
                  Some (if Qlt_bool y1 y2 then expire_tile st tile_x y
                        else expire_tile st tile_x (wrap32 (y - 1)))) st.

Section Projection.

(** Modelled from the spec: [projection->coords_to_tile(&x, &y, lon, lat, map_width)]
    of the projection library, which is not among the sources: "a single
    pure function [lonlat_to_tile(lon, lat, map_width) -> (x, y)]". *)
Variable coords_to_tile : Q -> Q -> Z -> Q * Q.

(** [sqrt] of the C library on doubles. *)
Variable dsqrt : Q -> Q.

(** [void expire_tiles::expire_line_segment(double x1, double y1, double x2, double y2)] *)
Definition expire_line_segment (st : expire_tiles) (x1 y1 x2 y2 : Q) : option expire_tiles :=
  if negb (Qle_bool x1 x2) then None
  else if negb (Qle_bool (dsub x2 x1) (inject_Z (Z.div (map_width st) 2))) then None
  else if Qeq_bool x1 x2 && Qeq_bool y1 y2 then Some st
  else
    vertical ← (if Qlt_bool (dsub x2 x1) 1
                then int_x2 ← to_int x2; int_x1 ← to_int x1;
                     Some ((int_x2 =? int_x1)
                           || Qlt_bool (dsub x2 x1) (round_double (Qmake 1 100000000)))
                else Some false);
    if vertical : bool then
      let '(y1, y2) := if Qlt_bool y2 y1 then (y2, y1) else (y1, y2) in
      x_buffer_west ← normalise_tile_coord st (dsub x1 TILE_EXPIRY_LEEWAY);
      st ← expire_vertical_line st x_buffer_west y1 y2;
      x_buffer_east ← normalise_tile_coord st (dadd x1 TILE_EXPIRY_LEEWAY);
      west ← to_uint32 x_buffer_west;
      east ← to_uint32 x_buffer_east;
      if negb (west =? east) then expire_vertical_line st x_buffer_east y1 y2
      else Some st
    else
      let segment_length :=
        dsqrt (dadd (dmul (dsub y2 y1) (dsub y2 y1)) (dmul (dsub x2 x1) (dsub x2 x1))) in
      x_norm ← ddiv (dsub x2 x1) segment_length;
      y_norm ← ddiv (dsub y2 y1) segment_length;
      let x_buffer := dmul (round_double (Qmake 1 10)) x_norm in
      let y_buffer := dmul (round_double (Qmake 1 10)) y_norm in
      st ← expire_line st (dsub (dsub x1 x_buffer) y_buffer) (dadd (dsub y1 y_buffer) x_buffer)
                          (dsub (dadd x2 x_buffer) y_buffer) (dadd (dadd y2 y_buffer) x_buffer);
      expire_line st (dadd (dsub x1 x_buffer) y_buffer) (dsub (dsub y1 y_buffer) x_buffer)
                     (dadd (dadd x2 x_buffer) y_buffer) (dsub (dadd y2 y_buffer) x_buffer).

(** [void expire_tiles::from_line_lon_lat(double lon_a, double lat_a, double lon_b,
    double lat_b)] *)
Definition from_line_lon_lat (st : expire_tiles) (lon_a lat_a lon_b lat_b : Q)
  : option expire_tiles :=
  let '(tile_x_a, tile_y_a) := coords_to_tile lon_a lat_a (map_width st) in
  let '(tile_x_b, tile_y_b) := coords_to_tile lon_b lat_b (map_width st) in
  let '(tile_x_a, tile_y_a, tile_x_b, tile_y_b) :=
    if Qlt_bool tile_x_b tile_x_a then (tile_x_b, tile_y_b, tile_x_a, tile_y_a)
    else (tile_x_a, tile_y_a, tile_x_b, tile_y_b) in
  if Qlt_bool (inject_Z (Z.div (map_width st) 2)) (dsub tile_x_b tile_x_a) then
    if Qeq_bool tile_x_b (inject_Z (map_width st)) && Qeq_bool tile_x_a 0 then
      expire_line_segment st 0 tile_y_a 0 tile_y_b
    else
      let x_distance := dsub (dadd (inject_Z (map_width st)) tile_x_a) tile_x_b in
      ratio ← ddiv tile_x_a x_distance;
      let y_split := dadd tile_y_a (dmul (dsub tile_y_b tile_y_a) ratio) in
      st ← expire_line_segment st 0 y_split tile_x_a tile_y_a;
      expire_line_segment st tile_x_b tile_y_b (inject_Z (map_width st)) y_split
  else expire_line_segment st tile_x_a tile_y_a tile_x_b tile_y_b.

(** [void expire_tiles::from_point(double lon, double lat)] *)
Definition from_point (st : expire_tiles) (lon lat : Q) : option expire_tiles :=
  let '(tile_x, tile_y) := coords_to_tile lon lat (map_width st) in
  from_bbox st tile_x tile_y tile_x tile_y.

(** [void expire_tiles::from_bbox_lon_lat(double min_x, double min_y, double max_x,
    double max_y)] *)
Definition from_bbox_lon_lat (st : expire_tiles) (min_x min_y max_x max_y : Q)
  : option expire_tiles :=
  let '(x_min, y_max) := coords_to_tile min_x min_y (map_width st) in
  let '(x_max, y_min) := coords_to_tile max_x max_y (map_width st) in
  from_bbox st x_min y_min x_max y_max.

End Projection.

End Rasterizer.

(** ** IntersectingTiles *)

Module IntersectingTiles.

(** The data members of [class intersecting_tiles_t]; [crossings_t] is
    [std::vector<uint32_t>] and [stripe_t] a vector of those. *)
Record intersecting_tiles_t := mk_intersecting_tiles {
  offset_x : Z;
  max_tile_id : Z;
  TILE_EXPIRY_LEEWAY : Q;
  min_bounds : list (list Z);
  max_bounds : list (list Z);
  current_x : Z;
  next_idx_min : Z;
  next_idx_max : Z
}.

Definition set_min_bounds (t : intersecting_tiles_t) (b : list (list Z)) :=
  {| offset_x := offset_x t; max_tile_id := max_tile_id t;
     TILE_EXPIRY_LEEWAY := TILE_EXPIRY_LEEWAY t;
     min_bounds := b; max_bounds := max_bounds t;
     current_x := current_x t; next_idx_min := next_idx_min t;
     next_idx_max := next_idx_max t |}.

Definition set_max_bounds (t : intersecting_tiles_t) (b : list (list Z)) :=
  {| offset_x := offset_x t; max_tile_id := max_tile_id t;
     TILE_EXPIRY_LEEWAY := TILE_EXPIRY_LEEWAY t;
     min_bounds := min_bounds t; max_bounds := b;
     current_x := current_x t; next_idx_min := next_idx_min t;
     next_idx_max := next_idx_max t |}.

(** The constructor: both vectors get
    [static_cast<uint32_t>(x_max + leeway) - static_cast<uint32_t>(x_min - leeway) + 1]
    empty columns ([uint32_t] arithmetic). *)
Definition new_intersecting_tiles (x_min x_max : Q) (map_width : Z) (leeway : Q)
  : option intersecting_tiles_t :=
  match to_uint32 (dsub x_min leeway), to_uint32 (dadd x_max leeway) with
  | Some lo, Some hi =>
      let columns := Z.to_nat (wrap32 (wrap32 (hi - lo) + 1)) in
      Some {| offset_x := lo; max_tile_id := map_width;
              TILE_EXPIRY_LEEWAY := leeway;
              min_bounds := replicate columns [];
              max_bounds := replicate columns [];
              current_x := 0; next_idx_min := 0; next_idx_max := 0 |}
  | _, _ => None
  end.

(** [uint32_t get_x_index(uint32_t x) { return x - offset_x; }] *)
Definition get_x_index (t : intersecting_tiles_t) (x : Z) : Z :=
  wrap32 (x - offset_x t).

(** [bounds.at(idx).emplace_back(value)]: [None] when [at] throws
    [std::out_of_range]. *)
Definition emplace_back_at (bounds : list (list Z)) (idx value : Z)
  : option (list (list Z)) :=
  match bounds !! Z.to_nat idx with
  | Some column => Some (<[Z.to_nat idx := column ++ [value]]> bounds)
  | None => None
  end.

(** [void add_minimum(uint32_t x, double min)] *)
Definition add_minimum (t : intersecting_tiles_t) (x : Z) (min : Q)
  : outcome intersecting_tiles_t :=
  match to_uint32 (dsub min (TILE_EXPIRY_LEEWAY t)) with
  | None => Undefined
  | Some value =>
      match emplace_back_at (min_bounds t) (get_x_index t x) value with
      | Some b => Returned (set_min_bounds t b)
      | None => Thrown Out_of_range t
      end
  end.

(** [void add_maximum(uint32_t x, double max)] *)
Definition add_maximum (t : intersecting_tiles_t) (x : Z) (max : Q)
  : outcome intersecting_tiles_t :=
  match to_uint32 (dadd max (TILE_EXPIRY_LEEWAY t)) with
  | None => Undefined
  | Some value =>
      match emplace_back_at (max_bounds t) (get_x_index t x) value with
      | Some b => Returned (set_max_bounds t b)
      | None => Thrown Out_of_range t
      end
  end.

(** [void add_minimum_or_maximum(uint32_t x, double y1, double y2, bool interior_above)] *)
Definition add_minimum_or_maximum (t : intersecting_tiles_t) (x : Z) (y1 y2 : Q)
    (interior_above : bool) : outcome intersecting_tiles_t :=
  if interior_above then add_maximum t x (dmax y1 y2)
  else add_minimum t x (dmin y1 y2).

(** [constexpr double PI = 3.14159265358979323846;] *)
Definition PI : Q := round_double (Qmake 314159265358979323846 100000000000000000000).

Section Atan2.

(** [std::atan2] of the C library on doubles. *)
Variable atan2 : Q -> Q -> Q.

(** [static bool interior_side_above(double x1, double y1, double x2, double y2)]:
    [return (std::atan2(y1 - y2, x2 - x1) < PI / 2 &&
             std::atan2(y1 - y2, x2 - x1) > -PI / 2);] *)
Definition interior_side_above (x1 y1 x2 y2 : Q) : bool :=
  Qlt_bool (atan2 (dsub y1 y2) (dsub x2 x1)) (round_double (PI / 2))
  && Qlt_bool (round_double (- PI / 2)) (atan2 (dsub y1 y2) (dsub x2 x1)).

(** The body of the stripe loop of [evaluate_segment]. *)
Definition evaluate_stripe (start end_ : Z) (y1 y2 : Q) (interior_above : bool)
    (o : outcome intersecting_tiles_t) (x : Z) : outcome intersecting_tiles_t :=
  bind_outcome o (fun t =>
    bind_outcome (add_minimum_or_maximum t x y1 y2 interior_above) (fun t =>
      if negb (x =? start) && negb (x =? end_)
      then add_minimum_or_maximum t x y1 y2 interior_above
      else Returned t)).

(** [void evaluate_segment(double x1, double y1, double x2, double y2, bool outer_ring)] *)
Definition evaluate_segment (t : intersecting_tiles_t) (x1 y1 x2 y2 : Q)
    (outer_ring : bool) : outcome intersecting_tiles_t :=
  let leeway := TILE_EXPIRY_LEEWAY t in
  match to_uint32 (dsub (dmin x1 x2) leeway), to_uint32 (dadd (dmax x1 x2) leeway) with
  | Some west, Some east =>
      if west =? east then
        match to_uint32 x1 with
        | None => Undefined
        | Some column =>
            bind_outcome (add_minimum t column (dmin y1 y2))
                         (fun t => add_maximum t column (dmax y1 y2))
        end
      else
        let interior_above := interior_side_above x1 y1 x2 y2 in
        let '(x1, y1, x2, y2) :=
          if Qlt_bool x2 x1 then (x2, y2, x1, y1) else (x1, y1, x2, y2) in
        match to_uint32 (dsub x1 leeway), to_uint32 (dadd x2 leeway) with
        | Some start, Some end_ =>
            foldl (evaluate_stripe start end_ y1 y2 interior_above)
                  (Returned t) (seqZ start (end_ - start + 1))
        | _, _ => Undefined
        end
  | _, _ => Undefined
  end.

(** A sequence of [evaluate_segment] calls. *)
Definition evaluate_segments (t : intersecting_tiles_t)
    (segments : list (Q * Q * Q * Q * bool)) : outcome intersecting_tiles_t :=
  foldl (fun o '(x1, y1, x2, y2, outer_ring) =>
           bind_outcome o (fun t => evaluate_segment t x1 y1 x2 y2 outer_ring))
        (Returned t) segments.

End Atan2.

(** [std::numeric_limits<uint32_t>::max()], the mark of an invalidated entry. *)
Definition UINT32_MAX : Z := 2 ^ 32 - 1.

(** The body of the loop over [entry] in [sort_bounds], on the two vectors
    of one column. *)
Definition merge_overlapping (bounds : list Z * list Z) (entry : nat) : list Z * list Z :=
  let '(mins, maxs) := bounds in
  match mins !! entry, mins !! (entry - 1)%nat, maxs !! entry, maxs !! (entry - 1)%nat with
  | Some min_entry, Some min_prev, Some max_entry, Some max_prev =>
      if min_entry <=? max_prev then
        (<[(entry - 1)%nat := UINT32_MAX]> (<[entry := Z.min min_entry min_prev]> mins),
         <[(entry - 1)%nat := UINT32_MAX]> (<[entry := Z.max max_entry max_prev]> maxs))
      else (mins, maxs)
  | _, _, _, _ => (mins, maxs)
  end.

(** [for (size_t entry = 1; entry < std::min(min.size(), max.size()); ++entry)] *)
Definition merge_column (mins maxs : list Z) : list Z * list Z :=
  foldl merge_overlapping (mins, maxs)
        (seq 1 (Nat.min (length mins) (length maxs) - 1)).

(** The loop over the columns in [sort_bounds]: the columns both vectors
    have are merged, the others are kept. *)
Fixpoint merge_columns (min_bounds max_bounds : list (list Z))
  : list (list Z) * list (list Z) :=
  match min_bounds, max_bounds with
  | mins :: min_rest, maxs :: max_rest =>
      let '(mins, maxs) := merge_column mins maxs in
      let '(min_rest, max_rest) := merge_columns min_rest max_rest in
      (mins :: min_rest, maxs :: max_rest)
  | _, _ => (min_bounds, max_bounds)
  end.

(** [void sort_bounds()]: sort every column, merge overlapping intervals,
    sort again. *)
Definition sort_bounds (t : intersecting_tiles_t) : intersecting_tiles_t :=
  let '(mins, maxs) :=
    merge_columns (merge_sort Z.le <$> min_bounds t) (merge_sort Z.le <$> max_bounds t) in
  set_max_bounds (set_min_bounds t (merge_sort Z.le <$> mins)) (merge_sort Z.le <$> maxs).

(** [bool is_valid_bounds_entry(uint32_t value) { return value < max_tile_id; }] *)
Definition is_valid_bounds_entry (t : intersecting_tiles_t) (value : Z) : bool :=
  value <? max_tile_id t.

(** [bool column_has_intervals()]; [None] when [at(current_x)] throws. *)
Definition column_has_intervals (t : intersecting_tiles_t) : option bool :=
  match min_bounds t !! Z.to_nat (current_x t), max_bounds t !! Z.to_nat (current_x t) with
  | Some mins, Some maxs =>
      Some ((next_idx_min t <? Z.of_nat (length mins))
            && (next_idx_max t <? Z.of_nat (length maxs)))
  | _, _ => None
  end.

Definition set_cursor (t : intersecting_tiles_t) (column idx_min idx_max : Z) :=
  {| offset_x := offset_x t; max_tile_id := max_tile_id t;
     TILE_EXPIRY_LEEWAY := TILE_EXPIRY_LEEWAY t;
     min_bounds := min_bounds t; max_bounds := max_bounds t;
     current_x := column; next_idx_min := idx_min; next_idx_max := idx_max |}.

(** [get_next_pair()] when [column_has_intervals()] holds: the pair, or
    nothing for an entry that is not valid, and the cursor moved on. *)
Definition get_next_pair (t : intersecting_tiles_t)
  : option (option (Z * Z) * intersecting_tiles_t) :=
  match min_bounds t !! Z.to_nat (current_x t), max_bounds t !! Z.to_nat (current_x t) with
  | Some mins, Some maxs =>
      match mins !! Z.to_nat (next_idx_min t), maxs !! Z.to_nat (next_idx_max t) with
      | Some minimum, Some maximum =>
          let t' := set_cursor t (current_x t) (wrap32 (next_idx_min t + 1))
                               (wrap32 (next_idx_max t + 1)) in
          if is_valid_bounds_entry t maximum && is_valid_bounds_entry t minimum
          then Some (Some (minimum, maximum), t')
          else Some (None, t')
      | _, _ => None
      end
  | _, _ => None
  end.

(** [bool move_to_next_column()] *)
Definition move_to_next_column (t : intersecting_tiles_t) : bool * intersecting_tiles_t :=
  let column := wrap32 (current_x t + 1) in
  ((column <? Z.of_nat (length (min_bounds t)))
   && (column <? Z.of_nat (length (max_bounds t))),
   set_cursor t column 0 0).

(** [uint32_t get_current_x() { return current_x + offset_x; }] *)
Definition get_current_x (t : intersecting_tiles_t) : Z :=
  wrap32 (current_x t + offset_x t).

(** Enough steps for [read_intervals]: each step takes an entry of a column
    or moves to the next column. *)
Definition intervals_fuel (t : intersecting_tiles_t) : nat :=
  S (length (concat (min_bounds t)) + length (min_bounds t)).

(** The loop that reads the intervals,
    [do { while (tiles.column_has_intervals()) { ... } } while (tiles.move_to_next_column());],
    with the triples [(x, minimum, maximum)] it visits; [fuel] bounds
    the number of steps and [None] is an exception or the end of the fuel. *)
Fixpoint read_intervals (fuel : nat) (t : intersecting_tiles_t) : option (list (Z * Z * Z)) :=
  match fuel with
  | O => None
  | S fuel' =>
      match column_has_intervals t with
      | Some true =>
          match get_next_pair t with
          | Some (Some (minimum, maximum), t') =>
              match read_intervals fuel' t' with
              | Some rest => Some ((get_current_x t, minimum, maximum) :: rest)
              | None => None
              end
          | Some (None, t') => read_intervals fuel' t'
          | None => None
          end
      | Some false =>
          let '(more, t') := move_to_next_column t in
          if more then read_intervals fuel' t' else Some []
      | None => None
      end
  end.

(** The short-edge sentence read with the mathematical floor: the edge
    [(x1, y1)-(x2, y2)] whose two buffered ends have the same floor adds
    the floor of the buffered lower end to the minimums and the floor of the
    buffered upper end to the maximums of the column of that floor. *)
Definition short_edge_with_floor (atan2 : Q -> Q -> Q) (t : intersecting_tiles_t)
    (x1 y1 x2 y2 : Q) (outer_ring : bool) : Prop :=
  let leeway := TILE_EXPIRY_LEEWAY t in
  Qfloor (dmin x1 x2 - leeway)%Q = Qfloor (dmax x1 x2 + leeway)%Q ->
  exists b_min b_max,
    emplace_back_at (min_bounds t)
      (get_x_index t (Qfloor (dmin x1 x2 - leeway)%Q))
      (Qfloor (dmin y1 y2 - leeway)%Q) = Some b_min /\
    emplace_back_at (max_bounds t)
      (get_x_index t (Qfloor (dmin x1 x2 - leeway)%Q))
      (Qfloor (dmax y1 y2 + leeway)%Q) = Some b_max /\
    evaluate_segment atan2 t x1 y1 x2 y2 outer_ring
    = Returned (set_max_bounds (set_min_bounds t b_min) b_max).

End IntersectingTiles.

(** ** Reading polygons and lines from WKB *)

Module Wkb.

Import IntersectingTiles.

(** [osmium::geom::Coordinates] *)
Record coordinates := mk_coordinates { cx : Q; cy : Q }.

(** Modelled from the spec: the geometry types of the EWKB parser
    [ewkb::parser_t] of [wkb.hpp], which is not among the sources.  The spec
    consumes the parser "as a pure iterator of points with a header-tag
    discriminator" exposing [read_header() -> type_code],
    [read_length() -> u32], [read_point() -> {x, y}] and
    [save_pos()]/[rewind(pos)]. *)
Inductive geometry_type :=
| wkb_point
| wkb_line
| wkb_polygon
| wkb_multi_line
| wkb_multi_polygon
| wkb_other (code : Z).

(** Modelled from the spec: the items the parser of [wkb.hpp] reads, a
    header with its type code, a length or a point. *)
Inductive wkb_item :=
| Wkb_header (type : geometry_type)
| Wkb_length (n : Z)
| Wkb_point (c : coordinates).

(** Modelled from the spec: the state of [ewkb::parser_t], the items and
    the position of the cursor. *)
Record parser_t := mk_parser { wkb_data : list wkb_item; wkb_pos : nat }.

(** Modelled from the spec: [read_header() -> type_code]; [None] when the
    item under the cursor is not a header. *)
Definition read_header (p : parser_t) : option (geometry_type * parser_t) :=
  match wkb_data p !! wkb_pos p with
  | Some (Wkb_header type) =>
      Some (type, {| wkb_data := wkb_data p; wkb_pos := S (wkb_pos p) |})
  | _ => None
  end.

(** Modelled from the spec: [read_length() -> u32]; [None] when the item
    under the cursor is not a length. *)
Definition read_length (p : parser_t) : option (Z * parser_t) :=
  match wkb_data p !! wkb_pos p with
  | Some (Wkb_length n) => Some (n, {| wkb_data := wkb_data p; wkb_pos := S (wkb_pos p) |})
  | _ => None
  end.

(** Modelled from the spec: [read_point() -> {x, y}]; [None] when the item
    under the cursor is not a point. *)
Definition read_point (p : parser_t) : option (coordinates * parser_t) :=
  match wkb_data p !! wkb_pos p with
  | Some (Wkb_point c) => Some (c, {| wkb_data := wkb_data p; wkb_pos := S (wkb_pos p) |})
  | _ => None
  end.

(** Modelled from the spec: [save_pos()] gives the position of the cursor. *)
Definition save_pos (p : parser_t) : nat := wkb_pos p.

(** Modelled from the spec: [rewind(pos)] puts the cursor back. *)
Definition rewind (p : parser_t) (start : nat) : parser_t :=
  {| wkb_data := wkb_data p; wkb_pos := start |}.

(** What the WKB readers ask of the rasterizer, in order: the calls of
    [from_point], [from_line_lon_lat], [from_bbox] and
    [from_bbox_without_buffer]. *)
Inductive rasterizer_call :=
| Call_from_point (lon lat : Q)
| Call_from_line_lon_lat (lon_a lat_a lon_b lat_b : Q)
| Call_from_bbox (min_x min_y max_x max_y : Q)
| Call_from_bbox_without_buffer (min_x min_y max_x max_y : Z).

(** [void expire_tiles::from_wkb_point(ewkb::parser_t *wkb)] *)
Definition from_wkb_point (wkb : parser_t) : option (list rasterizer_call * parser_t) :=
  match read_point wkb with
  | Some (c, wkb) => Some ([Call_from_point (cx c) (cy c)], wkb)
  | None => None
  end.

(** [for (size_t i = 1; i < sz; ++i)] of [from_wkb_line], [n] iterations left. *)
Fixpoint from_wkb_line_loop (n : nat) (prev : coordinates) (wkb : parser_t)
  : option (list rasterizer_call * parser_t) :=
  match n with
  | O => Some ([], wkb)
  | S n' =>
      match read_point wkb with
      | Some (cur, wkb) =>
          match from_wkb_line_loop n' cur wkb with
          | Some (calls, wkb) =>
              Some (Call_from_line_lon_lat (cx prev) (cy prev) (cx cur) (cy cur) :: calls, wkb)
          | None => None
          end
      | None => None
      end
  end.

(** [void expire_tiles::from_wkb_line(ewkb::parser_t *wkb)] *)
Definition from_wkb_line (wkb : parser_t) : option (list rasterizer_call * parser_t) :=
  match read_length wkb with
  | Some (sz, wkb) =>
      if sz =? 0 then Some ([], wkb)
      else if sz =? 1 then from_wkb_point wkb
      else
        match read_point wkb with
        | Some (prev, wkb) => from_wkb_line_loop (Z.to_nat (sz - 1)) prev wkb
        | None => None
        end
  | None => None
  end.

(** The bounding box loop of [from_wkb_polygon]. *)
Fixpoint bounding_box_loop (n : nat) (min max : coordinates) (wkb : parser_t)
  : option (coordinates * coordinates * parser_t) :=
  match n with
  | O => Some (min, max, wkb)
  | S n' =>
      match read_point wkb with
      | Some (c, wkb) =>
          let min := if Qlt_bool (cx c) (cx min) then mk_coordinates (cx c) (cy min) else min in
          let min := if Qlt_bool (cy c) (cy min) then mk_coordinates (cx min) (cy c) else min in
          let max := if Qlt_bool (cx max) (cx c) then mk_coordinates (cx c) (cy max) else max in
          let max := if Qlt_bool (cy max) (cy c) then mk_coordinates (cx max) (cy c) else max in
          bounding_box_loop n' min max wkb
      | None => None
      end
  end.

(** The loop of the evil branch,
    [for (unsigned ring = 0; ring < num_rings; ++ring)
       { wkb->rewind(start); from_wkb_line(wkb); return; }]:
    [inl] is the [return] out of [from_wkb_polygon], [inr] the parser when
    the loop ends without it. The body returns in its first iteration. *)
Definition evil_rings_loop (num_rings : nat) (start : nat) (wkb : parser_t)
  : option (list rasterizer_call * parser_t) + parser_t :=
  match num_rings with
  | O => inr wkb
  | S _ => inl (from_wkb_line (rewind wkb start))
  end.

Section Polygon.

(** Modelled from the spec: [projection->coords_to_tile(&x, &y, lon, lat, map_width)]
    of the projection library, which is not among the sources: "a single
    pure function [lonlat_to_tile(lon, lat, map_width) -> (x, y)]". *)
Variable coords_to_tile : Q -> Q -> Z -> Q * Q.

(** [std::atan2] of the C library on doubles. *)
Variable atan2 : Q -> Q -> Q.

(** The members [map_width] and [max_bbox] of the [expire_tiles] object. *)
Variable map_width : Z.
Variable max_bbox : Q.

(** [for (size_t i = 1; i < ring_size; ++i)]: the edges of one ring go to
    [evaluate_segment]; [None] when it throws or is undefined. *)
Fixpoint polygon_ring_loop (n : nat) (prev : coordinates) (outer_ring : bool)
    (tiles : intersecting_tiles_t) (wkb : parser_t)
  : option (intersecting_tiles_t * parser_t) :=
  match n with
  | O => Some (tiles, wkb)
  | S n' =>
      match read_point wkb with
      | Some (cur, wkb) =>
          let '(tile_x_a, tile_y_a) := coords_to_tile (cx prev) (cy prev) map_width in
          let '(tile_x_b, tile_y_b) := coords_to_tile (cx cur) (cy cur) map_width in
          match evaluate_segment atan2 tiles tile_x_a tile_y_a tile_x_b tile_y_b outer_ring with
          | Returned tiles => polygon_ring_loop n' cur outer_ring tiles wkb
          | _ => None
          end
      | None => None
      end
  end.

(** [for (unsigned ring = 0; ring < num_rings; ++ring)] of the fill: the
    structure is [None] after the [return] for a degenerated outer ring. *)
Fixpoint polygon_rings_loop (n : nat) (ring : Z) (tiles : intersecting_tiles_t)
    (wkb : parser_t) : option (option intersecting_tiles_t * parser_t) :=
  match n with
  | O => Some (Some tiles, wkb)
  | S n' =>
      match read_length wkb with
      | Some (ring_size, wkb) =>
          if (ring_size <=? 1) && (ring =? 0) then Some (None, wkb)
          else if ring_size <=? 3 then polygon_rings_loop n' (ring + 1) tiles wkb
          else
            match read_point wkb with
            | Some (prev, wkb) =>
                match polygon_ring_loop (Z.to_nat (ring_size - 1)) prev (ring =? 0)
                                        tiles wkb with
                | Some (tiles, wkb) => polygon_rings_loop n' (ring + 1) tiles wkb
                | None => None
                end
            | None => None
            end
      | None => None
      end
  end.

(** [from_wkb_polygon] after the evil branch, from "reproject coordinates
    of bounding box" on: the bounding box of a polygon within one column,
    then the intervals of the scanline structure. *)
Definition fill_polygon (min max : coordinates) (num_rings : Z) (start : nat)
    (wkb : parser_t) : option (list rasterizer_call * parser_t) :=
  let '(min_x, min_y) := coords_to_tile (cx min) (cy max) map_width in
  let '(max_x, max_y) := coords_to_tile (cx max) (cy min) map_width in
  match to_uint32 min_x, to_uint32 max_x with
  | Some column_min, Some column_max =>
      let bbox :=
        if column_min =? column_max then [Call_from_bbox min_x min_y max_x max_y] else [] in
      let wkb := rewind wkb start in
      match new_intersecting_tiles min_x max_x map_width Expire.TILE_EXPIRY_LEEWAY with
      | Some tiles =>
          match polygon_rings_loop (Z.to_nat num_rings) 0 tiles wkb with
          | Some (Some tiles, wkb) =>
              let tiles := sort_bounds tiles in
              match read_intervals (intervals_fuel tiles) tiles with
              | Some intervals =>
                  Some (bbox ++ ((fun '(x, minimum, maximum) =>
                                    Call_from_bbox_without_buffer x minimum x maximum)
                                 <$> intervals),
                        wkb)
              | None => None
              end
          | Some (None, wkb) => Some (bbox, wkb)
          | None => None
          end
      | None => None
      end
  | _, _ => None
  end.

(** [void expire_tiles::from_wkb_polygon(ewkb::parser_t *wkb, osmid_t osm_id)];
    [None] when the parser runs off its items, an exception leaves the
    function or its behaviour is undefined. *)
Definition from_wkb_polygon (wkb : parser_t)
  : option (list rasterizer_call * parser_t) :=
  match read_length wkb with
  | Some (num_rings, wkb) =>
      let start := save_pos wkb in
      match read_length wkb with
      | Some (num_pt, wkb) =>
          match read_point wkb with
          | Some (initpt, wkb) =>
              match bounding_box_loop (Z.to_nat (num_pt - 1)) initpt initpt wkb with
              | Some (min, max, wkb) =>
                  let wkb := rewind wkb start in
                  if Qlt_bool max_bbox (dsub (cx max) (cx min))
                     || Qlt_bool max_bbox (dsub (cy max) (cy min))
                  then
                    match evil_rings_loop (Z.to_nat num_rings) start wkb with
                    | inl returned => returned
                    | inr wkb => fill_polygon min max num_rings start wkb
                    end
                  else fill_polygon min max num_rings start wkb
              | None => None
              end
          | None => None
          end
      | None => None
      end
  | None => None
  end.

(** The loops of [from_wkb] over the parts of a multi-geometry:
    [parse.read_header(); from_wkb_line(&parse);] and the same for polygons. *)
Fixpoint from_wkb_parts (n : nat)
    (part : parser_t -> option (list rasterizer_call * parser_t)) (wkb : parser_t)
  : option (list rasterizer_call * parser_t) :=
  match n with
  | O => Some ([], wkb)
  | S n' =>
      match read_header wkb with
      | Some (_, wkb) =>
          match part wkb with
          | Some (calls, wkb) =>
              match from_wkb_parts n' part wkb with
              | Some (calls', wkb) => Some (calls ++ calls', wkb)
              | None => None
              end
          | None => None
          end
      | None => None
      end
  end.

(** The [switch] of [void expire_tiles::from_wkb(const char *wkb, osmid_t osm_id)];
    an unknown type is reported and skipped. *)
Definition from_wkb_calls (wkb : parser_t) : option (list rasterizer_call * parser_t) :=
  match read_header wkb with
  | Some (header, wkb) =>
      match header with
      | wkb_point => from_wkb_point wkb
      | wkb_line => from_wkb_line wkb
      | wkb_polygon => from_wkb_polygon wkb
      | wkb_multi_line =>
          match read_length wkb with
          | Some (num, wkb) => from_wkb_parts (Z.to_nat num) from_wkb_line wkb
          | None => None
          end
      | wkb_multi_polygon =>
          match read_length wkb with
          | Some (num, wkb) => from_wkb_parts (Z.to_nat num) from_wkb_polygon wkb
          | None => None
          end
      | wkb_other _ => Some ([], wkb)
      end
  | None => None
  end.

End Polygon.

(** What the comment "expire all rings as if they were only lines" asks
    for: [from_wkb_line] on each of the [n] rings in turn. *)
Fixpoint expire_all_rings_as_lines (n : nat) (wkb : parser_t)
  : option (list rasterizer_call * parser_t) :=
  match n with
  | O => Some ([], wkb)
  | S n' =>
      match from_wkb_line wkb with
      | Some (calls, wkb) =>
          match expire_all_rings_as_lines n' wkb with
          | Some (calls', wkb) => Some (calls ++ calls', wkb)
          | None => None
          end
      | None => None
      end
  end.

(** The items of a polygon with the given rings. *)
Definition polygon_items (rings : list (list coordinates)) : list wkb_item :=
  Wkb_length (Z.of_nat (length rings))
  :: concat (map (fun ring => Wkb_length (Z.of_nat (length ring)) :: map Wkb_point ring) rings).

End Wkb.

(** ** The WKB readers on the dirty-tile set *)

Module ExpireWkb.

Import Expire Rasterizer Wkb.

Section Projection.

Variable coords_to_tile : Q -> Q -> Z -> Q * Q.
Variable dsqrt : Q -> Q.
Variable atan2 : Q -> Q -> Q.

(** One call of the rasterizer on the object. *)
Definition run_call (st : expire_tiles) (call : rasterizer_call) : option expire_tiles :=
  match call with
  | Call_from_point lon lat => from_point coords_to_tile st lon lat
  | Call_from_line_lon_lat lon_a lat_a lon_b lat_b =>
      from_line_lon_lat coords_to_tile dsqrt st lon_a lat_a lon_b lat_b
  | Call_from_bbox min_x min_y max_x max_y => from_bbox st min_x min_y max_x max_y
  | Call_from_bbox_without_buffer min_x min_y max_x max_y =>
      Some (from_bbox_without_buffer st min_x min_y max_x max_y)
  end.

Definition run_calls (st : expire_tiles) (calls : list rasterizer_call)
  : option expire_tiles :=
  foldl (fun o call => st ← o; run_call st call) (Some st) calls.

(** [void expire_tiles::from_wkb(const char *wkb, osmid_t osm_id)] *)
Definition from_wkb (st : expire_tiles) (wkb : parser_t) : option expire_tiles :=
  if maxzoom st =? 0 then Some st
  else
    '(calls, _) ← from_wkb_calls coords_to_tile atan2 (map_width st) (max_bbox st) wkb;
    run_calls st calls.

(** [int expire_tiles::from_db(table_t* table, osmid_t osm_id)].
    Modelled from the spec: the rows of "an external table adapter" are
    the list [rows]. *)
Definition from_db (st : expire_tiles) (rows : list parser_t) : option (Z * expire_tiles) :=
  if maxzoom st =? 0 then Some (-1, st)
  else
    st ← foldl (fun o wkb => st ← o; from_wkb st wkb) (Some st) rows;
    Some (Z.of_nat (length rows), st).

(** The objects a program can build: constructed with a zoom level for
    which the constructor initialises every member, then changed by the
    methods that write to the set. *)
Inductive reachable : expire_tiles -> Prop :=
| reach_new (max : Z) (bbox : Q) (indeterminate : expire_tiles) :
    1 <= max <= 31 -> reachable (new_expire_tiles max bbox indeterminate)
| reach_expire_tile (st : expire_tiles) (x y : Z) :
    reachable st -> is_uint32 x -> is_uint32 y -> reachable (expire_tile st x y)
| reach_from_bbox_without_buffer (st : expire_tiles) (min_x min_y max_x max_y : Z) :
    reachable st ->
    is_uint32 min_x -> is_uint32 min_y -> is_uint32 max_x -> is_uint32 max_y ->
    reachable (from_bbox_without_buffer st min_x min_y max_x max_y)
| reach_from_bbox (st st' : expire_tiles) (min_x min_y max_x max_y : Q) :
    reachable st -> from_bbox st min_x min_y max_x max_y = Some st' -> reachable st'
| reach_from_bbox_lon_lat (st st' : expire_tiles) (min_x min_y max_x max_y : Q) :
    reachable st ->
    from_bbox_lon_lat coords_to_tile st min_x min_y max_x max_y = Some st' ->
    reachable st'
| reach_from_point (st st' : expire_tiles) (lon lat : Q) :
    reachable st -> from_point coords_to_tile st lon lat = Some st' -> reachable st'
| reach_from_line_lon_lat (st st' : expire_tiles) (lon_a lat_a lon_b lat_b : Q) :
    reachable st ->
    from_line_lon_lat coords_to_tile dsqrt st lon_a lat_a lon_b lat_b = Some st' ->
    reachable st'
| reach_expire_line_segment (st st' : expire_tiles) (x1 y1 x2 y2 : Q) :
    reachable st -> expire_line_segment dsqrt st x1 y1 x2 y2 = Some st' -> reachable st'
| reach_expire_line (st st' : expire_tiles) (x1 y1 x2 y2 : Q) :
    reachable st -> expire_line st x1 y1 x2 y2 = Some st' -> reachable st'
| reach_expire_vertical_line (st st' : expire_tiles) (x y1 y2 : Q) :
    reachable st -> expire_vertical_line st x y1 y2 = Some st' -> reachable st'
| reach_from_wkb (st st' : expire_tiles) (wkb : parser_t) :
    reachable st -> from_wkb st wkb = Some st' -> reachable st'
| reach_from_db (st st' : expire_tiles) (rows : list parser_t) (count : Z) :
    reachable st -> from_db st rows = Some (count, st') -> reachable st'
| reach_merge_self (self other self' other' : expire_tiles) :
    reachable self -> reachable other ->
    merge_and_destroy self other = Returned (self', other') ->
    reachable self'
| reach_merge_other (self other self' other' : expire_tiles) :
    reachable self -> reachable other ->
    merge_and_destroy self other = Returned (self', other') ->
    reachable other'.

End Projection.

End ExpireWkb.

(** ** Notions used in the further properties *)

(** *** The methods of [expire_tiles] as steps *)

Module Methods.

Import Expire Rasterizer Wkb ExpireWkb.

(** The tile remembered in [last_tile_x] and [last_tile_y] is in the set
    whenever [expire_tile] would accept it. *)
Definition cache_sound (st : expire_tiles) : Prop :=
  valid_tile_coord st (last_tile_x st) = true ->
  valid_tile_coord st (last_tile_y st) = true ->
  xy_to_quadkey (last_tile_x st) (last_tile_y st) (maxzoom st) ∈ m_dirty_tiles st.

(** The members the constructor sets and no method changes. *)
Definition same_configuration (a b : expire_tiles) : Prop :=
  tile_width a = tile_width b /\ max_bbox a = max_bbox b /\
  map_width a = map_width b /\ maxzoom a = maxzoom b.

(** [keeps st0 st]: the object [st] holds every tile of [st0] and has its
    configuration. *)
Definition keeps (st0 st : expire_tiles) : Prop :=
  m_dirty_tiles st0 ⊆ m_dirty_tiles st /\ same_configuration st0 st.

(** A sequence of [expire_tile] calls. *)
Definition expire_tile_calls (st : expire_tiles) (tiles : list (Z * Z)) : expire_tiles :=
  foldl (fun st '(x, y) => expire_tile st x y) st tiles.

Section Projection.

Variable coords_to_tile : Q -> Q -> Z -> Q * Q.
Variable dsqrt : Q -> Q.
Variable atan2 : Q -> Q -> Q.

(** One call of a method that writes to the set, on the object it is called
    on: [method_call st st'] when the call takes the object from [st] to
    [st']. *)
Inductive method_call : expire_tiles -> expire_tiles -> Prop :=
| call_expire_tile (st : expire_tiles) (x y : Z) :
    method_call st (expire_tile st x y)
| call_from_bbox_without_buffer (st : expire_tiles) (min_x min_y max_x max_y : Z) :
    method_call st (from_bbox_without_buffer st min_x min_y max_x max_y)
| call_from_bbox (st st' : expire_tiles) (min_x min_y max_x max_y : Q) :
    from_bbox st min_x min_y max_x max_y = Some st' -> method_call st st'
| call_from_bbox_lon_lat (st st' : expire_tiles) (min_x min_y max_x max_y : Q) :
    from_bbox_lon_lat coords_to_tile st min_x min_y max_x max_y = Some st' ->
    method_call st st'
| call_from_point (st st' : expire_tiles) (lon lat : Q) :
    from_point coords_to_tile st lon lat = Some st' -> method_call st st'
| call_from_line_lon_lat (st st' : expire_tiles) (lon_a lat_a lon_b lat_b : Q) :
    from_line_lon_lat coords_to_tile dsqrt st lon_a lat_a lon_b lat_b = Some st' ->
    method_call st st'
| call_expire_line_segment (st st' : expire_tiles) (x1 y1 x2 y2 : Q) :
    expire_line_segment dsqrt st x1 y1 x2 y2 = Some st' -> method_call st st'
| call_expire_line (st st' : expire_tiles) (x1 y1 x2 y2 : Q) :
    expire_line st x1 y1 x2 y2 = Some st' -> method_call st st'
| call_expire_vertical_line (st st' : expire_tiles) (x y1 y2 : Q) :
    expire_vertical_line st x y1 y2 = Some st' -> method_call st st'
| call_from_wkb (st st' : expire_tiles) (wkb : parser_t) :
    from_wkb coords_to_tile dsqrt atan2 st wkb = Some st' -> method_call st st'
| call_from_db (st st' : expire_tiles) (rows : list parser_t) (count : Z) :
    from_db coords_to_tile dsqrt atan2 st rows = Some (count, st') -> method_call st st'
| call_merge_and_destroy (self other self' other' : expire_tiles) :
    merge_and_destroy self other = Returned (self', other') -> method_call self self'.

(** The objects in use: constructed with a zoom level for which the
    constructor initialises every member, then changed by method calls, and
    never given away as the [other] of [merge_and_destroy]. *)
Inductive in_use : expire_tiles -> Prop :=
| in_use_new (max : Z) (bbox : Q) (indeterminate : expire_tiles) :
    1 <= max <= 31 -> in_use (new_expire_tiles max bbox indeterminate)
| in_use_call (st st' : expire_tiles) :
    in_use st -> method_call st st' -> in_use st'.

End Projection.

End Methods.

(** *** The scanline structure *)

Module Scanline.

Import IntersectingTiles.

(** [extends t t']: the structure [t'] has the columns of [t], each with
    its entries of [t] followed by new ones, and the same other members. *)
Definition extends (t t' : intersecting_tiles_t) : Prop :=
  offset_x t' = offset_x t /\ max_tile_id t' = max_tile_id t /\
  TILE_EXPIRY_LEEWAY t' = TILE_EXPIRY_LEEWAY t /\
  current_x t' = current_x t /\ next_idx_min t' = next_idx_min t /\
  next_idx_max t' = next_idx_max t /\
  Forall2 prefix (min_bounds t) (min_bounds t') /\
  Forall2 prefix (max_bounds t) (max_bounds t').

(** The object a call leaves behind, when it returns and when it throws. *)
Definition outcome_extends (t : intersecting_tiles_t) (o : outcome intersecting_tiles_t)
  : Prop :=
  match o with
  | Returned t' | Thrown _ t' => extends t t'
  | Undefined => True
  end.

End Scanline.

Module Stripes.

Import IntersectingTiles.




End Stripes.

Module Merging.

Import IntersectingTiles.

(** The merge loop of [sort_bounds] on one column, read as a pass over
    the pairs of a minimum and the maximum at the same index: [prev] is the
    pair at [entry - 1] as the loop has left it. *)
Fixpoint merge_pairs (prev : Z * Z) (rest : list (Z * Z)) : list (Z * Z) :=
  match rest with
  | [] => [prev]
  | entry :: rest' =>
      if entry.1 <=? prev.2
      then (UINT32_MAX, UINT32_MAX)
           :: merge_pairs (Z.min entry.1 prev.1, Z.max entry.2 prev.2) rest'
      else prev :: merge_pairs entry rest'
  end.

(** The entries the merge loop has not invalidated. *)
Definition survivors (pairs : list (Z * Z)) : list (Z * Z) :=
  filter (fun p => p <> (UINT32_MAX, UINT32_MAX)) pairs.

End Merging.

Module Intervals.

Import IntersectingTiles.

(** The intervals of one column: the pairs of a minimum and the maximum
    at the same index, without those that hold an entry that is not valid,
    each with the tile column [column + offset_x]. *)
Definition column_intervals (t : intersecting_tiles_t) (column : nat)
    (entries : list (Z * Z)) : list (Z * Z * Z) :=
  omap (fun '(minimum, maximum) =>
          if is_valid_bounds_entry t maximum && is_valid_bounds_entry t minimum
          then Some (wrap32 (Z.of_nat column + offset_x t), minimum, maximum)
          else None)
       entries.

(** The intervals of the columns [columns], the first of which has the
    index [column]. *)
Fixpoint intervals_from (t : intersecting_tiles_t) (column : nat)
    (columns : list (list Z * list Z)) : list (Z * Z * Z) :=
  match columns with
  | [] => []
  | (mins, maxs) :: rest =>
      column_intervals t column (zip mins maxs) ++ intervals_from t (S column) rest
  end.

Definition all_intervals (t : intersecting_tiles_t) : list (Z * Z * Z) :=
  intervals_from t 0 (zip (min_bounds t) (max_bounds t)).

End Intervals.

(** *** Linestrings *)

Module Linestrings.

Import Wkb.

(** The segments of a linestring that starts at [prev] and goes on through
    [points], each as a call of [from_line_lon_lat]. *)
Fixpoint line_segments (prev : coordinates) (points : list coordinates)
  : list rasterizer_call :=
  match points with
  | [] => []
  | cur :: rest =>
      Call_from_line_lon_lat (cx prev) (cy prev) (cx cur) (cy cur) :: line_segments cur rest
  end.

(** What a linestring asks of the rasterizer: nothing when it is empty, its
    point when it has one, its segments otherwise. *)
Definition line_calls (points : list coordinates) : list rasterizer_call :=
  match points with
  | [] => []
  | [c] => [Call_from_point (cx c) (cy c)]
  | prev :: rest => line_segments prev rest
  end.

(** The items of a linestring. *)
Definition line_items (points : list coordinates) : list wkb_item :=
  Wkb_length (Z.of_nat (length points)) :: (Wkb_point <$> points).

(** The parser [wkb] moved on by [n] items. *)
Definition advance (wkb : parser_t) (n : nat) : parser_t :=
  {| wkb_data := wkb_data wkb; wkb_pos := wkb_pos wkb + n |}.

End Linestrings.

Module MultiLine.

Import Wkb Linestrings.

(** The items of a multi-linestring: its header, the number of its
    linestrings, and each linestring with a header of its own. *)
Definition multi_line_items (lines : list (list coordinates)) : list wkb_item :=
  Wkb_header wkb_multi_line :: Wkb_length (Z.of_nat (length lines))
  :: concat ((fun points => Wkb_header wkb_line :: line_items points) <$> lines).

End MultiLine.

(** ** Concrete objects used in the examples *)

Module Examples.

Import Expire Rasterizer IntersectingTiles Wkb ExpireWkb.

(** Storage filled with zeros. *)
Definition zeroed_expire_tiles : expire_tiles :=
  {| tile_width := 0; max_bbox := 0; map_width := 0; maxzoom := 0;
     last_tile_x := 0; last_tile_y := 0; m_dirty_tiles := ∅ |}.

(** [expire_tiles(3, 1.0, projection)]: [map_width = 8]. *)
Definition zoom3 : expire_tiles := new_expire_tiles 3 1 zeroed_expire_tiles.

(** Two objects at zoom 3 holding the tiles [(3, 5)] and [(2, 5)], expired
    in the two possible orders. *)
Definition zoom3_a : expire_tiles := expire_tile (expire_tile zoom3 3 5) 2 5.
Definition zoom3_b : expire_tiles := expire_tile (expire_tile zoom3 2 5) 3 5.

(** The decimal literals of the tests and examples: [tenths n] is the double
    nearest to [n / 10]. *)
Definition tenths (n : Z) : Q := round_double (Qmake n 10).

(** A stand-in for [atan2] in the examples: the rounded value on the axes,
    [0], [PI], [PI / 2] and [- PI / 2], and elsewhere the middle of the open
    quadrant of the argument.  No edge of the examples is steep enough for
    the rounded [atan2] to reach [PI / 2]. *)
Definition atan2_of_quadrant (y x : Q) : Q :=
  if Qlt_bool 0 x then
    if Qlt_bool 0 y then round_double (PI / 4)
    else if Qlt_bool y 0 then round_double (- PI / 4) else 0%Q
  else if Qlt_bool x 0 then
    if Qlt_bool 0 y then round_double (3 * PI / 4)
    else if Qlt_bool y 0 then round_double (- 3 * PI / 4) else PI
  else
    if Qlt_bool 0 y then round_double (PI / 2)
    else if Qlt_bool y 0 then round_double (- PI / 2) else 0%Q.

(** [intersecting_tiles_t tiles(0.3, 0.6, 8, 0.1)]: one column, number 0. *)
Definition one_column : intersecting_tiles_t :=
  {| offset_x := 0; max_tile_id := 8; TILE_EXPIRY_LEEWAY := tenths 1;
     min_bounds := [[]]; max_bounds := [[]];
     current_x := 0; next_idx_min := 0; next_idx_max := 0 |}.

(** The tests of [test-intersecting-tiles.cpp]: construct with leeway 0.1,
    evaluate the segments, [sort_bounds()], read the intervals. *)
Definition intervals_of (x_min x_max : Z) (map_width : Z)
    (segments : list (Z * Z * Z * Z * bool)) : option (list (Z * Z * Z)) :=
  match new_intersecting_tiles (tenths x_min) (tenths x_max) map_width (tenths 1) with
  | Some t =>
      match evaluate_segments atan2_of_quadrant t
              ((fun '(x1, y1, x2, y2, outer) =>
                  (tenths x1, tenths y1, tenths x2, tenths y2, outer)) <$> segments) with
      | Returned t => read_intervals (intervals_fuel (sort_bounds t)) (sort_bounds t)
      | _ => None
      end
  | None => None
  end.

(** A polygon with an outer ring 10 units wide and a triangular hole. *)
Definition outer_ring : list coordinates :=
  [mk_coordinates 0 0; mk_coordinates 10 0; mk_coordinates 10 10;
   mk_coordinates 0 10; mk_coordinates 0 0].
Definition inner_ring : list coordinates :=
  [mk_coordinates 1 1; mk_coordinates 2 1; mk_coordinates 2 2; mk_coordinates 1 1].
Definition wide_polygon : parser_t :=
  {| wkb_data := polygon_items [outer_ring; inner_ring]; wkb_pos := 0 |}.

(** [expire_tiles et(12, 0.1, latlonproj)] and [expire_tiles et(19, 0.1, latlonproj)]
    of the tests. *)
Definition zoom12 : expire_tiles := new_expire_tiles 12 (tenths 1) zeroed_expire_tiles.
Definition zoom19 : expire_tiles := new_expire_tiles 19 (tenths 1) zeroed_expire_tiles.

(** The tiles written at [minzoom] after a rasterizer call. *)
Definition written_after (o : option expire_tiles) (minzoom : Z) : option (list dirty_tile) :=
  st ← o; output_and_destroy st minzoom.

(** [sqrt] on the segment of the test [expire_line_segment]: the double
    [2.505992817228196], nearest to the square root of the squared length
    [6.279999999999308] that the doubles of the test give. *)
Definition sqrt_of_test (d : Q) : Q := Qmake 5642994158931021 2251799813685248.

(** A projection for the examples: [x] is the longitude and [y] grows
    southward from the latitude [map_width]. *)
Definition flip_projection (lon lat : Q) (map_width : Z) : Q * Q :=
  (lon, dsub (inject_Z map_width) lat).

(** A small rectangle over the tile columns 2 and 3. *)
Definition small_polygon : parser_t :=
  {| wkb_data :=
       polygon_items
         [[mk_coordinates (tenths 24) (tenths 64); mk_coordinates (tenths 36) (tenths 64);
           mk_coordinates (tenths 36) (tenths 66); mk_coordinates (tenths 24) (tenths 66);
           mk_coordinates (tenths 24) (tenths 64)]];
     wkb_pos := 0 |}.

(** A column whose vectors hold the intervals [6, 7], [1, 3] and [2, 4],
    the minimums and the maximums in the order of their arrival. *)
Definition three_intervals : intersecting_tiles_t :=
  {| offset_x := 0; max_tile_id := 8; TILE_EXPIRY_LEEWAY := tenths 1;
     min_bounds := [[6; 1; 2]]; max_bounds := [[3; 7; 4]];
     current_x := 0; next_idx_min := 0; next_idx_max := 0 |}.

(** [intersecting_tiles_t tiles(0.5, 3.5, 8, 0.1)]: the columns 0 to 3. *)
Definition four_columns : intersecting_tiles_t :=
  {| offset_x := 0; max_tile_id := 8; TILE_EXPIRY_LEEWAY := tenths 1;
     min_bounds := [[]; []; []; []]; max_bounds := [[]; []; []; []];
     current_x := 0; next_idx_min := 0; next_idx_max := 0 |}.

End Examples.

(** The example of [expire-tiles.hpp]: [x = 3 = 0b011], [y = 5 = 0b101]
    give the quadkey [0b100111]. *)
Example xy_to_quadkey_3_5 : xy_to_quadkey 3 5 3 = 39.
Proof. reflexivity. Qed.

Example quadkey_to_xy_39 : quadkey_to_xy 39 3 = mk_xy 3 5.
Proof. reflexivity. Qed.


(** ** Bit-level description of the codec *)

Section QuadkeyBits.

Lemma testbit_wrap64 (v i : Z) :
  Z.testbit (wrap64 v) i = (i <? 64) && Z.testbit v i.
Proof. unfold wrap64. apply Z.testbit_mod_pow2. lia. Qed.

Lemma testbit_wrap32 (v i : Z) :
  Z.testbit (wrap32 v) i = (i <? 32) && Z.testbit v i.
Proof. unfold wrap32. apply Z.testbit_mod_pow2. lia. Qed.

(** One masked and shifted bit, as both loops compute it:
    [(v & (1ULL << z)) << s] has bit [z + s] equal to bit [z] of [v] and no
    other bit. *)
Lemma testbit_mask_shiftl (v z s i : Z) :
  0 <= z < 64 -> 0 <= s -> 0 <= i ->
  Z.testbit (wrap64 (Z.shiftl (Z.land v (wrap64 (Z.shiftl 1 z))) s)) i
  = (i <? 64) && (i =? z + s) && Z.testbit v z.
Proof.
  intros Hz Hs Hi.
  rewrite testbit_wrap64, Z.shiftl_spec by lia.
  destruct (Z.eqb_spec i (z + s)) as [->|Hne].
  - replace (z + s - s) with z by lia.
    rewrite Z.land_spec, testbit_wrap64, Z.shiftl_1_l, Z.pow2_bits_true by lia.
    destruct (z <? 64) eqn:E; [|lia].
    now rewrite !andb_true_r.
  - destruct (Z.ltb_spec (i - s) 0) as [Hneg|Hpos].
    + rewrite Z.testbit_neg_r by lia. now rewrite !andb_false_r.
    + rewrite Z.land_spec, testbit_wrap64, Z.shiftl_1_l, Z.pow2_bits_false by lia.
      now rewrite !andb_false_r.
Qed.

Lemma testbit_mask_shiftr (q b s i : Z) :
  0 <= b < 64 -> 0 <= s <= b -> 0 <= i ->
  Z.testbit (Z.shiftr (Z.land q (wrap64 (Z.shiftl 1 b))) s) i
  = (i =? b - s) && Z.testbit q b.
Proof.
  intros Hb Hs Hi.
  rewrite Z.shiftr_spec, Z.land_spec, testbit_wrap64, Z.shiftl_1_l by lia.
  destruct (Z.eqb_spec i (b - s)) as [->|Hne].
  - replace (b - s + s) with b by lia.
    rewrite Z.pow2_bits_true by lia.
    destruct (b <? 64) eqn:E; [|lia]. now rewrite andb_true_r.
  - rewrite Z.pow2_bits_false by lia. now rewrite !andb_false_r.
Qed.

(** Bits of a natural number split into the even and the odd positions. *)
Lemma bits_inj_even_odd (a b : Z) :
  (forall k, 0 <= k ->
     Z.testbit a (2 * k) = Z.testbit b (2 * k) /\
     Z.testbit a (2 * k + 1) = Z.testbit b (2 * k + 1)) ->
  a = b.
Proof.
  intros H. apply Z.bits_inj'. intros n Hn.
  destruct (Z.Even_or_Odd n) as [[k ->]|[k ->]].
  - apply H. lia.
  - apply H. lia.
Qed.

Lemma xy_to_quadkey_step_even (x y z quadkey k : Z) :
  0 <= z < 32 -> 0 <= k ->
  Z.testbit (xy_to_quadkey_step x y z quadkey) (2 * k)
  = Z.testbit quadkey (2 * k) || (k =? z) && Z.testbit x z.
Proof.
  intros Hz Hk. unfold xy_to_quadkey_step.
  rewrite !Z.lor_spec, !testbit_mask_shiftl by lia.
  replace (2 * k =? z + (z + 1)) with false by lia.
  replace (2 * k =? z + z) with (k =? z) by lia.
  destruct (Z.eqb_spec k z) as [->|Hne]; simpl.
  - replace (2 * z <? 64) with true by lia. now rewrite andb_false_r, orb_false_r.
  - now rewrite !andb_false_r, !orb_false_r.
Qed.

Lemma xy_to_quadkey_step_odd (x y z quadkey k : Z) :
  0 <= z < 32 -> 0 <= k ->
  Z.testbit (xy_to_quadkey_step x y z quadkey) (2 * k + 1)
  = Z.testbit quadkey (2 * k + 1) || (k =? z) && Z.testbit y z.
Proof.
  intros Hz Hk. unfold xy_to_quadkey_step.
  rewrite !Z.lor_spec, !testbit_mask_shiftl by lia.
  replace (2 * k + 1 =? z + z) with false by lia.
  replace (2 * k + 1 =? z + (z + 1)) with (k =? z) by lia.
  destruct (Z.eqb_spec k z) as [->|Hne]; simpl.
  - replace (2 * z + 1 <? 64) with true by lia.
    now rewrite andb_false_r, orb_false_r.
  - now rewrite !andb_false_r, !orb_false_r.
Qed.

Lemma xy_to_quadkey_loop_bits (x y : Z) (n : nat) :
  forall z hi quadkey k,
    0 <= z -> hi = z + Z.of_nat n -> hi <= 32 -> 0 <= k ->
    Z.testbit (xy_to_quadkey_loop x y n z quadkey) (2 * k)
    = Z.testbit quadkey (2 * k) || (z <=? k) && (k <? hi) && Z.testbit x k
    /\
    Z.testbit (xy_to_quadkey_loop x y n z quadkey) (2 * k + 1)
    = Z.testbit quadkey (2 * k + 1) || (z <=? k) && (k <? hi) && Z.testbit y k.
Proof.
  induction n as [|n IH]; intros z hi quadkey k Hz Hhi Hn Hk.
  - simpl. replace ((z <=? k) && (k <? hi)) with false by lia.
    now rewrite !orb_false_r.
  - cbn [xy_to_quadkey_loop].
    destruct (IH (z + 1) hi (xy_to_quadkey_step x y z quadkey) k) as [He Ho]; [lia..|].
    rewrite He, Ho, xy_to_quadkey_step_even, xy_to_quadkey_step_odd by lia.
    destruct (Z.eqb_spec k z) as [->|Hne].
    + replace (z + 1 <=? z) with false by lia.
      replace (z <=? z) with true by lia.
      replace (z <? hi) with true by lia.
      simpl. now rewrite !orb_false_r.
    + replace (z + 1 <=? k) with (z <=? k) by lia.
      now rewrite !orb_false_r.
Qed.

(** Bit [2k] of a quadkey is bit [k] of [x], bit [2k+1] is bit [k] of [y],
    for the levels [k < zoom]; nothing above. *)
Lemma xy_to_quadkey_even (x y zoom k : Z) :
  0 <= zoom <= 32 -> 0 <= k ->
  Z.testbit (xy_to_quadkey x y zoom) (2 * k) = (k <? zoom) && Z.testbit x k.
Proof.
  intros Hz Hk. unfold xy_to_quadkey.
  destruct (xy_to_quadkey_loop_bits x y (Z.to_nat zoom) 0 zoom 0 k) as [He _]; [lia..|].
  rewrite He, Z.bits_0. simpl.
  now replace (0 <=? k) with true by lia.
Qed.

Lemma xy_to_quadkey_odd (x y zoom k : Z) :
  0 <= zoom <= 32 -> 0 <= k ->
  Z.testbit (xy_to_quadkey x y zoom) (2 * k + 1) = (k <? zoom) && Z.testbit y k.
Proof.
  intros Hz Hk. unfold xy_to_quadkey.
  destruct (xy_to_quadkey_loop_bits x y (Z.to_nat zoom) 0 zoom 0 k) as [_ Ho]; [lia..|].
  rewrite Ho, Z.bits_0. simpl.
  now replace (0 <=? k) with true by lia.
Qed.

Lemma testbit_high_zero (a n k : Z) :
  0 <= a < 2 ^ n -> 0 <= n <= k -> Z.testbit a k = false.
Proof.
  intros Ha Hk. rewrite <- (Z.mod_small a (2 ^ n)) by lia.
  apply Z.mod_pow2_bits_high. lia.
Qed.

Lemma below_pow2_of_bits (a n : Z) :
  0 <= n -> (forall k, n <= k -> Z.testbit a k = false) -> 0 <= a < 2 ^ n.
Proof.
  intros Hn H.
  assert (E : a = a mod 2 ^ n).
  { apply Z.bits_inj'. intros k Hk. rewrite Z.testbit_mod_pow2 by lia.
    destruct (Z.ltb_spec k n); simpl; [reflexivity|]. now apply H. }
  rewrite E. apply Z.mod_pos_bound. lia.
Qed.

Lemma single_bit_value (v p : Z) (c : bool) :
  0 <= p ->
  (forall i, 0 <= i -> Z.testbit v i = (i =? p) && c) ->
  v = Z.b2z c * 2 ^ p.
Proof.
  intros Hp H. apply Z.bits_inj'. intros i Hi. rewrite H by lia.
  destruct c; simpl.
  - rewrite Z.mul_1_l, Z.pow2_bits_eqb by lia.
    rewrite andb_true_r. apply Z.eqb_sym.
  - now rewrite Z.bits_0, andb_false_r.
Qed.

Lemma testbit_add_high_bit (a n k : Z) (b : bool) :
  0 <= a < 2 ^ n -> 0 <= n -> 0 <= k ->
  Z.testbit (a + Z.b2z b * 2 ^ n) k = Z.testbit a k || (k =? n) && b.
Proof.
  intros Ha Hn Hk.
  assert (Hbit : forall i, 0 <= i -> Z.testbit (Z.b2z b * 2 ^ n) i = (i =? n) && b).
  { intros i Hi. destruct b; simpl.
    - rewrite Z.mul_1_l, Z.pow2_bits_eqb by lia.
      rewrite andb_true_r. apply Z.eqb_sym.
    - now rewrite Z.bits_0, andb_false_r. }
  assert (Hdisj : Z.land a (Z.b2z b * 2 ^ n) = 0).
  { apply Z.bits_inj'. intros i Hi.
    rewrite Z.land_spec, Hbit, Z.bits_0 by lia.
    destruct (Z.eqb_spec i n) as [->|Hne]; simpl.
    - now rewrite (testbit_high_zero a n n) by lia.
    - apply andb_false_r. }
  rewrite Z.add_nocarry_lxor, Z.lxor_lor, Z.lor_spec, Hbit by (assumption || lia).
  reflexivity.
Qed.

Lemma x_of_quadkey_range (q : Z) (n : nat) : 0 <= x_of_quadkey q n < 2 ^ Z.of_nat n.
Proof.
  induction n as [|n IH]; [simpl; lia|].
  cbn [x_of_quadkey]. rewrite Nat2Z.inj_succ, Z.pow_succ_r by lia.
  destruct (Z.testbit q (2 * Z.of_nat n)); simpl Z.b2z; lia.
Qed.

Lemma y_of_quadkey_range (q : Z) (n : nat) : 0 <= y_of_quadkey q n < 2 ^ Z.of_nat n.
Proof.
  induction n as [|n IH]; [simpl; lia|].
  cbn [y_of_quadkey]. rewrite Nat2Z.inj_succ, Z.pow_succ_r by lia.
  destruct (Z.testbit q (2 * Z.of_nat n + 1)); simpl Z.b2z; lia.
Qed.

Lemma x_of_quadkey_bits (q : Z) (n : nat) (k : Z) :
  0 <= k ->
  Z.testbit (x_of_quadkey q n) k = (k <? Z.of_nat n) && Z.testbit q (2 * k).
Proof.
  intros Hk. induction n as [|n IH].
  - simpl. rewrite Z.bits_0. change (Z.of_nat 0) with 0.
    destruct (Z.ltb_spec k 0); [lia|reflexivity].
  - cbn [x_of_quadkey].
    rewrite testbit_add_high_bit by (apply x_of_quadkey_range || lia).
    rewrite IH. destruct (Z.eqb_spec k (Z.of_nat n)) as [->|Hne].
    + destruct (Z.ltb_spec (Z.of_nat n) (Z.of_nat n)); [lia|].
      destruct (Z.ltb_spec (Z.of_nat n) (Z.of_nat (S n))); [|lia]. reflexivity.
    + rewrite andb_false_l, orb_false_r.
      destruct (Z.ltb_spec k (Z.of_nat n)), (Z.ltb_spec k (Z.of_nat (S n)));
        (lia || reflexivity).
Qed.

Lemma y_of_quadkey_bits (q : Z) (n : nat) (k : Z) :
  0 <= k ->
  Z.testbit (y_of_quadkey q n) k = (k <? Z.of_nat n) && Z.testbit q (2 * k + 1).
Proof.
  intros Hk. induction n as [|n IH].
  - simpl. rewrite Z.bits_0. change (Z.of_nat 0) with 0.
    destruct (Z.ltb_spec k 0); [lia|reflexivity].
  - cbn [y_of_quadkey].
    rewrite testbit_add_high_bit by (apply y_of_quadkey_range || lia).
    rewrite IH. destruct (Z.eqb_spec k (Z.of_nat n)) as [->|Hne].
    + destruct (Z.ltb_spec (Z.of_nat n) (Z.of_nat n)); [lia|].
      destruct (Z.ltb_spec (Z.of_nat n) (Z.of_nat (S n))); [|lia]. reflexivity.
    + rewrite andb_false_l, orb_false_r.
      destruct (Z.ltb_spec k (Z.of_nat n)), (Z.ltb_spec k (Z.of_nat (S n)));
        (lia || reflexivity).
Qed.

(** What one iteration of [quadkey_to_xy] adds to each coordinate. *)
Lemma quadkey_to_xy_step_spec (q : Z) (n : nat) (r : xy_coord_t) :
  (n < 32)%nat ->
  quadkey_to_xy_step q (Z.of_nat (S n)) r
  = {| xy_x := wrap32 (xy_x r + Z.b2z (Z.testbit q (2 * Z.of_nat n)) * 2 ^ Z.of_nat n);
       xy_y := wrap32 (xy_y r + Z.b2z (Z.testbit q (2 * Z.of_nat n + 1)) * 2 ^ Z.of_nat n) |}.
Proof.
  intros Hn. unfold quadkey_to_xy_step.
  assert (Hm : 0 <= Z.of_nat n < 32) by lia.
  rewrite Nat2Z.inj_succ. generalize dependent (Z.of_nat n). clear Hn n.
  intros m Hm.
  assert (Hsmall : forall c : bool, wrap32 (Z.b2z c * 2 ^ m) = Z.b2z c * 2 ^ m).
  { intros c. unfold wrap32. apply Z.mod_small.
    assert (2 ^ m < 2 ^ 32) by (apply Z.pow_lt_mono_r; lia).
    assert (0 < 2 ^ m) by (apply Z.pow_pos_nonneg; lia).
    destruct c; simpl Z.b2z; lia. }
  assert (Hx : Z.shiftr (Z.land q (wrap64 (Z.shiftl 1 (2 * (Z.succ m - 1))))) (Z.succ m - 1)
               = Z.b2z (Z.testbit q (2 * m)) * 2 ^ m).
  { apply single_bit_value; [lia|]. intros i Hi.
    rewrite testbit_mask_shiftr by lia.
    replace (2 * (Z.succ m - 1)) with (2 * m) by lia.
    do 2 f_equal. lia. }
  assert (Hy : Z.shiftr (Z.land q (wrap64 (Z.shiftl 1 (2 * Z.succ m - 1)))) (Z.succ m)
               = Z.b2z (Z.testbit q (2 * m + 1)) * 2 ^ m).
  { apply single_bit_value; [lia|]. intros i Hi.
    rewrite testbit_mask_shiftr by lia.
    replace (2 * Z.succ m - 1) with (2 * m + 1) by lia.
    do 2 f_equal. lia. }
  rewrite Hx, Hy, !Hsmall. reflexivity.
Qed.

Lemma wrap32_add_idemp (a b : Z) : wrap32 (wrap32 a + b) = wrap32 (a + b).
Proof. unfold wrap32. apply Zplus_mod_idemp_l. Qed.

Lemma wrap32_range (v : Z) : is_uint32 (wrap32 v).
Proof. unfold is_uint32, wrap32. apply Z.mod_pos_bound. lia. Qed.

Lemma wrap32_small (v : Z) : is_uint32 v -> wrap32 v = v.
Proof. unfold is_uint32, wrap32. intros H. now apply Z.mod_small. Qed.

Lemma quadkey_to_xy_loop_spec (q : Z) (n : nat) :
  forall r, (n <= 32)%nat -> is_uint32 (xy_x r) -> is_uint32 (xy_y r) ->
    quadkey_to_xy_loop q n r
    = {| xy_x := wrap32 (xy_x r + x_of_quadkey q n);
         xy_y := wrap32 (xy_y r + y_of_quadkey q n) |}.
Proof.
  induction n as [|n IH]; intros r Hn Hx Hy.
  - destruct r as [rx ry]. simpl in *.
    now rewrite !Z.add_0_r, !wrap32_small.
  - cbn [quadkey_to_xy_loop]. rewrite quadkey_to_xy_step_spec by lia.
    rewrite IH by (cbn [xy_x xy_y]; lia || apply wrap32_range).
    cbn [xy_x xy_y x_of_quadkey y_of_quadkey].
    rewrite !wrap32_add_idemp. f_equal; f_equal; lia.
Qed.

(** [quadkey_to_xy] computes the two bit sums. *)
Lemma quadkey_to_xy_spec (q zoom : Z) :
  0 <= zoom <= 32 ->
  quadkey_to_xy q zoom
  = {| xy_x := x_of_quadkey q (Z.to_nat zoom); xy_y := y_of_quadkey q (Z.to_nat zoom) |}.
Proof.
  intros Hz. unfold quadkey_to_xy.
  assert (Hx := x_of_quadkey_range q (Z.to_nat zoom)).
  assert (Hy := y_of_quadkey_range q (Z.to_nat zoom)).
  assert (2 ^ Z.of_nat (Z.to_nat zoom) <= 2 ^ 32) by (apply Z.pow_le_mono_r; lia).
  rewrite quadkey_to_xy_loop_spec by (cbn [xy_x xy_y]; unfold is_uint32; lia).
  cbn [xy_x xy_y]. rewrite !Z.add_0_l, !wrap32_small by (unfold is_uint32; lia).
  reflexivity.
Qed.

Lemma quadkey_to_xy_x_bits (q zoom k : Z) :
  0 <= zoom <= 32 -> 0 <= k ->
  Z.testbit (xy_x (quadkey_to_xy q zoom)) k = (k <? zoom) && Z.testbit q (2 * k).
Proof.
  intros Hz Hk. rewrite quadkey_to_xy_spec by lia. cbn [xy_x].
  rewrite x_of_quadkey_bits, Z2Nat.id by lia. reflexivity.
Qed.

Lemma quadkey_to_xy_y_bits (q zoom k : Z) :
  0 <= zoom <= 32 -> 0 <= k ->
  Z.testbit (xy_y (quadkey_to_xy q zoom)) k = (k <? zoom) && Z.testbit q (2 * k + 1).
Proof.
  intros Hz Hk. rewrite quadkey_to_xy_spec by lia. cbn [xy_y].
  rewrite y_of_quadkey_bits, Z2Nat.id by lia. reflexivity.
Qed.

Lemma quadkey_to_xy_range (q zoom : Z) :
  0 <= zoom <= 32 ->
  0 <= xy_x (quadkey_to_xy q zoom) < 2 ^ zoom /\
  0 <= xy_y (quadkey_to_xy q zoom) < 2 ^ zoom.
Proof.
  intros Hz. rewrite quadkey_to_xy_spec by lia. cbn [xy_x xy_y].
  assert (Hx := x_of_quadkey_range q (Z.to_nat zoom)).
  assert (Hy := y_of_quadkey_range q (Z.to_nat zoom)).
  rewrite Z2Nat.id in Hx, Hy by lia. lia.
Qed.

(** A quadkey has no bit at or above position [2 * zoom], whatever the
    coordinates are. *)
Lemma xy_to_quadkey_range (x y zoom : Z) :
  0 <= zoom <= 32 -> 0 <= xy_to_quadkey x y zoom < 2 ^ (2 * zoom).
Proof.
  intros Hz. apply below_pow2_of_bits; [lia|]. intros i Hi.
  destruct (Z.Even_or_Odd i) as [[k ->]|[k ->]].
  - rewrite xy_to_quadkey_even by lia.
    destruct (Z.ltb_spec k zoom); [lia|reflexivity].
  - rewrite xy_to_quadkey_odd by lia.
    destruct (Z.ltb_spec k zoom); [lia|reflexivity].
Qed.

(** Decoding after encoding, for coordinates of any size: the low [zoom]
    bits of each coordinate come back. *)
Lemma quadkey_to_xy_to_quadkey_mod (x y zoom : Z) :
  0 <= zoom <= 32 ->
  quadkey_to_xy (xy_to_quadkey x y zoom) zoom
  = {| xy_x := x mod 2 ^ zoom; xy_y := y mod 2 ^ zoom |}.
Proof.
  intros Hz.
  destruct (quadkey_to_xy (xy_to_quadkey x y zoom) zoom) as [rx ry] eqn:E.
  assert (Ex : rx = xy_x (quadkey_to_xy (xy_to_quadkey x y zoom) zoom)) by now rewrite E.
  assert (Ey : ry = xy_y (quadkey_to_xy (xy_to_quadkey x y zoom) zoom)) by now rewrite E.
  f_equal.
  - rewrite Ex. apply Z.bits_inj'. intros k Hk.
    rewrite quadkey_to_xy_x_bits, xy_to_quadkey_even, Z.testbit_mod_pow2 by lia.
    now destruct (k <? zoom).
  - rewrite Ey. apply Z.bits_inj'. intros k Hk.
    rewrite quadkey_to_xy_y_bits, xy_to_quadkey_odd, Z.testbit_mod_pow2 by lia.
    now destruct (k <? zoom).
Qed.

(** Encoding after decoding gives the quadkey back when it is a quadkey of
    that zoom level. *)
Lemma xy_to_quadkey_to_xy (q zoom : Z) :
  0 <= zoom <= 32 -> 0 <= q < 2 ^ (2 * zoom) ->
  xy_to_quadkey (xy_x (quadkey_to_xy q zoom)) (xy_y (quadkey_to_xy q zoom)) zoom = q.
Proof.
  intros Hz Hq. apply bits_inj_even_odd. intros k Hk.
  rewrite xy_to_quadkey_even, xy_to_quadkey_odd by lia.
  rewrite quadkey_to_xy_x_bits, quadkey_to_xy_y_bits by lia.
  destruct (Z.ltb_spec k zoom); simpl.
  - split; reflexivity.
  - rewrite !(testbit_high_zero q (2 * zoom)) by lia. split; reflexivity.
Qed.

(** The quadkey of the ancestor [d] levels up is the quadkey shifted right
    by [2 * d]. *)
Lemma xy_to_quadkey_shiftr (x y zoom d : Z) :
  0 <= zoom <= 32 -> 0 <= d <= zoom ->
  Z.shiftr (xy_to_quadkey x y zoom) (2 * d)
  = xy_to_quadkey (Z.shiftr x d) (Z.shiftr y d) (zoom - d).
Proof.
  intros Hz Hd. apply bits_inj_even_odd. intros k Hk.
  rewrite !Z.shiftr_spec by lia.
  replace (2 * k + 2 * d) with (2 * (k + d)) by lia.
  replace (2 * k + 1 + 2 * d) with (2 * (k + d) + 1) by lia.
  rewrite !xy_to_quadkey_even, !xy_to_quadkey_odd by lia.
  rewrite !Z.shiftr_spec by lia.
  replace (k + d <? zoom) with (k <? zoom - d) by lia.
  split; reflexivity.
Qed.

(** The tile decoded from a shifted quadkey is the decoded tile with both
    coordinates shifted. *)
Lemma quadkey_to_xy_shiftr (q zoom d : Z) :
  0 <= zoom <= 32 -> 0 <= d <= zoom ->
  quadkey_to_xy (Z.shiftr q (2 * d)) (zoom - d)
  = {| xy_x := Z.shiftr (xy_x (quadkey_to_xy q zoom)) d;
       xy_y := Z.shiftr (xy_y (quadkey_to_xy q zoom)) d |}.
Proof.
  intros Hz Hd.
  destruct (quadkey_to_xy (Z.shiftr q (2 * d)) (zoom - d)) as [rx ry] eqn:E.
  assert (Ex : rx = xy_x (quadkey_to_xy (Z.shiftr q (2 * d)) (zoom - d))) by now rewrite E.
  assert (Ey : ry = xy_y (quadkey_to_xy (Z.shiftr q (2 * d)) (zoom - d))) by now rewrite E.
  f_equal.
  - rewrite Ex. apply Z.bits_inj'. intros k Hk.
    rewrite Z.shiftr_spec, !quadkey_to_xy_x_bits, Z.shiftr_spec by lia.
    replace (k + d <? zoom) with (k <? zoom - d) by lia.
    do 2 f_equal. lia.
  - rewrite Ey. apply Z.bits_inj'. intros k Hk.
    rewrite Z.shiftr_spec, !quadkey_to_xy_y_bits, Z.shiftr_spec by lia.
    replace (k + d <? zoom) with (k <? zoom - d) by lia.
    do 2 f_equal. lia.
Qed.

End QuadkeyBits.
(** ** Properties of the codec *)

(** C1. Round trip: for every zoom level [z] in [[0, 31]] and all [x], [y]
    in [[0, 2^z)], decoding the quadkey of [(x, y)] at zoom [z] returns
    exactly [(x, y)]. *)
Theorem quadkey_round_trip (x y z : Z) :
  0 <= z <= 31 -> 0 <= x < 2 ^ z -> 0 <= y < 2 ^ z ->
  quadkey_to_xy (xy_to_quadkey x y z) z = {| xy_x := x; xy_y := y |}.
Proof.
  intros Hz Hx Hy.
  rewrite quadkey_to_xy_to_quadkey_mod by lia.
  now rewrite !Z.mod_small by lia.
Qed.

Lemma quadkey_round_trip_witness :
  quadkey_to_xy (xy_to_quadkey 131068 262143 18) 18 = {| xy_x := 131068; xy_y := 262143 |}.
Proof. apply quadkey_round_trip; lia. Defined.

(** C5. Ancestor by shift: for every zoom level [z] in [[0, 31]], all [x],
    [y] in [[0, 2^z)] and every [d] in [[0, z]], the quadkey shifted right by
    [2 * d] is the quadkey of [(x >> d, y >> d)] at zoom [z - d]. *)
Theorem quadkey_ancestor_by_shift (x y z d : Z) :
  0 <= z <= 31 -> 0 <= x < 2 ^ z -> 0 <= y < 2 ^ z -> 0 <= d <= z ->
  Z.shiftr (xy_to_quadkey x y z) (2 * d)
  = xy_to_quadkey (Z.shiftr x d) (Z.shiftr y d) (z - d).
Proof. intros Hz _ _ Hd. apply xy_to_quadkey_shiftr; lia. Qed.

Lemma quadkey_ancestor_by_shift_witness :
  Z.shiftr (xy_to_quadkey 3 5 3) (2 * 1) = xy_to_quadkey (Z.shiftr 3 1) (Z.shiftr 5 1) (3 - 1).
Proof. apply quadkey_ancestor_by_shift; lia. Defined.

(** C6. The boundary vectors of the encoding:
    [xy_to_quadkey(3, 5, 3) = 0x27],
    [xy_to_quadkey(65535, 65535, 16) = 0xFFFFFFFF],
    [xy_to_quadkey(262143, 262143, 18) = 0xFFFFFFFFF] and
    [xy_to_quadkey(131068, 131068, 18) = 0x3FFFFFFF0]. *)
Theorem quadkey_boundary_vectors :
  xy_to_quadkey 3 5 3 = 0x27 /\
  xy_to_quadkey 65535 65535 16 = 0xFFFFFFFF /\
  xy_to_quadkey 262143 262143 18 = 0xFFFFFFFFF /\
  xy_to_quadkey 131068 131068 18 = 0x3FFFFFFF0.
Proof. repeat split; vm_compute; reflexivity. Qed.

(** ** Rounding to a double *)

Section RoundingFacts.
Local Open Scope Q_scope.

Lemma pow2_pos (e : Z) : 0 < 2 ^ e.
Proof. apply Qpower_0_lt. reflexivity. Qed.

Lemma pow2_add (a b : Z) : 2 ^ (a + b) == 2 ^ a * 2 ^ b.
Proof. apply Qpower_plus. discriminate. Qed.

Lemma pow2_le (a b : Z) : (a <= b)%Z -> 2 ^ a <= 2 ^ b.
Proof. intros H. apply Qpower_le_compat_l; [exact H|discriminate]. Qed.

Lemma pow2_lt (a b : Z) : (a < b)%Z -> 2 ^ a < 2 ^ b.
Proof. intros H. apply Qpower_lt_compat_l; [exact H|reflexivity]. Qed.

Lemma pow2_lt_inv (a b : Z) : 2 ^ a < 2 ^ b -> (a < b)%Z.
Proof. intros H. apply (Qpower_lt_compat_l_inv 2); [exact H|reflexivity]. Qed.

Lemma pow2_inject (e : Z) : (0 <= e)%Z -> 2 ^ e == inject_Z (2 ^ e).
Proof. intros H. symmetry. apply (Zpower_Qpower 2 e H). Qed.

Lemma pow2_cancel (e : Z) : 2 ^ (- e) * 2 ^ e == 1.
Proof. rewrite <- pow2_add. replace (- e + e)%Z with 0%Z by lia. reflexivity. Qed.

(** *** Rounding to the nearest integer *)

Lemma round_nearest_even_comp (x y : Q) :
  x == y -> round_nearest_even x = round_nearest_even y.
Proof.
  intros H. unfold round_nearest_even. rewrite (Qfloor_comp x y H).
  replace (x - inject_Z (Qfloor y) ?= 1 # 2) with (y - inject_Z (Qfloor y) ?= 1 # 2);
    [reflexivity|].
  apply Qcompare_comp; [|reflexivity]. rewrite H. reflexivity.
Qed.

Lemma round_nearest_even_floor (x : Q) :
  (Qfloor x <= round_nearest_even x <= Qfloor x + 1)%Z.
Proof.
  unfold round_nearest_even. destruct (_ ?= _); [destruct (Z.even _)|..]; lia.
Qed.

Lemma round_nearest_even_Z (z : Z) : round_nearest_even (inject_Z z) = z.
Proof.
  unfold round_nearest_even. rewrite Qfloor_Z.
  replace (inject_Z z - inject_Z z ?= 1 # 2) with Lt; [reflexivity|].
  symmetry. apply -> Qlt_alt.
  assert (E : inject_Z z - inject_Z z == 0) by ring. rewrite E. reflexivity.
Qed.

Lemma round_nearest_even_monotone (x y : Q) :
  x <= y -> (round_nearest_even x <= round_nearest_even y)%Z.
Proof.
  intros H. assert (Hf := Qfloor_resp_le x y H).
  destruct (Z.eq_dec (Qfloor x) (Qfloor y)) as [E|E].
  - unfold round_nearest_even. rewrite E.
    destruct (Qcompare_spec (x - inject_Z (Qfloor y)) (1 # 2)) as [Hx|Hx|Hx];
      destruct (Qcompare_spec (y - inject_Z (Qfloor y)) (1 # 2)) as [Hy|Hy|Hy];
      try destruct (Z.even _); try lia; exfalso; lra.
  - assert (Hx := round_nearest_even_floor x). assert (Hy := round_nearest_even_floor y). lia.
Qed.

Lemma round_nearest_even_nonneg (x : Q) : 0 <= x -> (0 <= round_nearest_even x)%Z.
Proof.
  intros H. rewrite <- (round_nearest_even_Z 0). now apply round_nearest_even_monotone.
Qed.

(** *** The exponent *)

Lemma mag_spec (q : Q) : ~ q == 0 -> 2 ^ (mag q - 1) <= Qabs q /\ Qabs q < 2 ^ mag q.
Proof.
  intros Hq. destruct q as [n d]. unfold mag. cbn [Qnum Qden].
  set (la := Z.log2 (Z.abs n)). set (ld := Z.log2 (Z.pos d)).
  assert (Hn : (0 < Z.abs n)%Z).
  { destruct (Z.eq_dec n 0%Z) as [->|]; [|lia]. exfalso. apply Hq. reflexivity. }
  destruct (Z.log2_spec (Z.abs n) Hn) as [Ha1 Ha2]. fold la in Ha1, Ha2.
  destruct (Z.log2_spec (Z.pos d) ltac:(lia)) as [Hd1 Hd2]. fold ld in Hd1, Hd2.
  assert (Hla : (0 <= la)%Z) by apply Z.log2_nonneg.
  assert (Hld : (0 <= ld)%Z) by apply Z.log2_nonneg.
  assert (Eabs : Qabs (n # d) == inject_Z (Z.abs n) / inject_Z (Z.pos d)).
  { rewrite <- Zabs_Qabs. rewrite (Qmake_Qdiv (Z.abs n) d). reflexivity. }
  assert (Hdpos : 0 < inject_Z (Z.pos d)) by reflexivity.
  assert (Hlow : 2 ^ (la - ld - 1) < Qabs (n # d)).
  { rewrite Eabs. apply Qlt_shift_div_l; [exact Hdpos|].
    apply Qlt_le_trans with (2 ^ (la - ld - 1) * 2 ^ (ld + 1)).
    - apply Qmult_lt_l; [apply pow2_pos|].
      rewrite (pow2_inject (ld + 1)) by lia. rewrite <- Zlt_Qlt.
      replace (Z.succ ld) with (ld + 1)%Z in Hd2 by lia. exact Hd2.
    - rewrite <- pow2_add. replace (la - ld - 1 + (ld + 1))%Z with la by lia.
      rewrite (pow2_inject la) by lia. rewrite <- Zle_Qle. exact Ha1. }
  assert (Hhigh : Qabs (n # d) < 2 ^ (la - ld + 1)).
  { rewrite Eabs. apply Qlt_shift_div_r; [exact Hdpos|].
    apply Qlt_le_trans with (2 ^ (la - ld + 1) * 2 ^ ld).
    - rewrite <- pow2_add. replace (la - ld + 1 + ld)%Z with (la + 1)%Z by lia.
      rewrite (pow2_inject (la + 1)) by lia. rewrite <- Zlt_Qlt.
      replace (Z.succ la) with (la + 1)%Z in Ha2 by lia. exact Ha2.
    - apply Qmult_le_l; [apply pow2_pos|].
      rewrite (pow2_inject ld) by lia. rewrite <- Zle_Qle. exact Hd1. }
  destruct (Qle_bool (2 ^ (la - ld)) (Qabs (n # d))) eqn:E.
  - apply Qle_bool_iff in E. replace (la - ld + 1 - 1)%Z with (la - ld)%Z by lia.
    split; [exact E|exact Hhigh].
  - assert (Hlt : Qabs (n # d) < 2 ^ (la - ld)).
    { apply Qnot_le_lt. intros H. apply Qle_bool_iff in H. congruence. }
    split; [apply Qlt_le_weak, Hlow|exact Hlt].
Qed.

Lemma mag_unique (q : Q) (e : Z) : 2 ^ (e - 1) <= Qabs q -> Qabs q < 2 ^ e -> mag q = e.
Proof.
  intros H1 H2.
  assert (Hq : ~ q == 0).
  { intros E. assert (E0 : Qabs q == 0) by (rewrite E; reflexivity).
    assert (H := pow2_pos (e - 1)). lra. }
  destruct (mag_spec q Hq) as [H3 H4].
  assert (e - 1 < mag q)%Z by (apply pow2_lt_inv; lra).
  assert (mag q - 1 < e)%Z by (apply pow2_lt_inv; lra).
  lia.
Qed.

Lemma mag_comp (a b : Q) : ~ a == 0 -> a == b -> mag a = mag b.
Proof.
  intros Ha E. symmetry. destruct (mag_spec a Ha) as [H1 H2].
  apply mag_unique; rewrite <- E; assumption.
Qed.

Lemma mag_le (a b : Q) : ~ a == 0 -> Qabs a <= Qabs b -> (mag a <= mag b)%Z.
Proof.
  intros Ha H.
  assert (Hb : ~ b == 0).
  { intros E. assert (E0 : Qabs b == 0) by (rewrite E; reflexivity).
    apply Ha. revert H. rewrite E0. apply Qabs_case; intros; lra. }
  destruct (mag_spec a Ha) as [H1 _]. destruct (mag_spec b Hb) as [_ H2].
  assert (mag a - 1 < mag b)%Z by (apply pow2_lt_inv; lra). lia.
Qed.

(** *** Rounding to a double *)

Lemma Qeq_bool_false (a b : Q) : Qeq_bool a b = false -> ~ a == b.
Proof. intros H E. apply Qeq_bool_iff in E. congruence. Qed.

Lemma round_double_zero (q : Q) : q == 0 -> round_double q = 0.
Proof. intros H. unfold round_double. apply Qeq_bool_iff in H. now rewrite H. Qed.

Lemma round_double_comp (a b : Q) : a == b -> round_double a = round_double b.
Proof.
  intros E. unfold round_double.
  destruct (Qeq_bool a 0) eqn:Ea.
  - apply Qeq_bool_iff in Ea. assert (Eb : b == 0) by lra.
    apply Qeq_bool_iff in Eb. now rewrite Eb.
  - assert (Ha := Qeq_bool_false _ _ Ea).
    assert (Eb : Qeq_bool b 0 = false).
    { apply not_true_is_false. intros H. apply Qeq_bool_iff in H. apply Ha. lra. }
    rewrite Eb. unfold ulp_exponent. rewrite <- (mag_comp a b Ha E).
    rewrite (round_nearest_even_comp (Qabs b * 2 ^ (- Z.max (mag a - 53) (-1074)))
                                     (Qabs a * 2 ^ (- Z.max (mag a - 53) (-1074))))
      by (apply Qmult_comp; [apply Qabs_wd; symmetry; exact E|reflexivity]).
    replace (Qle_bool 0 b) with (Qle_bool 0 a); [reflexivity|].
    destruct (Qle_bool 0 a) eqn:H1, (Qle_bool 0 b) eqn:H2; try reflexivity.
    + apply Qle_bool_iff in H1. assert (H3 : 0 <= b) by lra.
      apply Qle_bool_iff in H3. congruence.
    + apply Qle_bool_iff in H2. assert (H3 : 0 <= a) by lra.
      apply Qle_bool_iff in H3. congruence.
Qed.

Lemma mag_opp (q : Q) : mag (- q) = mag q.
Proof.
  unfold mag. destruct q as [n d]. cbn [Qnum Qden Qopp]. rewrite Z.abs_opp.
  replace (Qabs (- (n # d))) with (Qabs (n # d)); [reflexivity|].
  unfold Qabs, Qopp. cbn [Qnum Qden]. rewrite Z.abs_opp. reflexivity.
Qed.

Lemma round_double_pos (q : Q) :
  0 < q ->
  round_double q
  = inject_Z (round_nearest_even (q * 2 ^ (- ulp_exponent q))) * 2 ^ ulp_exponent q.
Proof.
  intros H. unfold round_double.
  destruct (Qeq_bool q 0) eqn:E; [apply Qeq_bool_iff in E; lra|].
  assert (Hle : Qle_bool 0 q = true) by (apply Qle_bool_iff; lra).
  rewrite Hle.
  rewrite (round_nearest_even_comp (Qabs q * 2 ^ (- ulp_exponent q))
                                   (q * 2 ^ (- ulp_exponent q)));
    [reflexivity|].
  rewrite Qabs_pos by lra. reflexivity.
Qed.

Lemma round_double_opp (q : Q) : round_double (- q) == - round_double q.
Proof.
  unfold round_double.
  destruct (Qeq_bool q 0) eqn:E.
  - apply Qeq_bool_iff in E. assert (E' : - q == 0) by lra. apply Qeq_bool_iff in E'.
    rewrite E'. reflexivity.
  - assert (Hq := Qeq_bool_false _ _ E).
    assert (E' : Qeq_bool (- q) 0 = false).
    { apply not_true_is_false. intros H. apply Qeq_bool_iff in H. apply Hq. lra. }
    rewrite E'. unfold ulp_exponent. rewrite mag_opp.
    rewrite (round_nearest_even_comp (Qabs (- q) * 2 ^ (- Z.max (mag q - 53) (-1074)))
                                     (Qabs q * 2 ^ (- Z.max (mag q - 53) (-1074))))
      by (rewrite Qabs_opp; reflexivity).
    destruct (Qle_bool 0 q) eqn:H1, (Qle_bool 0 (- q)) eqn:H2.
    + apply Qle_bool_iff in H1, H2. exfalso. apply Hq. lra.
    + reflexivity.
    + lra.
    + exfalso. assert (Hn1 : ~ 0 <= q) by (intros H; apply Qle_bool_iff in H; congruence).
      assert (Hn2 : ~ 0 <= - q) by (intros H; apply Qle_bool_iff in H; congruence). lra.
Qed.

(** A point [n * 2^t] of a grid at least as coarse as the one [q] is
    rounded on bounds the rounded value as it bounds [q]. *)
Lemma round_double_le_grid (q : Q) (n t : Z) :
  0 < q -> (ulp_exponent q <= t)%Z -> q <= inject_Z n * 2 ^ t ->
  round_double q <= inject_Z n * 2 ^ t.
Proof.
  intros Hq Ht H. rewrite (round_double_pos q Hq). set (e := ulp_exponent q) in *.
  assert (Ec : inject_Z n * 2 ^ t == inject_Z (n * 2 ^ (t - e)) * 2 ^ e).
  { rewrite inject_Z_mult, <- (pow2_inject (t - e)) by lia.
    rewrite <- Qmult_assoc, <- pow2_add. replace (t - e + e)%Z with t by lia. reflexivity. }
  rewrite Ec. apply Qmult_le_compat_r; [|apply Qlt_le_weak, pow2_pos].
  rewrite <- Zle_Qle. rewrite <- (round_nearest_even_Z (n * 2 ^ (t - e))).
  apply round_nearest_even_monotone.
  rewrite Ec in H.
  apply Qle_trans with (inject_Z (n * 2 ^ (t - e)) * 2 ^ e * 2 ^ (- e)).
  - apply Qmult_le_compat_r; [exact H|apply Qlt_le_weak, pow2_pos].
  - rewrite <- Qmult_assoc. rewrite (Qmult_comm (2 ^ e)), pow2_cancel. lra.
Qed.

Lemma round_double_ge_grid (q : Q) (n t : Z) :
  0 < q -> (ulp_exponent q <= t)%Z -> inject_Z n * 2 ^ t <= q ->
  inject_Z n * 2 ^ t <= round_double q.
Proof.
  intros Hq Ht H. rewrite (round_double_pos q Hq). set (e := ulp_exponent q) in *.
  assert (Ec : inject_Z n * 2 ^ t == inject_Z (n * 2 ^ (t - e)) * 2 ^ e).
  { rewrite inject_Z_mult, <- (pow2_inject (t - e)) by lia.
    rewrite <- Qmult_assoc, <- pow2_add. replace (t - e + e)%Z with t by lia. reflexivity. }
  rewrite Ec. apply Qmult_le_compat_r; [|apply Qlt_le_weak, pow2_pos].
  rewrite <- Zle_Qle. rewrite <- (round_nearest_even_Z (n * 2 ^ (t - e))).
  apply round_nearest_even_monotone.
  rewrite Ec in H.
  apply Qle_trans with (inject_Z (n * 2 ^ (t - e)) * 2 ^ e * 2 ^ (- e)).
  - rewrite <- Qmult_assoc. rewrite (Qmult_comm (2 ^ e)), pow2_cancel. lra.
  - apply Qmult_le_compat_r; [exact H|apply Qlt_le_weak, pow2_pos].
Qed.

Lemma round_double_nonneg (q : Q) : 0 <= q -> 0 <= round_double q.
Proof.
  intros H. destruct (Qeq_dec q 0) as [E|E].
  - rewrite (round_double_zero q E). lra.
  - assert (Hq : 0 < q) by (destruct (Qlt_le_dec 0 q); [assumption|exfalso; apply E; lra]).
    rewrite (round_double_pos q Hq).
    apply Qmult_le_0_compat; [|apply Qlt_le_weak, pow2_pos].
    change 0 with (inject_Z 0). rewrite <- Zle_Qle. apply round_nearest_even_nonneg.
    apply Qmult_le_0_compat; [lra|apply Qlt_le_weak, pow2_pos].
Qed.

Lemma round_double_monotone_pos (a b : Q) :
  0 < a -> a <= b -> round_double a <= round_double b.
Proof.
  intros Ha Hab. assert (Hb : 0 < b) by lra.
  assert (Hna : ~ a == 0) by lra. assert (Hnb : ~ b == 0) by lra.
  assert (Hm : (mag a <= mag b)%Z) by (apply mag_le; [exact Hna|rewrite !Qabs_pos; lra]).
  destruct (Z.eq_dec (ulp_exponent a) (ulp_exponent b)) as [E|E].
  - rewrite (round_double_pos a Ha), (round_double_pos b Hb), E.
    apply Qmult_le_compat_r; [|apply Qlt_le_weak, pow2_pos].
    rewrite <- Zle_Qle. apply round_nearest_even_monotone.
    apply Qmult_le_compat_r; [exact Hab|apply Qlt_le_weak, pow2_pos].
  - assert (Hlt : (ulp_exponent a < ulp_exponent b)%Z) by (unfold ulp_exponent in *; lia).
    assert (Eb : ulp_exponent b = (mag b - 53)%Z) by (unfold ulp_exponent in *; lia).
    assert (Hma : (mag a < mag b)%Z) by (unfold ulp_exponent in *; lia).
    destruct (mag_spec a Hna) as [_ Ha2]. destruct (mag_spec b Hnb) as [Hb1 _].
    rewrite Qabs_pos in Ha2, Hb1 by lra.
    assert (Hp : 2 ^ mag a <= 2 ^ (mag b - 1)) by (apply pow2_le; lia).
    apply Qle_trans with (inject_Z 1 * 2 ^ (mag b - 1)).
    + apply round_double_le_grid; [exact Ha|lia|].
      change (inject_Z 1) with 1. lra.
    + apply round_double_ge_grid; [exact Hb|lia|].
      change (inject_Z 1) with 1. lra.
Qed.

(** Rounding is monotone. *)
Lemma round_double_monotone (a b : Q) : a <= b -> round_double a <= round_double b.
Proof.
  intros Hab. destruct (Qlt_le_dec 0 a) as [Ha|Ha].
  - now apply round_double_monotone_pos.
  - destruct (Qlt_le_dec b 0) as [Hb|Hb].
    + assert (H := round_double_monotone_pos (- b) (- a) ltac:(lra) ltac:(lra)).
      rewrite !round_double_opp in H. lra.
    + assert (H1 := round_double_nonneg b Hb).
      assert (H2 := round_double_nonneg (- a) ltac:(lra)).
      rewrite round_double_opp in H2. lra.
Qed.

(** A number of at most 53 bits times a power of two not below [2^-1074]
    is a double. *)
Lemma is_double_dyadic (m t : Z) :
  (Z.abs m < 2 ^ 53)%Z -> (-1074 <= t)%Z -> is_double (inject_Z m * 2 ^ t).
Proof.
  assert (Hpos : forall m, (0 < m < 2 ^ 53)%Z -> (-1074 <= t)%Z ->
                           is_double (inject_Z m * 2 ^ t)).
  { clear m. intros m Hm Ht. unfold is_double.
    assert (Hq : 0 < inject_Z m * 2 ^ t).
    { apply Qmult_lt_0_compat; [|apply pow2_pos].
      change 0 with (inject_Z 0). rewrite <- Zlt_Qlt. lia. }
    assert (He : (ulp_exponent (inject_Z m * 2 ^ t) <= t)%Z).
    { unfold ulp_exponent.
      assert (Hn : ~ inject_Z m * 2 ^ t == 0) by lra.
      destruct (mag_spec _ Hn) as [H1 _]. rewrite Qabs_pos in H1 by lra.
      assert (H2 : inject_Z m * 2 ^ t < 2 ^ (53 + t)).
      { rewrite pow2_add. apply Qmult_lt_r; [apply pow2_pos|].
        rewrite (pow2_inject 53) by lia. rewrite <- Zlt_Qlt. lia. }
      assert (mag (inject_Z m * 2 ^ t) - 1 < 53 + t)%Z by (apply pow2_lt_inv; lra).
      lia. }
    apply Qle_antisym.
    - apply round_double_le_grid; [exact Hq|exact He|lra].
    - apply round_double_ge_grid; [exact Hq|exact He|lra]. }
  intros Hm Ht. destruct (Z.lt_trichotomy m 0) as [H|[->|H]].
  - unfold is_double.
    assert (E : inject_Z m * 2 ^ t == - (inject_Z (- m) * 2 ^ t))
      by (rewrite inject_Z_opp; ring).
    rewrite (round_double_comp _ _ E), round_double_opp, E.
    apply Qopp_comp. apply Hpos; lia.
  - unfold is_double. rewrite (round_double_zero (inject_Z 0 * 2 ^ t)); ring.
  - apply Hpos; lia.
Qed.

Lemma is_double_comp (a b : Q) : a == b -> is_double a -> is_double b.
Proof. unfold is_double. intros E H. rewrite <- (round_double_comp a b E), H. exact E. Qed.

Lemma is_double_Z (z : Z) : (Z.abs z < 2 ^ 53)%Z -> is_double (inject_Z z).
Proof.
  intros H. apply (is_double_comp (inject_Z z * 2 ^ 0)).
  - change (2 ^ 0) with 1. ring.
  - apply is_double_dyadic; lia.
Qed.

(** Rounding does not cross a double. *)
Lemma round_double_le (q c : Q) : is_double c -> q <= c -> round_double q <= c.
Proof.
  intros Hc H. unfold is_double in Hc.
  assert (Hm := round_double_monotone _ _ H). lra.
Qed.

Lemma round_double_ge (q c : Q) : is_double c -> c <= q -> c <= round_double q.
Proof.
  intros Hc H. unfold is_double in Hc.
  assert (Hm := round_double_monotone _ _ H). lra.
Qed.

End RoundingFacts.

(** ** The dirty-tile set *)

Import Expire Rasterizer Wkb ExpireWkb.

Section ExpireFacts.

Lemma expire_tile_config (st : expire_tiles) (x y : Z) :
  maxzoom (expire_tile st x y) = maxzoom st /\
  map_width (expire_tile st x y) = map_width st /\
  tile_width (expire_tile st x y) = tile_width st.
Proof.
  unfold expire_tile.
  destruct (negb (valid_tile_coord st x) || negb (valid_tile_coord st y)); [done|].
  destruct (negb (last_tile_x st =? x) || negb (last_tile_y st =? y)); done.
Qed.

Lemma expire_tile_dirty (st : expire_tiles) (x y : Z) :
  m_dirty_tiles (expire_tile st x y) = m_dirty_tiles st \/
  m_dirty_tiles (expire_tile st x y)
  = {[ xy_to_quadkey x y (maxzoom st) ]} ∪ m_dirty_tiles st.
Proof.
  unfold expire_tile.
  destruct (negb (valid_tile_coord st x) || negb (valid_tile_coord st y)); [by left|].
  destruct (negb (last_tile_x st =? x) || negb (last_tile_y st =? y)); [by right|by left].
Qed.

Lemma new_expire_tiles_well_formed (max : Z) (bbox : Q) (indeterminate : expire_tiles) :
  1 <= max <= 31 -> well_formed (new_expire_tiles max bbox indeterminate).
Proof.
  intros Hmax. unfold new_expire_tiles.
  destruct (Z.ltb_spec 0 max); [|lia].
  split; [simpl; lia|]. split.
  - simpl. rewrite Z.shiftl_1_l. apply wrap32_small. unfold is_uint32.
    assert (2 ^ max < 2 ^ 32) by (apply Z.pow_lt_mono_r; lia).
    assert (0 < 2 ^ max) by (apply Z.pow_pos_nonneg; lia). lia.
  - intros q Hq. simpl in Hq. by apply not_elem_of_empty in Hq.
Qed.

Lemma expire_tile_well_formed (st : expire_tiles) (x y : Z) :
  well_formed st -> well_formed (expire_tile st x y).
Proof.
  intros (Hz & Hw & Hr).
  destruct (expire_tile_config st x y) as (Ez & Ew & _).
  split; [lia|]. split; [congruence|].
  intros q Hq. rewrite Ez.
  destruct (expire_tile_dirty st x y) as [E|E]; rewrite E in Hq.
  - now apply Hr.
  - apply elem_of_union in Hq as [Hq|Hq].
    + apply elem_of_singleton in Hq as ->. apply xy_to_quadkey_range. lia.
    + now apply Hr.
Qed.

Lemma from_bbox_without_buffer_well_formed (st : expire_tiles) (min_x min_y max_x max_y : Z) :
  well_formed st -> well_formed (from_bbox_without_buffer st min_x min_y max_x max_y).
Proof.
  unfold from_bbox_without_buffer.
  generalize (seqZ min_x (max_x - min_x + 1)) as xs.
  generalize (seqZ min_y (max_y - min_y + 1)) as ys.
  intros ys xs. revert st.
  induction xs as [|ix xs IH]; intros st Hst; simpl; [done|].
  apply IH. clear IH. revert st Hst.
  induction ys as [|iy ys IH]; intros st Hst; simpl; [done|].
  apply IH. now apply expire_tile_well_formed.
Qed.

Lemma from_bbox_well_formed (st st' : expire_tiles) (min_x min_y max_x max_y : Q) :
  well_formed st -> from_bbox st min_x min_y max_x max_y = Some st' -> well_formed st'.
Proof.
  intros Hst. unfold from_bbox.
  destruct (to_uint32 _); [|discriminate]. destruct (to_uint32 _); [|discriminate].
  destruct (to_uint32 _); [|discriminate]. destruct (to_uint32 _); [|discriminate].
  intros E. injection E as <-. now apply from_bbox_without_buffer_well_formed.
Qed.

Lemma merge_and_destroy_returned (self other self' other' : expire_tiles) :
  merge_and_destroy self other = Returned (self', other') ->
  map_width self = map_width other /\
  Qeq (tile_width self) (tile_width other) /\
  self' = set_dirty_tiles self (m_dirty_tiles self ∪ m_dirty_tiles other) /\
  other' = set_dirty_tiles other ∅.
Proof.
  unfold merge_and_destroy.
  destruct (Z.eqb_spec (map_width self) (map_width other)) as [Ew|]; [|discriminate].
  destruct (Qeq_bool (tile_width self) (tile_width other)) eqn:Et; [|discriminate].
  simpl. intros Hret. injection Hret as <- <-. split; [done|]. split; [now apply Qeq_bool_eq|].
  split; [|done]. f_equal.
  destruct (decide (size (m_dirty_tiles self) = 0%nat)) as [Hsz|]; [|done].
  apply size_empty_inv, leibniz_equiv in Hsz. rewrite Hsz.
  by rewrite (left_id_L ∅ (∪)).
Qed.

Lemma merge_and_destroy_well_formed (self other self' other' : expire_tiles) :
  well_formed self -> well_formed other ->
  merge_and_destroy self other = Returned (self', other') ->
  well_formed self' /\ well_formed other'.
Proof.
  intros (Hz & Hw & Hr) (Hz' & Hw' & Hr') Hm.
  apply merge_and_destroy_returned in Hm as (Ew & _ & -> & ->).
  assert (Ezoom : maxzoom self = maxzoom other).
  { rewrite Hw, Hw' in Ew. apply (Z.pow_inj_r 2); lia. }
  split.
  - split; [done|]. split; [done|].
    intros q Hq. simpl in *. apply elem_of_union in Hq as [Hq|Hq].
    + now apply Hr.
    + rewrite Ezoom. now apply Hr'.
  - split; [done|]. split; [done|].
    intros q Hq. simpl in Hq. by apply not_elem_of_empty in Hq.
Qed.

(** *** The rasterizer keeps the invariant *)

Create HintDb well_formed.

#[local] Hint Resolve expire_tile_well_formed from_bbox_without_buffer_well_formed
  from_bbox_well_formed : well_formed.

Lemma for_each_well_formed (xs : list Z)
    (body : expire_tiles -> Z -> option expire_tiles) :
  (forall st x st', well_formed st -> body st x = Some st' -> well_formed st') ->
  forall st st', well_formed st -> for_each xs body st = Some st' -> well_formed st'.
Proof.
  intros Hbody. unfold for_each.
  induction xs as [|x xs IH] using rev_ind; intros st st' Hst H.
  - simpl in H. by injection H as <-.
  - rewrite foldl_app in H. simpl in H.
    apply bind_Some in H as (st1 & H1 & H2). eauto.
Qed.

Lemma expire_vertical_line_well_formed (st st' : expire_tiles) (x y1 y2 : Q) :
  well_formed st -> expire_vertical_line st x y1 y2 = Some st' -> well_formed st'.
Proof.
  intros Hst H. unfold expire_vertical_line in H. option_inv.
  match goal with
  | Hloop : for_each _ _ _ = Some _ |- _ =>
      apply for_each_well_formed in Hloop; [eauto with well_formed| |eauto with well_formed]
  end.
  intros s y s' Hs Hb. option_inv. eauto with well_formed.
Qed.

Lemma expire_line_well_formed (st st' : expire_tiles) (x1 y1 x2 y2 : Q) :
  well_formed st -> expire_line st x1 y1 x2 y2 = Some st' -> well_formed st'.
Proof.
  intros Hst H. unfold expire_line in H.
  destruct (negb (Qlt_bool x1 x2)); [discriminate|].
  apply bind_Some in H as (incline & _ & H).
  destruct (_ && _); [by injection H as <-|].
  destruct (Qle_bool x2 0); [by injection H as <-|].
  destruct (if Qlt_bool x1 0 then _ else _) as [x1' y1'].
  apply bind_Some in H as ([x1'' y1''] & _ & H).
  apply bind_Some in H as ([x2'' y2''] & _ & H).
  apply bind_Some in H as (tile_x & _ & H).
  apply bind_Some in H as (tile_y & _ & H).
  apply bind_Some in H as (first & _ & H).
  apply bind_Some in H as (last & _ & H).
  apply bind_Some in H as (st1 & Hloop1 & H).
  apply bind_Some in H as (first' & _ & H).
  apply bind_Some in H as (last' & _ & Hloop2).
  apply for_each_well_formed in Hloop1; [| |eauto with well_formed].
  - apply for_each_well_formed in Hloop2; [assumption| |assumption].
    intros s y s' Hs Hb.
    apply bind_Some in Hb as (x & _ & Hb). apply bind_Some in Hb as (tile_x' & _ & Hb).
    injection Hb as <-. destruct (Qlt_bool _ _); eauto with well_formed.
  - intros s x s' Hs Hb. option_inv. eauto with well_formed.
Qed.

#[local] Hint Resolve expire_vertical_line_well_formed expire_line_well_formed : well_formed.

Section Projection.

Variable coords_to_tile : Q -> Q -> Z -> Q * Q.
Variable dsqrt : Q -> Q.
Variable atan2 : Q -> Q -> Q.

Lemma expire_line_segment_well_formed (st st' : expire_tiles) (x1 y1 x2 y2 : Q) :
  well_formed st -> expire_line_segment dsqrt st x1 y1 x2 y2 = Some st' -> well_formed st'.
Proof.
  intros Hst H. unfold expire_line_segment in H.
  destruct (negb (Qle_bool x1 x2)); [discriminate|].
  destruct (negb (Qle_bool _ _)); [discriminate|].
  destruct (_ && _); [by injection H as <-|].
  apply bind_Some in H as (vertical & _ & H). destruct vertical.
  - destruct (if Qlt_bool y2 y1 then _ else _) as [y1' y2'].
    apply bind_Some in H as (x_buffer_west & _ & H).
    apply bind_Some in H as (st1 & H1 & H).
    apply bind_Some in H as (x_buffer_east & _ & H).
    apply bind_Some in H as (west & _ & H).
    apply bind_Some in H as (east & _ & H).
    destruct (negb (west =? east)); [eauto with well_formed|].
    injection H as <-. eauto with well_formed.
  - apply bind_Some in H as (x_norm & _ & H).
    apply bind_Some in H as (y_norm & _ & H).
    apply bind_Some in H as (st1 & H1 & H).
    eapply expire_line_well_formed; [|exact H].
    eapply expire_line_well_formed; [exact Hst|exact H1].
Qed.

Lemma from_line_lon_lat_well_formed (st st' : expire_tiles) (lon_a lat_a lon_b lat_b : Q) :
  well_formed st ->
  from_line_lon_lat coords_to_tile dsqrt st lon_a lat_a lon_b lat_b = Some st' ->
  well_formed st'.
Proof.
  intros Hst H. unfold from_line_lon_lat in H.
  destruct (coords_to_tile lon_a lat_a _) as [xa ya].
  destruct (coords_to_tile lon_b lat_b _) as [xb yb].
  destruct (if Qlt_bool xb xa then _ else _) as [[[xa' ya'] xb'] yb'].
  destruct (Qlt_bool _ _).
  - destruct (_ && _); [eauto using expire_line_segment_well_formed|].
    apply bind_Some in H as (ratio & _ & H).
    apply bind_Some in H as (st1 & H1 & H).
    eauto using expire_line_segment_well_formed.
  - eauto using expire_line_segment_well_formed.
Qed.

Lemma from_point_well_formed (st st' : expire_tiles) (lon lat : Q) :
  well_formed st -> from_point coords_to_tile st lon lat = Some st' -> well_formed st'.
Proof.
  intros Hst H. unfold from_point in H.
  destruct (coords_to_tile lon lat _). eauto with well_formed.
Qed.

Lemma from_bbox_lon_lat_well_formed (st st' : expire_tiles) (min_x min_y max_x max_y : Q) :
  well_formed st ->
  from_bbox_lon_lat coords_to_tile st min_x min_y max_x max_y = Some st' ->
  well_formed st'.
Proof.
  intros Hst H. unfold from_bbox_lon_lat in H.
  destruct (coords_to_tile min_x min_y _), (coords_to_tile max_x max_y _).
  eauto with well_formed.
Qed.

Lemma run_call_well_formed (st st' : expire_tiles) (call : rasterizer_call) :
  well_formed st -> run_call coords_to_tile dsqrt st call = Some st' -> well_formed st'.
Proof.
  intros Hst H. destruct call; simpl in H.
  - eauto using from_point_well_formed.
  - eauto using from_line_lon_lat_well_formed.
  - eauto with well_formed.
  - injection H as <-. eauto with well_formed.
Qed.

Lemma run_calls_well_formed (calls : list rasterizer_call) :
  forall st st', well_formed st ->
    run_calls coords_to_tile dsqrt st calls = Some st' -> well_formed st'.
Proof.
  unfold run_calls.
  induction calls as [|call calls IH] using rev_ind; intros st st' Hst H.
  - simpl in H. by injection H as <-.
  - rewrite foldl_app in H. simpl in H.
    apply bind_Some in H as (st1 & H1 & H2). eauto using run_call_well_formed.
Qed.

Lemma from_wkb_well_formed (st st' : expire_tiles) (wkb : parser_t) :
  well_formed st -> from_wkb coords_to_tile dsqrt atan2 st wkb = Some st' -> well_formed st'.
Proof.
  intros Hst H. unfold from_wkb in H.
  destruct (maxzoom st =? 0); [by injection H as <-|].
  apply bind_Some in H as ([calls wkb'] & _ & H). eauto using run_calls_well_formed.
Qed.

Lemma from_db_well_formed (st st' : expire_tiles) (rows : list parser_t) (count : Z) :
  well_formed st ->
  from_db coords_to_tile dsqrt atan2 st rows = Some (count, st') -> well_formed st'.
Proof.
  intros Hst H. unfold from_db in H.
  destruct (maxzoom st =? 0); [by injection H as _ <-|].
  apply bind_Some in H as (st1 & H1 & H). injection H as _ <-.
  clear count. revert st st1 Hst H1.
  induction rows as [|wkb rows IH] using rev_ind; intros st st1 Hst H1.
  - simpl in H1. by injection H1 as <-.
  - rewrite foldl_app in H1. simpl in H1.
    apply bind_Some in H1 as (st2 & H2 & H3). eauto using from_wkb_well_formed.
Qed.

Lemma reachable_well_formed (st : expire_tiles) :
  reachable coords_to_tile dsqrt atan2 st -> well_formed st.
Proof.
  induction 1.
  - now apply new_expire_tiles_well_formed.
  - now apply expire_tile_well_formed.
  - now apply from_bbox_without_buffer_well_formed.
  - eauto using from_bbox_well_formed.
  - eauto using from_bbox_lon_lat_well_formed.
  - eauto using from_point_well_formed.
  - eauto using from_line_lon_lat_well_formed.
  - eauto using expire_line_segment_well_formed.
  - eauto using expire_line_well_formed.
  - eauto using expire_vertical_line_well_formed.
  - eauto using from_wkb_well_formed.
  - eauto using from_db_well_formed.
  - now destruct (merge_and_destroy_well_formed self other self' other').
  - now destruct (merge_and_destroy_well_formed self other self' other').
Qed.

End Projection.

End ExpireFacts.

(** ** The pyramid output *)

Lemma shiftr_le_mono (a b n : Z) : 0 <= n -> a <= b -> Z.shiftr a n <= Z.shiftr b n.
Proof.
  intros Hn Hab. rewrite !Z.shiftr_div_pow2 by lia.
  apply Z.div_le_mono; [|lia]. apply Z.pow_pos_nonneg; lia.
Qed.

Lemma shiftr_quadkey_range (q m d : Z) :
  0 <= d <= m -> 0 <= q < 2 ^ (2 * m) ->
  0 <= Z.shiftr q (d * 2) < 2 ^ (2 * (m - d)).
Proof.
  intros Hd Hq. rewrite Z.shiftr_div_pow2 by lia.
  assert (Hpos : 0 < 2 ^ (d * 2)) by (apply Z.pow_pos_nonneg; lia).
  split; [apply Z.div_pos; lia|].
  apply Z.div_lt_upper_bound; [lia|].
  rewrite <- Z.pow_add_r by lia.
  now replace (d * 2 + 2 * (m - d)) with (2 * m) by lia.
Qed.

(** A list whose entries of each key are free of duplicates is free of
    duplicates. *)
Lemma NoDup_by_key {A : Type} (key : A -> Z) (l : list A) :
  (forall v, NoDup (filter (fun t => key t = v) l)) -> NoDup l.
Proof.
  induction l as [|a l IH]; intros H; [constructor|].
  apply NoDup_cons. split.
  - specialize (H (key a)). rewrite filter_cons_True in H by reflexivity.
    apply NoDup_cons in H as [Hnot _]. intros Hin. apply Hnot.
    apply list_elem_of_filter. split; [reflexivity|assumption].
  - apply IH. intros v. specialize (H v).
    destruct (decide (key a = v)) as [E|E].
    + rewrite filter_cons_True in H by assumption. now apply NoDup_cons in H as [_ H].
    + now rewrite filter_cons_False in H by assumption.
Qed.

Lemma StronglySorted_lt_NoDup (l : list Z) : StronglySorted Z.lt l -> NoDup l.
Proof.
  induction 1 as [|a l Hs IH Hall]; [constructor|].
  apply NoDup_cons. split; [|assumption].
  intros Hin. rewrite Forall_forall in Hall. apply Hall in Hin. lia.
Qed.

Section OutputFacts.

Variables maxzoom minzoom : Z.
Hypothesis Hmax : 0 <= maxzoom <= 31.
Hypothesis Hmin : 0 <= minzoom <= maxzoom.

Lemma initial_last_quadkey_shiftr (dz : Z) :
  0 <= dz <= maxzoom ->
  Z.shiftr (initial_last_quadkey maxzoom) (dz * 2) = 2 ^ (2 * (maxzoom - dz)).
Proof.
  intros Hdz. unfold initial_last_quadkey.
  rewrite (wrap32_small (2 * maxzoom)) by (unfold is_uint32; lia).
  rewrite Z.shiftl_1_l. unfold wrap64.
  rewrite Z.mod_small.
  - rewrite Z.shiftr_div_pow2 by lia.
    rewrite <- Z.pow_sub_r by lia. f_equal. lia.
  - split; [apply Z.pow_nonneg; lia|]. apply Z.pow_lt_mono_r; lia.
Qed.

(** At the level [dz] the inner loop writes the tile of [level_step]. *)
Lemma output_zoom_levels_filter (q last dz : Z) (n : nat) :
  forall dz0,
    filter (fun t => tile_zoom t = maxzoom - dz) (output_zoom_levels maxzoom q last n dz0)
    = if decide (dz0 <= dz < dz0 + Z.of_nat n)
      then level_tile maxzoom dz <$> level_step dz q last
      else [].
Proof.
  induction n as [|n IH]; intros dz0.
  - simpl. destruct (decide _); [lia|reflexivity].
  - cbn [output_zoom_levels]. rewrite filter_app, IH.
    destruct (decide (dz = dz0)) as [->|Hne].
    + destruct (decide (dz0 + 1 <= dz0 < _)); [lia|].
      destruct (decide (dz0 <= dz0 < _)); [|lia].
      rewrite app_nil_r. unfold level_step, level_tile.
      destruct (Z.shiftr q (dz0 * 2) =? Z.shiftr last (dz0 * 2)); [reflexivity|].
      now rewrite filter_cons_True.
    + destruct (Z.shiftr q (dz0 * 2) =? Z.shiftr last (dz0 * 2)); cbn zeta.
      * rewrite filter_nil. simpl.
        destruct (decide (dz0 + 1 <= dz < _)), (decide (dz0 <= dz < _));
          (lia || reflexivity).
      * rewrite filter_cons_False by (unfold tile_zoom; simpl; lia).
        rewrite filter_nil. simpl.
        destruct (decide (dz0 + 1 <= dz < _)), (decide (dz0 <= dz < _));
          (lia || reflexivity).
Qed.

Lemma output_sorted_filter (dz : Z) (tiles : list Z) :
  0 <= dz <= maxzoom - minzoom ->
  forall last,
    filter (fun t => tile_zoom t = maxzoom - dz) (output_sorted maxzoom minzoom tiles last)
    = level_tile maxzoom dz <$> level_quadkeys dz tiles last.
Proof.
  intros Hdz. induction tiles as [|q rest IH]; intros last; [reflexivity|].
  cbn [output_sorted level_quadkeys].
  rewrite filter_app, fmap_app, IH, output_zoom_levels_filter.
  destruct (decide _); [reflexivity|lia].
Qed.

Lemma output_zoom_levels_zoom (q last : Z) (n : nat) (t : dirty_tile) :
  forall dz0, t ∈ output_zoom_levels maxzoom q last n dz0 ->
    exists dz, dz0 <= dz < dz0 + Z.of_nat n /\ tile_zoom t = maxzoom - dz.
Proof.
  induction n as [|n IH]; intros dz0 Ht; [by apply elem_of_nil in Ht|].
  cbn [output_zoom_levels] in Ht. apply elem_of_app in Ht as [Ht|Ht].
  - destruct (_ =? _); [by apply elem_of_nil in Ht|].
    apply list_elem_of_singleton in Ht as ->. exists dz0. split; [lia|reflexivity].
  - apply IH in Ht as (dz & Hdz & E). exists dz. split; [lia|assumption].
Qed.

Lemma output_sorted_zoom (tiles : list Z) (t : dirty_tile) :
  forall last, t ∈ output_sorted maxzoom minzoom tiles last ->
    exists dz, 0 <= dz <= maxzoom - minzoom /\ tile_zoom t = maxzoom - dz.
Proof.
  induction tiles as [|q rest IH]; intros last Ht; [by apply elem_of_nil in Ht|].
  cbn [output_sorted] in Ht. apply elem_of_app in Ht as [Ht|Ht].
  - apply output_zoom_levels_zoom in Ht as (dz & Hdz & E).
    exists dz. split; [lia|assumption].
  - now apply IH in Ht.
Qed.

(** On an ascending vector the quadkeys written at one level ascend
    strictly, and they are the ancestors of the stored quadkeys. *)
Lemma level_quadkeys_ascending (dz : Z) (tiles : list Z) :
  0 <= dz ->
  forall last,
    StronglySorted Z.le (last :: tiles) ->
    StronglySorted Z.lt (Z.shiftr last (dz * 2) :: level_quadkeys dz tiles last) /\
    (forall b, b ∈ Z.shiftr last (dz * 2) :: level_quadkeys dz tiles last
               <-> exists q, q ∈ last :: tiles /\ b = Z.shiftr q (dz * 2)).
Proof.
  intros Hdz. induction tiles as [|q rest IH]; intros last Hs.
  - simpl. split; [repeat constructor|].
    intros b. rewrite list_elem_of_singleton. split.
    + intros ->. exists last. split; [by apply list_elem_of_singleton|done].
    + intros (q & Hq & ->). by apply list_elem_of_singleton in Hq as ->.
  - apply StronglySorted_inv in Hs as [Hs Hall].
    destruct (IH q Hs) as [IHs IHe]. clear IH.
    apply Forall_cons in Hall as [Hle _].
    assert (Hmono := shiftr_le_mono last q (dz * 2) ltac:(lia) Hle).
    cbn [level_quadkeys]. unfold level_step.
    destruct (Z.eqb_spec (Z.shiftr q (dz * 2)) (Z.shiftr last (dz * 2))) as [E|Hne].
    + rewrite <- E. simpl. split; [assumption|].
      intros b. rewrite IHe. split.
      * intros (q' & Hq' & ->). exists q'. split; [by apply elem_of_cons; right|done].
      * intros (q' & Hq' & ->). apply elem_of_cons in Hq' as [->|Hq'].
        -- exists q. split; [by apply elem_of_cons; left|by rewrite E].
        -- by exists q'.
    + simpl. split.
      * constructor; [assumption|].
        apply StronglySorted_inv in IHs as [_ Hall].
        constructor; [lia|].
        eapply Forall_impl; [exact Hall|]. simpl. intros; lia.
      * intros b. rewrite elem_of_cons, IHe. split.
        -- intros [->|(q' & Hq' & ->)].
           ++ exists last. split; [by apply elem_of_cons; left|done].
           ++ exists q'. split; [by apply elem_of_cons; right|done].
        -- intros (q' & Hq' & ->). apply elem_of_cons in Hq' as [->|Hq'].
           ++ by left.
           ++ right. by exists q'.
Qed.

Lemma level_quadkeys_from_start (dz : Z) (tiles : list Z) :
  0 <= dz <= maxzoom ->
  StronglySorted Z.le tiles ->
  Forall (fun q => 0 <= q < 2 ^ (2 * maxzoom)) tiles ->
  StronglySorted Z.lt (level_quadkeys dz tiles (initial_last_quadkey maxzoom)) /\
  (forall b, b ∈ level_quadkeys dz tiles (initial_last_quadkey maxzoom)
             <-> exists q, q ∈ tiles /\ b = Z.shiftr q (dz * 2)).
Proof.
  intros Hdz Hs Hr. destruct tiles as [|q rest].
  - simpl. split; [constructor|]. intros b. split.
    + intros Hb. by apply elem_of_nil in Hb.
    + intros (q & Hq & _). by apply elem_of_nil in Hq.
  - cbn [level_quadkeys]. unfold level_step.
    apply Forall_cons in Hr as [Hq _].
    assert (Hlt := shiftr_quadkey_range q maxzoom dz Hdz Hq).
    rewrite initial_last_quadkey_shiftr by lia.
    destruct (Z.eqb_spec (Z.shiftr q (dz * 2)) (2 ^ (2 * (maxzoom - dz)))); [lia|].
    simpl. apply level_quadkeys_ascending; [lia|assumption].
Qed.

Lemma tile_quadkey_level_tile (dz a : Z) :
  0 <= dz <= maxzoom -> 0 <= a < 2 ^ (2 * (maxzoom - dz)) ->
  tile_quadkey (level_tile maxzoom dz a) = a.
Proof.
  intros Hdz Ha. unfold tile_quadkey, level_tile. simpl.
  apply xy_to_quadkey_to_xy; lia.
Qed.

Lemma level_tile_ancestor (dz q : Z) :
  0 <= dz <= maxzoom ->
  level_tile maxzoom dz (Z.shiftr q (dz * 2)) = ancestor_tile maxzoom q (maxzoom - dz).
Proof.
  intros Hdz. unfold level_tile, ancestor_tile.
  replace (dz * 2) with (2 * dz) by lia.
  rewrite quadkey_to_xy_shiftr by lia. simpl.
  now replace (maxzoom - (maxzoom - dz)) with dz by lia.
Qed.

End OutputFacts.

Section OutputTheorems.

Lemma fmap_fixed {A : Type} (f : A -> A) (l : list A) :
  (forall a, a ∈ l -> f a = a) -> f <$> l = l.
Proof.
  induction l as [|a l IH]; intros H; [reflexivity|].
  rewrite fmap_cons, H, IH; [reflexivity| |by apply elem_of_cons; left].
  intros b Hb. apply H. by apply elem_of_cons; right.
Qed.

Lemma filter_none {A : Type} (P : A -> Prop) `{forall a, Decision (P a)} (l : list A) :
  (forall a, a ∈ l -> ~ P a) -> filter P l = [].
Proof.
  induction l as [|a l IH]; intros Hn; [reflexivity|].
  rewrite filter_cons_False by (apply Hn; by apply elem_of_cons; left).
  apply IH. intros b Hb. apply Hn. by apply elem_of_cons; right.
Qed.

(** [std::sort] gives the same vector for every order in which the hash
    set hands out its elements. *)
Lemma merge_sort_Permutation_eq (l1 l2 : list Z) :
  l1 ≡ₚ l2 -> merge_sort Z.le l1 = merge_sort Z.le l2.
Proof.
  intros Hp. apply (StronglySorted_unique Z.le).
  - apply StronglySorted_merge_sort; apply _.
  - apply StronglySorted_merge_sort; apply _.
  - now rewrite !merge_sort_Permutation.
Qed.

Variables maxzoom minzoom : Z.
Variable tiles_maxzoom : list Z.
Hypothesis Hmax : 0 <= maxzoom <= 31.
Hypothesis Hmin : 0 <= minzoom <= maxzoom.
Hypothesis Hrange : forall q, q ∈ tiles_maxzoom -> 0 <= q < 2 ^ (2 * maxzoom).


Lemma sorted_elem (q : Z) : q ∈ (sorted_tiles tiles_maxzoom) <-> q ∈ tiles_maxzoom.
Proof. unfold sorted_tiles. now rewrite merge_sort_Permutation. Qed.

Lemma written_spec (dz : Z) :
  0 <= dz <= maxzoom ->
  StronglySorted Z.lt (written_quadkeys maxzoom tiles_maxzoom dz) /\
  (forall b, b ∈ written_quadkeys maxzoom tiles_maxzoom dz <-> exists q, q ∈ tiles_maxzoom /\ b = Z.shiftr q (dz * 2)).
Proof.
  intros Hdz.
  destruct (level_quadkeys_from_start maxzoom Hmax dz (sorted_tiles tiles_maxzoom) Hdz) as [Hs He].
  - unfold sorted_tiles. apply StronglySorted_merge_sort; apply _.
  - apply Forall_forall. intros q Hq. apply Hrange. now apply sorted_elem.
  - split; [exact Hs|]. intros b. unfold written_quadkeys. rewrite He. split.
    + intros (q & Hq & ->). exists q. split; [now apply sorted_elem|done].
    + intros (q & Hq & ->). exists q. split; [now apply sorted_elem|done].
Qed.

Lemma written_range (dz b : Z) :
  0 <= dz <= maxzoom -> b ∈ written_quadkeys maxzoom tiles_maxzoom dz -> 0 <= b < 2 ^ (2 * (maxzoom - dz)).
Proof.
  intros Hdz Hb. apply (written_spec dz Hdz) in Hb as (q & Hq & ->).
  apply shiftr_quadkey_range; [lia|]. now apply Hrange.
Qed.

Lemma output_tiles_filter (v : Z) :
  filter (fun t => tile_zoom t = v) (output_tiles maxzoom minzoom tiles_maxzoom)
  = if decide (minzoom <= v <= maxzoom)
    then level_tile maxzoom (maxzoom - v) <$> written_quadkeys maxzoom tiles_maxzoom (maxzoom - v)
    else [].
Proof.
  unfold output_tiles. fold (sorted_tiles tiles_maxzoom). destruct (decide _) as [Hv|Hv].
  - unfold written_quadkeys.
    rewrite <- (output_sorted_filter maxzoom minzoom Hmin (maxzoom - v)) by lia.
    now replace (maxzoom - (maxzoom - v)) with v by lia.
  - apply filter_none. intros t Ht E.
    apply (output_sorted_zoom maxzoom minzoom Hmin) in Ht as (dz & Hdz & E'). lia.
Qed.

Lemma output_tiles_level_quadkeys (v : Z) :
  tile_quadkey <$> filter (fun t => tile_zoom t = v)
                          (output_tiles maxzoom minzoom tiles_maxzoom)
  = if decide (minzoom <= v <= maxzoom) then written_quadkeys maxzoom tiles_maxzoom (maxzoom - v) else [].
Proof.
  rewrite output_tiles_filter. destruct (decide _) as [Hv|Hv]; [|reflexivity].
  rewrite <- list_fmap_compose. apply fmap_fixed. intros a Ha. simpl.
  apply (tile_quadkey_level_tile maxzoom Hmax); [lia|].
  apply written_range; [lia|assumption].
Qed.

Lemma output_tiles_ascending (v : Z) :
  StronglySorted Z.lt
    (tile_quadkey <$> filter (fun t => tile_zoom t = v)
                             (output_tiles maxzoom minzoom tiles_maxzoom)).
Proof.
  rewrite output_tiles_level_quadkeys. destruct (decide _) as [Hv|Hv]; [|constructor].
  apply written_spec. lia.
Qed.

Lemma output_tiles_NoDup : NoDup (output_tiles maxzoom minzoom tiles_maxzoom).
Proof.
  apply (NoDup_by_key tile_zoom). intros v.
  apply (NoDup_fmap_1 tile_quadkey), StronglySorted_lt_NoDup, output_tiles_ascending.
Qed.

Lemma output_tiles_elem (t : dirty_tile) :
  t ∈ output_tiles maxzoom minzoom tiles_maxzoom
  <-> exists q v, q ∈ tiles_maxzoom /\ minzoom <= v <= maxzoom /\
                  t = ancestor_tile maxzoom q v.
Proof.
  split.
  - intros Ht. remember (tile_zoom t) as v eqn:Ev.
    assert (Hf : t ∈ filter (fun t' => tile_zoom t' = v)
                       (output_tiles maxzoom minzoom tiles_maxzoom)).
    { apply list_elem_of_filter. split; [now symmetry|assumption]. }
    rewrite output_tiles_filter in Hf.
    destruct (decide _) as [Hv|Hv]; [|by apply elem_of_nil in Hf].
    apply list_elem_of_fmap in Hf as (b & Et & Hb).
    apply written_spec in Hb as (q & Hq & Eb); [|lia].
    exists q, v. split; [assumption|]. split; [assumption|].
    rewrite Et, Eb, (level_tile_ancestor maxzoom Hmax) by lia.
    f_equal. lia.
  - intros (q & v & Hq & Hv & ->).
    assert (Hf : ancestor_tile maxzoom q v
                 ∈ filter (fun t' => tile_zoom t' = v)
                     (output_tiles maxzoom minzoom tiles_maxzoom)).
    { rewrite output_tiles_filter. destruct (decide _); [|lia].
      apply list_elem_of_fmap. exists (Z.shiftr q ((maxzoom - v) * 2)). split.
      - rewrite (level_tile_ancestor maxzoom Hmax) by lia. f_equal. lia.
      - apply written_spec; [lia|]. by exists q. }
    now apply list_elem_of_filter in Hf as [_ Hf].
Qed.

End OutputTheorems.

(** C2. Pyramid output: for a dirty-tile set of maxzoom quadkeys and a
    [minzoom <= maxzoom], [output_and_destroy] writes exactly the ancestor
    tiles of the stored quadkeys at the zoom levels from [minzoom] to
    [maxzoom], each of them once, and the tiles of one zoom level are
    written in ascending order of their quadkeys. *)
Theorem output_and_destroy_pyramid (st : expire_tiles) (minzoom : Z) :
  0 <= minzoom <= maxzoom st -> maxzoom st <= 31 -> quadkeys_in_range st ->
  exists out,
    output_and_destroy st minzoom = Some out /\
    (forall t, t ∈ out <->
               exists q v, q ∈ m_dirty_tiles st /\ minzoom <= v <= maxzoom st /\
                           t = ancestor_tile (maxzoom st) q v) /\
    NoDup out /\
    (forall v, StronglySorted Z.lt
                 (tile_quadkey <$> filter (fun t => tile_zoom t = v) out)).
Proof.
  intros Hmin Hmax Hr.
  assert (Hr' : forall q, q ∈ elements (m_dirty_tiles st) -> 0 <= q < 2 ^ (2 * maxzoom st)).
  { intros q Hq. apply Hr. now apply elem_of_elements. }
  exists (output_tiles (maxzoom st) minzoom (elements (m_dirty_tiles st))).
  split; [|split; [|split]].
  - unfold output_and_destroy. destruct (Z.leb_spec minzoom (maxzoom st)); [reflexivity|lia].
  - intros t. rewrite output_tiles_elem by (assumption || lia).
    split; intros (q & v & Hq & Hv & ->); exists q, v;
      (split; [now apply elem_of_elements|done]).
  - apply output_tiles_NoDup; (assumption || lia).
  - intros v. apply output_tiles_ascending; (assumption || lia).
Qed.

(** C10. Output determinism: two objects with the same [maxzoom] whose
    dirty-tile sets hold the same quadkeys write the identical sequence of
    tiles for the same [minzoom], whatever the order in which their hash
    sets hand out the quadkeys ([la] and [lb]). *)
Theorem output_and_destroy_deterministic (a b : expire_tiles) (minzoom : Z)
    (la lb : list Z) :
  maxzoom a = maxzoom b ->
  (forall q, q ∈ m_dirty_tiles a <-> q ∈ m_dirty_tiles b) ->
  la ≡ₚ elements (m_dirty_tiles a) ->
  lb ≡ₚ elements (m_dirty_tiles b) ->
  output_and_destroy a minzoom = output_and_destroy b minzoom /\
  output_tiles (maxzoom a) minzoom la = output_tiles (maxzoom b) minzoom lb.
Proof.
  intros Hz Hset Hla Hlb.
  assert (E : m_dirty_tiles a = m_dirty_tiles b) by now apply set_eq.
  split.
  - unfold output_and_destroy. now rewrite Hz, E.
  - unfold output_tiles. rewrite Hz. f_equal.
    apply merge_sort_Permutation_eq. now rewrite Hla, Hlb, E.
Qed.

(** ** Properties of the dirty-tile set *)

Import Examples.

Example zoom3_map_width : map_width zoom3 = 8.
Proof. reflexivity. Qed.

Example zoom3_a_output :
  output_and_destroy zoom3_a 2
  = Some [(2, 5, 3); (1, 2, 2); (3, 5, 3)].
Proof. vm_compute. reflexivity. Qed.

Example zoom3_b_output :
  output_and_destroy zoom3_b 2
  = Some [(2, 5, 3); (1, 2, 2); (3, 5, 3)].
Proof. vm_compute. reflexivity. Qed.

(** The rasterizer on the cases of the tests of [expire_tiles]
    (coordinates in tenths of a tile); the tests compare sets of tiles. *)
Example test_expire_line_z12 :
  written_after (expire_line zoom12 (tenths 21163) (tenths 14163) (tenths 21185) (tenths 14175)) 12
  = Some [(2116, 1416, 12); (2117, 1416, 12); (2117, 1417, 12); (2118, 1417, 12)].
Proof. vm_compute. reflexivity. Qed.

Example test_expire_line_z12_long :
  written_after (expire_line zoom12 (tenths 21163) (tenths 14163) (tenths 21193) (tenths 14196)) 12
  = Some [(2116, 1416, 12); (2116, 1417, 12); (2117, 1417, 12); (2117, 1418, 12);
          (2118, 1418, 12); (2118, 1419, 12); (2119, 1419, 12)].
Proof. vm_compute. reflexivity. Qed.

Example test_expire_line_z12_horizontal :
  written_after (expire_line zoom12 (tenths 21163) (tenths 14163) (tenths 21193) (tenths 14163)) 12
  = Some [(2116, 1416, 12); (2117, 1416, 12); (2118, 1416, 12); (2119, 1416, 12)].
Proof. vm_compute. reflexivity. Qed.

Example test_expire_line_z19 :
  written_after
    (expire_line zoom19 (tenths 2743743) (tenths 1800675) (tenths 2743765) (tenths 1800663)) 19
  = Some [(274375, 180066, 19); (274374, 180067, 19); (274375, 180067, 19);
          (274376, 180066, 19)].
Proof. vm_compute. reflexivity. Qed.

Example test_expire_vertical_line_z19 :
  written_after
    (expire_vertical_line zoom19 (tenths 2743743) (tenths 1800633) (tenths 1800675)) 19
  = Some [(274374, 180063, 19); (274374, 180064, 19); (274374, 180065, 19);
          (274374, 180066, 19); (274374, 180067, 19)].
Proof. vm_compute. reflexivity. Qed.

Example test_expire_line_segment :
  written_after
    (expire_line_segment sqrt_of_test zoom12
       (tenths 21163) (tenths 14163) (tenths 21185) (tenths 14175)) 12
  = Some [(2116, 1416, 12); (2117, 1416, 12); (2117, 1417, 12); (2118, 1417, 12)].
Proof. vm_compute. reflexivity. Qed.

Example test_expire_line_segment_vertical :
  written_after
    (expire_line_segment sqrt_of_test zoom19
       (tenths 2743743) (tenths 1800633) (tenths 2743743) (tenths 1800675)) 19
  = Some [(274374, 180063, 19); (274374, 180064, 19); (274374, 180065, 19);
          (274374, 180066, 19); (274374, 180067, 19)].
Proof. vm_compute. reflexivity. Qed.

(** C3. [merge_and_destroy] throws exactly when the two objects differ in
    [map_width] or in [tile_width]; the objects are then unchanged; on
    success the set of this object is the union of the two sets and the set
    of [other] is empty. *)
Theorem merge_and_destroy_spec (self other : expire_tiles) :
  let differ :=
    map_width self <> map_width other \/ ~ Qeq (tile_width self) (tile_width other) in
  ((exists e state, merge_and_destroy self other = Thrown e state) <-> differ) /\
  (forall e state, merge_and_destroy self other = Thrown e state ->
                   state = (self, other)) /\
  (~ differ ->
   exists self' other',
     merge_and_destroy self other = Returned (self', other') /\
     m_dirty_tiles self' = m_dirty_tiles self ∪ m_dirty_tiles other /\
     m_dirty_tiles other' = ∅).
Proof.
  intros differ. unfold differ, merge_and_destroy.
  destruct (Z.eqb_spec (map_width self) (map_width other)) as [Ew|Ew]; simpl.
  - destruct (Qeq_bool (tile_width self) (tile_width other)) eqn:Et; simpl.
    + apply Qeq_bool_eq in Et. split; [|split].
      * split; [intros (e & s & H); discriminate|]. intros [H|H]; contradiction.
      * intros e s H. discriminate.
      * intros _. eexists _, _. split; [reflexivity|]. split; [|reflexivity].
        simpl. destruct (decide (size (m_dirty_tiles self) = 0%nat)) as [Hsz|]; [|done].
        apply size_empty_inv, leibniz_equiv in Hsz. rewrite Hsz.
        by rewrite (left_id_L ∅ (∪)).
    + assert (Hne : ~ Qeq (tile_width self) (tile_width other)).
      { intros H. apply Qeq_eq_bool in H. congruence. }
      split; [|split].
      * split; [intros _; by right|]. intros _. eexists _, _. reflexivity.
      * intros e s H. now injection H.
      * intros H. exfalso. apply H. by right.
  - split; [|split].
    + split; [intros _; by left|]. intros _. eexists _, _. reflexivity.
    + intros e s H. now injection H.
    + intros H. exfalso. apply H. by left.
Qed.

Lemma expire_tile_beyond_map_width (st : expire_tiles) (x y : Z) :
  map_width st < x \/ map_width st < y -> expire_tile st x y = st.
Proof.
  intros H. unfold expire_tile, valid_tile_coord.
  destruct (Z.leb_spec x (map_width st)), (Z.leb_spec y (map_width st));
    simpl; (lia || reflexivity).
Qed.

Lemma expire_tile_inserts (st : expire_tiles) (x y : Z) :
  x <= map_width st -> y <= map_width st ->
  (x, y) <> (last_tile_x st, last_tile_y st) ->
  m_dirty_tiles (expire_tile st x y)
  = {[ xy_to_quadkey x y (maxzoom st) ]} ∪ m_dirty_tiles st /\
  last_tile_x (expire_tile st x y) = x /\ last_tile_y (expire_tile st x y) = y.
Proof.
  intros Hx Hy Hne. unfold expire_tile, valid_tile_coord.
  destruct (Z.leb_spec x (map_width st)); [|lia].
  destruct (Z.leb_spec y (map_width st)); [|lia]. simpl.
  destruct (Z.eqb_spec (last_tile_x st) x) as [Ex|Ex];
    destruct (Z.eqb_spec (last_tile_y st) y) as [Ey|Ey]; simpl; try done.
  exfalso. apply Hne. congruence.
Qed.

(** C4 at the coordinate [map_width]: at zoom 3 ([map_width = 8]) the call
    [expire_tile(8, 2)], whose [x] is not below [map_width], does not leave
    the empty set unchanged: it inserts the quadkey 8, which is the quadkey
    of the tile [(0, 2)].  The call is reached from [from_bbox]: a point
    at [(2.5, 7.95)], near the southern edge, expires the tile [(2, 7)] and,
    through [expire_tile(2, 8)], the tile [(2, 0)] at the northern edge. *)
Theorem expire_tile_at_map_width :
  map_width zoom3 = 8 /\
  m_dirty_tiles zoom3 = ∅ /\
  elements (m_dirty_tiles (expire_tile zoom3 8 2)) = [8] /\
  xy_to_quadkey 0 2 3 = 8 /\
  written_after (from_bbox zoom3 (Qmake 5 2) (round_double (Qmake 159 20))
                           (Qmake 5 2) (round_double (Qmake 159 20))) 3
  = Some [(2, 0, 3); (2, 7, 3)].
Proof. repeat split; vm_compute; reflexivity. Qed.

(** C9. Quadkey range: in every object built by the constructor and
    changed by [expire_tile] with any [uint32_t] arguments, by the [from_*]
    and [expire_*] methods and by [merge_and_destroy], each stored quadkey
    is below [2^(2 * maxzoom)], which is the initial [last_quadkey] of
    [output_and_destroy]; this holds for every projection. *)
Theorem dirty_tiles_below_sentinel (coords_to_tile : Q -> Q -> Z -> Q * Q)
    (dsqrt : Q -> Q) (atan2 : Q -> Q -> Q) (st : expire_tiles) :
  reachable coords_to_tile dsqrt atan2 st ->
  initial_last_quadkey (maxzoom st) = 2 ^ (2 * maxzoom st) /\
  forall q, q ∈ m_dirty_tiles st -> 0 <= q < initial_last_quadkey (maxzoom st).
Proof.
  intros Hr. apply reachable_well_formed in Hr as (Hz & _ & Hr).
  assert (E : initial_last_quadkey (maxzoom st) = 2 ^ (2 * maxzoom st)).
  { rewrite <- (Z.shiftr_0_r (initial_last_quadkey _)).
    change 0 with (0 * 2) at 1.
    rewrite (initial_last_quadkey_shiftr (maxzoom st)) by lia.
    f_equal. lia. }
  split; [exact E|]. rewrite E. exact Hr.
Qed.

Lemma dirty_tiles_below_sentinel_witness :
  initial_last_quadkey (maxzoom (expire_tile zoom3 8 2)) = 2 ^ (2 * maxzoom (expire_tile zoom3 8 2)) /\
  forall q, q ∈ m_dirty_tiles (expire_tile zoom3 8 2) ->
            0 <= q < initial_last_quadkey (maxzoom (expire_tile zoom3 8 2)).
Proof.
  apply (dirty_tiles_below_sentinel flip_projection (fun d => d) atan2_of_quadrant).
  apply reach_expire_tile.
  - apply reach_new. lia.
  - unfold is_uint32. lia.
  - unfold is_uint32. lia.
Defined.

Lemma zoom3_a_in_range : quadkeys_in_range zoom3_a.
Proof.
  intros q Hq. apply elem_of_elements in Hq.
  assert (E : elements (m_dirty_tiles zoom3_a) = [39; 38]) by (vm_compute; reflexivity).
  rewrite E in Hq. change (maxzoom zoom3_a) with 3.
  apply elem_of_cons in Hq as [->|Hq]; [lia|].
  apply list_elem_of_singleton in Hq as ->. lia.
Defined.

Lemma output_and_destroy_pyramid_witness :
  exists out,
    output_and_destroy zoom3_a 2 = Some out /\
    (forall t, t ∈ out <->
               exists q v, q ∈ m_dirty_tiles zoom3_a /\ 2 <= v <= maxzoom zoom3_a /\
                           t = ancestor_tile (maxzoom zoom3_a) q v) /\
    NoDup out /\
    (forall v, StronglySorted Z.lt
                 (tile_quadkey <$> filter (fun t => tile_zoom t = v) out)).
Proof.
  apply output_and_destroy_pyramid.
  - change (maxzoom zoom3_a) with 3. lia.
  - change (maxzoom zoom3_a) with 3. lia.
  - exact zoom3_a_in_range.
Defined.

Lemma output_and_destroy_deterministic_witness :
  output_and_destroy zoom3_a 2 = output_and_destroy zoom3_b 2 /\
  output_tiles (maxzoom zoom3_a) 2 [38; 39] = output_tiles (maxzoom zoom3_b) 2 [39; 38].
Proof.
  assert (Ea : elements (m_dirty_tiles zoom3_a) = [39; 38]) by (vm_compute; reflexivity).
  assert (Eb : elements (m_dirty_tiles zoom3_b) = [39; 38]) by (vm_compute; reflexivity).
  apply output_and_destroy_deterministic.
  - reflexivity.
  - intros q. rewrite <- !elem_of_elements, Ea, Eb. reflexivity.
  - rewrite Ea. apply perm_swap.
  - rewrite Eb. reflexivity.
Defined.

(** ** The polygon scratch structure *)

Import IntersectingTiles.

(** The structure on the cases of [test-intersecting-tiles.cpp]
    (coordinates in tenths of a tile). *)
Example test_intersecting_tiles :
  intervals_of 24 26 4
    [(24, 16, 26, 16, true); (26, 16, 26, 14, true);
     (26, 14, 24, 14, true); (24, 14, 24, 16, true)]
  = Some [(2, 1, 1)].
Proof. vm_compute. reflexivity. Qed.

Example test_intersecting_tiles_two_columns :
  intervals_of 24 36 4
    [(24, 16, 36, 16, true); (36, 16, 36, 14, true);
     (36, 14, 24, 14, true); (24, 14, 24, 16, true)]
  = Some [(2, 1, 1); (3, 1, 1)].
Proof. vm_compute. reflexivity. Qed.

Example test_intersecting_tiles_more_columns :
  intervals_of 25 80 16
    [(25, 48, 33, 60, true); (33, 60, 68, 56, true); (68, 56, 80, 26, true);
     (80, 26, 66, 17, true); (66, 17, 68, 35, true); (68, 35, 38, 52, true);
     (38, 52, 34, 18, true); (34, 18, 25, 48, true)]
  = Some [(2, 1, 6); (3, 1, 6); (4, 3, 6); (5, 3, 6); (6, 1, 6); (7, 1, 5); (8, 1, 5)].
Proof. vm_compute. reflexivity. Qed.

Example test_intersecting_tiles_u_shape :
  intervals_of 13 57 8
    [(13, 37, 25, 56, true); (25, 56, 55, 45, true); (55, 45, 53, 42, true);
     (53, 42, 27, 47, true); (27, 47, 22, 16, true); (22, 16, 57, 9, true);
     (57, 9, 56, 4, true); (56, 4, 18, 14, true); (18, 14, 13, 37, true)]
  = Some [(1, 0, 5); (2, 0, 5); (3, 0, 1); (3, 4, 5); (4, 0, 1); (4, 4, 5);
          (5, 0, 1); (5, 4, 5)].
Proof. vm_compute. reflexivity. Qed.

Example test_intersecting_tiles_inner_ring :
  intervals_of 6 58 8
    [(6, 3, 16, 52, true); (16, 52, 55, 47, true); (55, 47, 58, 2, true);
     (58, 2, 6, 3, true); (15, 7, 54, 7, false); (54, 7, 53, 43, false);
     (53, 43, 18, 42, false); (18, 42, 15, 7, false)]
  = Some [(0, 0, 5); (1, 0, 5); (2, 0, 0); (2, 4, 5); (3, 0, 0); (3, 4, 5);
          (4, 0, 0); (4, 4, 5); (5, 0, 5)].
Proof. vm_compute. reflexivity. Qed.

Example one_column_constructed :
  new_intersecting_tiles (tenths 3) (tenths 6) 8 (tenths 1) = Some one_column.
Proof. vm_compute. reflexivity. Qed.

Section Truncation.

Local Open Scope Q_scope.

Lemma Qtrunc_le_mono (a b : Q) : a <= b -> (Qtrunc a <= Qtrunc b)%Z.
Proof.
  destruct a as [n1 d1], b as [n2 d2]. unfold Qle, Qtrunc. simpl. intros H.
  rewrite <- (Z.quot_mul_cancel_r n1 (Z.pos d1) (Z.pos d2)) by lia.
  rewrite <- (Z.quot_mul_cancel_r n2 (Z.pos d2) (Z.pos d1)) by lia.
  rewrite (Z.mul_comm (Z.pos d2) (Z.pos d1)).
  apply Z.quot_le_mono; lia.
Qed.

Lemma to_uint32_between (a b x : Q) (c : Z) :
  a <= x -> x <= b -> to_uint32 a = Some c -> to_uint32 b = Some c ->
  to_uint32 x = Some c.
Proof.
  unfold to_uint32. intros Hax Hxb Ha Hb.
  apply Qtrunc_le_mono in Hax, Hxb.
  destruct ((0 <=? Qtrunc a)%Z && (Qtrunc a <? 2 ^ 32)%Z) eqn:Ea; [|discriminate].
  destruct ((0 <=? Qtrunc b)%Z && (Qtrunc b <? 2 ^ 32)%Z) eqn:Eb; [|discriminate].
  injection Ha as Ha. injection Hb as Hb.
  assert (E : Qtrunc x = c) by lia. rewrite E.
  rewrite Ha in Ea. now rewrite Ea.
Qed.

(** The cast is the floor for values that are not negative, and zero for
    the values between -1 and 0. *)
Lemma to_uint32_floor (d : Q) :
  0 <= d -> (Qfloor d < 2 ^ 32)%Z -> to_uint32 d = Some (Qfloor d).
Proof.
  destruct d as [n den]. unfold Qle, to_uint32, Qtrunc, Qfloor. simpl.
  intros Hn Hlt. rewrite Z.mul_1_r in Hn.
  rewrite Z.quot_div_nonneg by lia.
  assert (0 <= n / Z.pos den)%Z by (apply Z.div_pos; lia).
  destruct (Z.leb_spec 0 (n / Z.pos den)); [|lia].
  destruct (Z.ltb_spec (n / Z.pos den) (2 ^ 32)); [reflexivity|lia].
Qed.

Lemma to_uint32_negative_fraction (d : Q) :
  -1 < d -> d < 0 -> to_uint32 d = Some 0%Z /\ Qfloor d = (-1)%Z.
Proof.
  destruct d as [n den]. unfold Qlt, to_uint32, Qtrunc, Qfloor. simpl.
  intros Hlo Hhi. rewrite Z.mul_1_r in Hhi.
  assert (E : (n ÷ Z.pos den = 0)%Z).
  { replace n with (- (- n))%Z by lia.
    rewrite Z.quot_opp_l, Z.quot_small by lia. reflexivity. }
  rewrite E. split; [reflexivity|].
  symmetry. apply (Z.div_unique n (Z.pos den) (-1) (n + Z.pos den)); lia.
Qed.

Lemma dmin_le_l (a b : Q) : dmin a b <= a.
Proof.
  unfold dmin, Qlt_bool. destruct (Qle_bool a b) eqn:E; simpl.
  - apply Qle_refl.
  - apply Qlt_le_weak, Qnot_le_lt. intros H. apply Qle_bool_iff in H. congruence.
Qed.

Lemma dmax_ge_l (a b : Q) : a <= dmax a b.
Proof.
  unfold dmax, Qlt_bool. destruct (Qle_bool b a) eqn:E; simpl.
  - apply Qle_refl.
  - apply Qlt_le_weak, Qnot_le_lt. intros H. apply Qle_bool_iff in H. congruence.
Qed.

Lemma minus_leeway_le (x leeway : Q) : 0 <= leeway -> x - leeway <= x.
Proof. intros H. lra. Qed.

Lemma plus_leeway_ge (x leeway : Q) : 0 <= leeway -> x <= x + leeway.
Proof. intros H. lra. Qed.

End Truncation.

(** C8 read with the floor: at one column, the edge from [(0.5, 0.05)] to
    [(0.5, 0.5)] has [floor(0.4) = floor(0.6) = 0], and
    [floor(0.05 - 0.1) = -1], but the entry added to the minimums is
    [static_cast<uint32_t>(-0.05) = 0]. *)
Lemma short_edge_floor_counterexample :
  ~ short_edge_with_floor atan2_of_quadrant one_column
      (Qmake 1 2) (tenths 1 / 2) (Qmake 1 2) (Qmake 1 2) true.
Proof.
  unfold short_edge_with_floor. intros H.
  destruct H as (b_min & b_max & Emin & Emax & Eval); [vm_compute; reflexivity|].
  vm_compute in Emin. vm_compute in Emax. injection Emin as <-. injection Emax as <-.
  vm_compute in Eval. discriminate Eval.
Qed.

Example short_edge_at_zero :
  evaluate_segment atan2_of_quadrant one_column
    (Qmake 1 2) (tenths 1 / 2) (Qmake 1 2) (Qmake 1 2) true
  = Returned (set_max_bounds (set_min_bounds one_column [[0]]) [[0]]).
Proof. vm_compute. reflexivity. Qed.

(** The edge the double arithmetic moves out of its column: both ends at
    [x = 2.9] have [2.9 + 0.1] rounded to [3.0], so the edge is not a short
    edge although [floor(2.9 - 0.1) = floor(2.9 + 0.1) = 2] in exact
    arithmetic; it is vertical, its interior is not above, and the stripe
    loop adds two minimums and no maximum. *)
Example edge_rounded_to_next_column :
  evaluate_segment atan2_of_quadrant four_columns
    (tenths 29) (Qmake 1 2) (tenths 29) (Qmake 3 2) true
  = Returned (set_min_bounds four_columns [[]; []; [0]; [0]]).
Proof. vm_compute. reflexivity. Qed.

(** C8 as the code has it, for a leeway that is not negative and an [x1]
    that is a double.  An edge whose two buffered ends
    [min(x1,x2) - leeway] and [max(x1,x2) + leeway], rounded as the code
    computes them, are cast to the same column [c] appends one entry, the
    cast of [min(y1,y2) - leeway], to the minimums of that column and one
    entry, the cast of [max(y1,y2) + leeway], to its maximums, and changes no
    other column; when the column is not one of the columns of the
    structure, [std::out_of_range] is thrown and nothing is changed. *)
Theorem evaluate_segment_short_edge (atan2 : Q -> Q -> Q) (t : intersecting_tiles_t)
    (x1 y1 x2 y2 : Q) (outer_ring : bool) (c lo hi : Z) :
  let leeway := TILE_EXPIRY_LEEWAY t in
  let idx := Z.to_nat (get_x_index t c) in
  Qle 0 leeway ->
  is_double x1 ->
  length (min_bounds t) = length (max_bounds t) ->
  to_uint32 (dsub (dmin x1 x2) leeway) = Some c ->
  to_uint32 (dadd (dmax x1 x2) leeway) = Some c ->
  to_uint32 (dsub (dmin y1 y2) leeway) = Some lo ->
  to_uint32 (dadd (dmax y1 y2) leeway) = Some hi ->
  match min_bounds t !! idx, max_bounds t !! idx with
  | Some column_min, Some column_max =>
      evaluate_segment atan2 t x1 y1 x2 y2 outer_ring
      = Returned (set_max_bounds
                    (set_min_bounds t (<[idx := column_min ++ [lo]]> (min_bounds t)))
                    (<[idx := column_max ++ [hi]]> (max_bounds t)))
  | _, _ => evaluate_segment atan2 t x1 y1 x2 y2 outer_ring = Thrown Out_of_range t
  end.
Proof.
  intros leeway idx Hleeway Hx1d Hlen Hwest Heast Hlo Hhi.
  assert (Hx1 : to_uint32 x1 = Some c).
  { apply (to_uint32_between (dsub (dmin x1 x2) leeway) (dadd (dmax x1 x2) leeway));
      [| |assumption..].
    - apply round_double_le; [exact Hx1d|].
      eapply Qle_trans; [apply minus_leeway_le; assumption|apply dmin_le_l].
    - apply round_double_ge; [exact Hx1d|].
      eapply Qle_trans; [apply dmax_ge_l|apply plus_leeway_ge; assumption]. }
  unfold evaluate_segment. fold leeway. rewrite Hwest, Heast, Z.eqb_refl, Hx1.
  unfold add_minimum. fold leeway. rewrite Hlo. unfold emplace_back_at. fold idx.
  destruct (min_bounds t !! idx) as [column_min|] eqn:Emin.
  - destruct (max_bounds t !! idx) as [column_max|] eqn:Emax.
    + simpl. unfold add_maximum, emplace_back_at. simpl. fold leeway.
      rewrite Hhi. unfold get_x_index. simpl. fold (get_x_index t c). fold idx.
      now rewrite Emax.
    + apply lookup_lt_Some in Emin. apply lookup_ge_None in Emax. lia.
  - reflexivity.
Qed.

Lemma evaluate_segment_short_edge_witness :
  evaluate_segment atan2_of_quadrant one_column
    (Qmake 1 2) (tenths 1 / 2) (Qmake 1 2) (Qmake 1 2) true
  = Returned (set_max_bounds
                (set_min_bounds one_column (<[0%nat := [] ++ [0]]> (min_bounds one_column)))
                (<[0%nat := [] ++ [0]]> (max_bounds one_column))).
Proof.
  apply (evaluate_segment_short_edge atan2_of_quadrant one_column (Qmake 1 2) (tenths 1 / 2)
           (Qmake 1 2) (Qmake 1 2) true 0 0 0).
  - vm_compute. discriminate.
  - vm_compute. reflexivity.
  - reflexivity.
  - vm_compute. reflexivity.
  - vm_compute. reflexivity.
  - vm_compute. reflexivity.
  - vm_compute. reflexivity.
Defined.

(** ** Evil polygons *)

Import Wkb.

(** In the evil branch a polygon with at least one ring is handled as
    [from_wkb_line] on the bytes from [start] on, once; the scanline structure
    is not built. *)
Lemma from_wkb_polygon_evil (coords_to_tile : Q -> Q -> Z -> Q * Q)
    (atan2 : Q -> Q -> Q) (map_width : Z)
    (max_bbox : Q) (wkb wkb1 wkb2 wkb3 wkb4 : parser_t)
    (num_rings num_pt : Z) (initpt min max : coordinates) :
  read_length wkb = Some (num_rings, wkb1) ->
  read_length wkb1 = Some (num_pt, wkb2) ->
  read_point wkb2 = Some (initpt, wkb3) ->
  bounding_box_loop (Z.to_nat (num_pt - 1)) initpt initpt wkb3 = Some (min, max, wkb4) ->
  Qlt_bool max_bbox (dsub (cx max) (cx min)) || Qlt_bool max_bbox (dsub (cy max) (cy min)) = true ->
  0 < num_rings ->
  from_wkb_polygon coords_to_tile atan2 map_width max_bbox wkb
  = from_wkb_line (rewind wkb4 (save_pos wkb1)).
Proof.
  intros H1 H2 H3 H4 Hevil Hn. unfold from_wkb_polygon.
  rewrite H1, H2, H3, H4, Hevil.
  destruct (Z.to_nat num_rings) eqn:E; [lia|]. reflexivity.
Qed.

(** C7 on a polygon with a hole: the outer ring is 10 wide and
    [max_bbox = 5], so the polygon is evil.  Whatever the projection and the
    zoom level, [from_wkb_polygon] expires the four segments of the outer
    ring and returns, without any fill; the three segments of the inner
    ring, which expiring every ring as a linestring includes, are not
    expired. *)
Theorem from_wkb_polygon_evil_skips_inner_rings
    (coords_to_tile : Q -> Q -> Z -> Q * Q) (atan2 : Q -> Q -> Q) (map_width : Z) :
  fst <$> from_wkb_polygon coords_to_tile atan2 map_width 5 wide_polygon
  = Some [Call_from_line_lon_lat 0 0 10 0; Call_from_line_lon_lat 10 0 10 10;
          Call_from_line_lon_lat 10 10 0 10; Call_from_line_lon_lat 0 10 0 0]
  /\
  fst <$> expire_all_rings_as_lines 2 (rewind wide_polygon 1)
  = Some [Call_from_line_lon_lat 0 0 10 0; Call_from_line_lon_lat 10 0 10 10;
          Call_from_line_lon_lat 10 10 0 10; Call_from_line_lon_lat 0 10 0 0;
          Call_from_line_lon_lat 1 1 2 1; Call_from_line_lon_lat 2 1 2 2;
          Call_from_line_lon_lat 2 2 1 1].
Proof. split; vm_compute; reflexivity. Qed.

(** A polygon that is not evil is filled: the rectangle over the columns 2
    and 3 of row 1 gives one interval per column. *)
Example from_wkb_polygon_fills :
  fst <$> from_wkb_polygon flip_projection atan2_of_quadrant 8 5 small_polygon
  = Some [Call_from_bbox_without_buffer 2 1 2 1; Call_from_bbox_without_buffer 3 1 3 1].
Proof. vm_compute. reflexivity. Qed.

(** * Further properties *)

Import Methods Scanline Stripes Merging Intervals Linestrings MultiLine.

(** ** The codec *)

(** X1. Encoding after decoding: for a zoom level up to 32 and a quadkey
    below [4^zoom], [xy_to_quadkey] of the tile that [quadkey_to_xy] returns
    is the quadkey itself. *)
Theorem quadkey_encode_after_decode (q zoom : Z) :
  0 <= zoom <= 32 -> 0 <= q < 2 ^ (2 * zoom) ->
  xy_to_quadkey (xy_x (quadkey_to_xy q zoom)) (xy_y (quadkey_to_xy q zoom)) zoom = q.
Proof. intros Hz Hq. now apply xy_to_quadkey_to_xy. Qed.

Lemma quadkey_encode_after_decode_witness :
  xy_to_quadkey (xy_x (quadkey_to_xy 0x3FFFFFFF0 18)) (xy_y (quadkey_to_xy 0x3FFFFFFF0 18)) 18
  = 0x3FFFFFFF0.
Proof. apply quadkey_encode_after_decode; lia. Defined.

Lemma xy_to_quadkey_mod (x y zoom : Z) :
  0 <= zoom <= 32 ->
  xy_to_quadkey (x mod 2 ^ zoom) (y mod 2 ^ zoom) zoom = xy_to_quadkey x y zoom.
Proof.
  intros Hz. apply bits_inj_even_odd. intros k Hk.
  rewrite !xy_to_quadkey_even, !xy_to_quadkey_odd, !Z.testbit_mod_pow2 by lia.
  destruct (k <? zoom); split; reflexivity.
Qed.

(** X2. Only the low [zoom] bits of a coordinate enter a quadkey: two
    pairs of coordinates get the same quadkey at [zoom] exactly when their
    [x] and their [y] agree modulo [2^zoom].  So a coordinate beyond the grid
    is encoded as the tile it wraps around to. *)
Theorem quadkey_collision (x y x' y' zoom : Z) :
  0 <= zoom <= 32 ->
  xy_to_quadkey x y zoom = xy_to_quadkey x' y' zoom
  <-> x mod 2 ^ zoom = x' mod 2 ^ zoom /\ y mod 2 ^ zoom = y' mod 2 ^ zoom.
Proof.
  intros Hz. split.
  - intros E.
    assert (E' : quadkey_to_xy (xy_to_quadkey x y zoom) zoom
                 = quadkey_to_xy (xy_to_quadkey x' y' zoom) zoom) by now rewrite E.
    rewrite !quadkey_to_xy_to_quadkey_mod in E' by lia.
    now injection E'.
  - intros [Ex Ey].
    rewrite <- (xy_to_quadkey_mod x y), <- (xy_to_quadkey_mod x' y') by lia.
    now rewrite Ex, Ey.
Qed.

Lemma quadkey_collision_witness :
  xy_to_quadkey 8 2 3 = xy_to_quadkey 0 2 3
  <-> 8 mod 2 ^ 3 = 0 mod 2 ^ 3 /\ 2 mod 2 ^ 3 = 2 mod 2 ^ 3.
Proof. apply quadkey_collision. lia. Defined.

(** X3. [quadkey_to_xy] returns a tile of the grid for every argument:
    both coordinates are below [2^zoom], and the bits of the quadkey from
    position [2 * zoom] on are ignored. *)
Theorem quadkey_to_xy_within_grid (q zoom : Z) :
  0 <= zoom <= 32 ->
  0 <= xy_x (quadkey_to_xy q zoom) < 2 ^ zoom /\
  0 <= xy_y (quadkey_to_xy q zoom) < 2 ^ zoom /\
  quadkey_to_xy q zoom = quadkey_to_xy (q mod 2 ^ (2 * zoom)) zoom.
Proof.
  intros Hz. destruct (quadkey_to_xy_range q zoom Hz) as [Hx Hy].
  split; [exact Hx|]. split; [exact Hy|].
  rewrite (quadkey_to_xy_spec q), (quadkey_to_xy_spec (q mod _)) by lia.
  f_equal.
  - apply Z.bits_inj'. intros k Hk.
    rewrite !x_of_quadkey_bits, Z.testbit_mod_pow2 by lia.
    destruct (Z.ltb_spec k (Z.of_nat (Z.to_nat zoom))); simpl; [|reflexivity].
    destruct (Z.ltb_spec (2 * k) (2 * zoom)); [reflexivity|lia].
  - apply Z.bits_inj'. intros k Hk.
    rewrite !y_of_quadkey_bits, Z.testbit_mod_pow2 by lia.
    destruct (Z.ltb_spec k (Z.of_nat (Z.to_nat zoom))); simpl; [|reflexivity].
    destruct (Z.ltb_spec (2 * k + 1) (2 * zoom)); [reflexivity|lia].
Qed.

Lemma quadkey_to_xy_within_grid_witness :
  0 <= xy_x (quadkey_to_xy (2 ^ 64 - 1) 3) < 2 ^ 3 /\
  0 <= xy_y (quadkey_to_xy (2 ^ 64 - 1) 3) < 2 ^ 3 /\
  quadkey_to_xy (2 ^ 64 - 1) 3 = quadkey_to_xy ((2 ^ 64 - 1) mod 2 ^ (2 * 3)) 3.
Proof. apply quadkey_to_xy_within_grid. lia. Defined.

Lemma mod_4_bits (a : Z) :
  a mod 4 = 2 * Z.b2z (Z.testbit a 1) + Z.b2z (Z.testbit a 0).
Proof.
  rewrite (Z.testbit_spec' a 1), (Z.testbit_spec' a 0) by lia.
  change (2 ^ 1) with 2. change (2 ^ 0) with 1. rewrite Z.div_1_r.
  change 4 with (2 * 2). rewrite Z.rem_mul_r by lia. lia.
Qed.

(** X4. The quadkey of a tile is four times the quadkey of its parent
    tile one zoom level up, plus twice the lowest bit of [y], plus the lowest
    bit of [x]: the four children of a tile have consecutive quadkeys. *)
Theorem quadkey_of_child (x y zoom : Z) :
  0 <= zoom <= 31 ->
  xy_to_quadkey x y (zoom + 1)
  = 4 * xy_to_quadkey (x / 2) (y / 2) zoom + 2 * (y mod 2) + x mod 2.
Proof.
  intros Hz.
  assert (Hhigh : xy_to_quadkey x y (zoom + 1) / 4 = xy_to_quadkey (x / 2) (y / 2) zoom).
  { assert (H := xy_to_quadkey_shiftr x y (zoom + 1) 1 ltac:(lia) ltac:(lia)).
    rewrite !Z.shiftr_div_pow2 in H by lia.
    change (2 ^ (2 * 1)) with 4 in H. change (2 ^ 1) with 2 in H.
    now replace (zoom + 1 - 1) with zoom in H by lia. }
  assert (Hlow : xy_to_quadkey x y (zoom + 1) mod 4 = 2 * (y mod 2) + x mod 2).
  { rewrite mod_4_bits.
    assert (Ho := xy_to_quadkey_odd x y (zoom + 1) 0 ltac:(lia) ltac:(lia)).
    assert (He := xy_to_quadkey_even x y (zoom + 1) 0 ltac:(lia) ltac:(lia)).
    change (2 * 0 + 1) with 1 in Ho. change (2 * 0) with 0 in He.
    rewrite Ho, He. replace (0 <? zoom + 1) with true by lia. simpl andb.
    now rewrite <- !Z.bit0_mod. }
  rewrite (Z.div_mod (xy_to_quadkey x y (zoom + 1)) 4) at 1 by lia.
  rewrite Hhigh, Hlow. lia.
Qed.

Lemma quadkey_of_child_witness :
  xy_to_quadkey 3 5 (2 + 1) = 4 * xy_to_quadkey (3 / 2) (5 / 2) 2 + 2 * (5 mod 2) + 3 mod 2.
Proof. apply quadkey_of_child. lia. Defined.

(** X5. Decoding a quadkey shifted right by [2 * d] at the zoom level
    [zoom - d] gives the decoded tile with both coordinates shifted right by
    [d], for every quadkey; [output_and_destroy] computes the tiles of the
    lower zoom levels this way. *)
Theorem quadkey_to_xy_of_ancestor (q zoom d : Z) :
  0 <= zoom <= 32 -> 0 <= d <= zoom ->
  quadkey_to_xy (Z.shiftr q (2 * d)) (zoom - d)
  = {| xy_x := Z.shiftr (xy_x (quadkey_to_xy q zoom)) d;
       xy_y := Z.shiftr (xy_y (quadkey_to_xy q zoom)) d |}.
Proof. intros Hz Hd. now apply quadkey_to_xy_shiftr. Qed.

(** ** What every method keeps *)

Section Preservation.

Variable P : expire_tiles -> Prop.
Hypothesis P_expire_tile : forall st x y, P st -> P (expire_tile st x y).

Lemma from_bbox_without_buffer_preserves (st : expire_tiles) (min_x min_y max_x max_y : Z) :
  P st -> P (from_bbox_without_buffer st min_x min_y max_x max_y).
Proof.
  unfold from_bbox_without_buffer.
  generalize (seqZ min_x (max_x - min_x + 1)) as xs.
  generalize (seqZ min_y (max_y - min_y + 1)) as ys.
  intros ys xs. revert st.
  induction xs as [|ix xs IH]; intros st Hst; simpl; [done|].
  apply IH. clear IH. revert st Hst.
  induction ys as [|iy ys IH]; intros st Hst; simpl; [done|].
  apply IH. now apply P_expire_tile.
Qed.

Lemma quadkey_to_xy_of_ancestor_witness :
  quadkey_to_xy (Z.shiftr 39 (2 * 1)) (3 - 1)
  = {| xy_x := Z.shiftr (xy_x (quadkey_to_xy 39 3)) 1;
       xy_y := Z.shiftr (xy_y (quadkey_to_xy 39 3)) 1 |}.
Proof. apply quadkey_to_xy_of_ancestor; lia. Defined.

Lemma from_bbox_preserves (st st' : expire_tiles) (min_x min_y max_x max_y : Q) :
  P st -> from_bbox st min_x min_y max_x max_y = Some st' -> P st'.
Proof.
  intros Hst. unfold from_bbox.
  destruct (to_uint32 _); [|discriminate]. destruct (to_uint32 _); [|discriminate].
  destruct (to_uint32 _); [|discriminate]. destruct (to_uint32 _); [|discriminate].
  intros E. injection E as <-. now apply from_bbox_without_buffer_preserves.
Qed.

Lemma for_each_preserves (xs : list Z)
    (body : expire_tiles -> Z -> option expire_tiles) :
  (forall st x st', P st -> body st x = Some st' -> P st') ->
  forall st st', P st -> for_each xs body st = Some st' -> P st'.
Proof.
  intros Hbody. unfold for_each.
  induction xs as [|x xs IH] using rev_ind; intros st st' Hst H.
  - simpl in H. by injection H as <-.
  - rewrite foldl_app in H. simpl in H.
    apply bind_Some in H as (st1 & H1 & H2). eauto.
Qed.

Lemma expire_vertical_line_preserves (st st' : expire_tiles) (x y1 y2 : Q) :
  P st -> expire_vertical_line st x y1 y2 = Some st' -> P st'.
Proof.
  intros Hst H. unfold expire_vertical_line in H. option_inv.
  match goal with
  | Hloop : for_each _ _ _ = Some _ |- _ =>
      apply for_each_preserves in Hloop;
        [eauto using from_bbox_preserves| |eauto using from_bbox_preserves]
  end.
  intros s y s' Hs Hb. option_inv. eauto.
Qed.

Lemma expire_line_preserves (st st' : expire_tiles) (x1 y1 x2 y2 : Q) :
  P st -> expire_line st x1 y1 x2 y2 = Some st' -> P st'.
Proof.
  intros Hst H. unfold expire_line in H.
  destruct (negb (Qlt_bool x1 x2)); [discriminate|].
  apply bind_Some in H as (incline & _ & H).
  destruct (_ && _); [by injection H as <-|].
  destruct (Qle_bool x2 0); [by injection H as <-|].
  destruct (if Qlt_bool x1 0 then _ else _) as [x1' y1'].
  apply bind_Some in H as ([x1'' y1''] & _ & H).
  apply bind_Some in H as ([x2'' y2''] & _ & H).
  apply bind_Some in H as (tile_x & _ & H).
  apply bind_Some in H as (tile_y & _ & H).
  apply bind_Some in H as (first & _ & H).
  apply bind_Some in H as (last & _ & H).
  apply bind_Some in H as (st1 & Hloop1 & H).
  apply bind_Some in H as (first' & _ & H).
  apply bind_Some in H as (last' & _ & Hloop2).
  apply for_each_preserves in Hloop1; [| |eauto].
  - apply for_each_preserves in Hloop2; [assumption| |assumption].
    intros s y s' Hs Hb.
    apply bind_Some in Hb as (x & _ & Hb). apply bind_Some in Hb as (tile_x' & _ & Hb).
    injection Hb as <-. destruct (Qlt_bool _ _); eauto.
  - intros s x s' Hs Hb. option_inv. eauto.
Qed.

Section Projection.

Variable coords_to_tile : Q -> Q -> Z -> Q * Q.
Variable dsqrt : Q -> Q.
Variable atan2 : Q -> Q -> Q.

Lemma expire_line_segment_preserves (st st' : expire_tiles) (x1 y1 x2 y2 : Q) :
  P st -> expire_line_segment dsqrt st x1 y1 x2 y2 = Some st' -> P st'.
Proof.
  intros Hst H. unfold expire_line_segment in H.
  destruct (negb (Qle_bool x1 x2)); [discriminate|].
  destruct (negb (Qle_bool _ _)); [discriminate|].
  destruct (_ && _); [by injection H as <-|].
  apply bind_Some in H as (vertical & _ & H). destruct vertical.
  - destruct (if Qlt_bool y2 y1 then _ else _) as [y1' y2'].
    apply bind_Some in H as (x_buffer_west & _ & H).
    apply bind_Some in H as (st1 & H1 & H).
    apply bind_Some in H as (x_buffer_east & _ & H).
    apply bind_Some in H as (west & _ & H).
    apply bind_Some in H as (east & _ & H).
    destruct (negb (west =? east)); [eauto using expire_vertical_line_preserves|].
    injection H as <-. eauto using expire_vertical_line_preserves.
  - apply bind_Some in H as (x_norm & _ & H).
    apply bind_Some in H as (y_norm & _ & H).
    apply bind_Some in H as (st1 & H1 & H). eauto using expire_line_preserves.
Qed.

Lemma from_line_lon_lat_preserves (st st' : expire_tiles) (lon_a lat_a lon_b lat_b : Q) :
  P st ->
  from_line_lon_lat coords_to_tile dsqrt st lon_a lat_a lon_b lat_b = Some st' ->
  P st'.
Proof.
  intros Hst H. unfold from_line_lon_lat in H.
  destruct (coords_to_tile lon_a lat_a _) as [xa ya].
  destruct (coords_to_tile lon_b lat_b _) as [xb yb].
  destruct (if Qlt_bool xb xa then _ else _) as [[[xa' ya'] xb'] yb'].
  destruct (Qlt_bool _ _).
  - destruct (_ && _); [eauto using expire_line_segment_preserves|].
    apply bind_Some in H as (ratio & _ & H).
    apply bind_Some in H as (st1 & H1 & H).
    eauto using expire_line_segment_preserves.
  - eauto using expire_line_segment_preserves.
Qed.

Lemma from_point_preserves (st st' : expire_tiles) (lon lat : Q) :
  P st -> from_point coords_to_tile st lon lat = Some st' -> P st'.
Proof.
  intros Hst H. unfold from_point in H.
  destruct (coords_to_tile lon lat _). eauto using from_bbox_preserves.
Qed.

Lemma from_bbox_lon_lat_preserves (st st' : expire_tiles) (min_x min_y max_x max_y : Q) :
  P st ->
  from_bbox_lon_lat coords_to_tile st min_x min_y max_x max_y = Some st' ->
  P st'.
Proof.
  intros Hst H. unfold from_bbox_lon_lat in H.
  destruct (coords_to_tile min_x min_y _), (coords_to_tile max_x max_y _).
  eauto using from_bbox_preserves.
Qed.

Lemma run_call_preserves (st st' : expire_tiles) (call : rasterizer_call) :
  P st -> run_call coords_to_tile dsqrt st call = Some st' -> P st'.
Proof.
  intros Hst H. destruct call; simpl in H.
  - eauto using from_point_preserves.
  - eauto using from_line_lon_lat_preserves.
  - eauto using from_bbox_preserves.
  - injection H as <-. eauto using from_bbox_without_buffer_preserves.
Qed.

Lemma run_calls_preserves (calls : list rasterizer_call) :
  forall st st', P st ->
    run_calls coords_to_tile dsqrt st calls = Some st' -> P st'.
Proof.
  unfold run_calls.
  induction calls as [|call calls IH] using rev_ind; intros st st' Hst H.
  - simpl in H. by injection H as <-.
  - rewrite foldl_app in H. simpl in H.
    apply bind_Some in H as (st1 & H1 & H2). eauto using run_call_preserves.
Qed.

Lemma from_wkb_preserves (st st' : expire_tiles) (wkb : parser_t) :
  P st -> from_wkb coords_to_tile dsqrt atan2 st wkb = Some st' -> P st'.
Proof.
  intros Hst H. unfold from_wkb in H.
  destruct (maxzoom st =? 0); [by injection H as <-|].
  apply bind_Some in H as ([calls wkb'] & _ & H). eauto using run_calls_preserves.
Qed.

Lemma from_db_preserves (st st' : expire_tiles) (rows : list parser_t) (count : Z) :
  P st ->
  from_db coords_to_tile dsqrt atan2 st rows = Some (count, st') -> P st'.
Proof.
  intros Hst H. unfold from_db in H.
  destruct (maxzoom st =? 0); [by injection H as _ <-|].
  apply bind_Some in H as (st1 & H1 & H). injection H as _ <-.
  clear count. revert st st1 Hst H1.
  induction rows as [|wkb rows IH] using rev_ind; intros st st1 Hst H1.
  - simpl in H1. by injection H1 as <-.
  - rewrite foldl_app in H1. simpl in H1.
    apply bind_Some in H1 as (st2 & H2 & H3). eauto using from_wkb_preserves.
Qed.

Hypothesis P_merge : forall self other self' other',
  P self -> merge_and_destroy self other = Returned (self', other') -> P self'.

Lemma method_call_preserves (st st' : expire_tiles) :
  method_call coords_to_tile dsqrt atan2 st st' -> P st -> P st'.
Proof.
  intros Hcall Hst. destruct Hcall.
  - now apply P_expire_tile.
  - now apply from_bbox_without_buffer_preserves.
  - eapply from_bbox_preserves; eassumption.
  - eapply from_bbox_lon_lat_preserves; eassumption.
  - eapply from_point_preserves; eassumption.
  - eapply from_line_lon_lat_preserves; eassumption.
  - eapply expire_line_segment_preserves; eassumption.
  - eapply expire_line_preserves; eassumption.
  - eapply expire_vertical_line_preserves; eassumption.
  - eapply from_wkb_preserves; eassumption.
  - eapply from_db_preserves; eassumption.
  - eapply P_merge; eassumption.
Qed.

End Projection.

End Preservation.

(** ** The cache of the last tile *)

Lemma expire_tile_same_configuration (st : expire_tiles) (x y : Z) :
  same_configuration st (expire_tile st x y).
Proof.
  unfold expire_tile, same_configuration.
  destruct (negb (valid_tile_coord st x) || negb (valid_tile_coord st y)); [done|].
  destruct (negb (last_tile_x st =? x) || negb (last_tile_y st =? y)); done.
Qed.

Lemma cache_sound_new (max : Z) (bbox : Q) (indeterminate : expire_tiles) :
  1 <= max <= 31 -> cache_sound (new_expire_tiles max bbox indeterminate).
Proof.
  intros Hmax. unfold new_expire_tiles, cache_sound, valid_tile_coord.
  destruct (Z.ltb_spec 0 max); [|lia]. simpl.
  rewrite Z.shiftl_1_l.
  assert (2 ^ max < 2 ^ 32) by (apply Z.pow_lt_mono_r; lia).
  assert (2 ^ max <= 2 ^ 31) by (apply Z.pow_le_mono_r; lia).
  assert (0 < 2 ^ max) by (apply Z.pow_pos_nonneg; lia).
  rewrite (wrap32_small (2 ^ max)) by (unfold is_uint32; lia).
  rewrite (wrap32_small (2 ^ max + 1)) by (unfold is_uint32; lia).
  intros Hx. apply Z.leb_le in Hx. lia.
Qed.

(** When the cache is sound, [expire_tile] amounts to an insertion of the
    quadkey of every tile it accepts. *)
Lemma expire_tile_sound (st : expire_tiles) (x y : Z) :
  cache_sound st ->
  cache_sound (expire_tile st x y) /\
  forall q, q ∈ m_dirty_tiles (expire_tile st x y)
            <-> q ∈ m_dirty_tiles st \/
                (x <= map_width st /\ y <= map_width st /\
                 q = xy_to_quadkey x y (maxzoom st)).
Proof.
  intros Hc. unfold expire_tile, valid_tile_coord.
  destruct (Z.leb_spec x (map_width st)) as [Hx|Hx]; simpl.
  2:{ split; [exact Hc|]. intros q. split; [by left|]. intros [H|H]; [done|lia]. }
  destruct (Z.leb_spec y (map_width st)) as [Hy|Hy]; simpl.
  2:{ split; [exact Hc|]. intros q. split; [by left|]. intros [H|H]; [done|lia]. }
  destruct (Z.eqb_spec (last_tile_x st) x) as [Ex|Ex]; simpl.
  - destruct (Z.eqb_spec (last_tile_y st) y) as [Ey|Ey]; simpl.
    + split; [exact Hc|]. intros q. split; [by left|].
      intros [H|(_ & _ & ->)]; [done|]. rewrite <- Ex, <- Ey. apply Hc.
      * unfold valid_tile_coord. apply Z.leb_le. lia.
      * unfold valid_tile_coord. apply Z.leb_le. lia.
    + split.
      * intros _ _. simpl. apply elem_of_union. left. by apply elem_of_singleton.
      * intros q. simpl. rewrite elem_of_union, elem_of_singleton. split.
        -- intros [->|H]; [by right|by left].
        -- intros [H|(_ & _ & ->)]; [by right|by left].
  - split.
    + intros _ _. simpl. apply elem_of_union. left. by apply elem_of_singleton.
    + intros q. simpl. rewrite elem_of_union, elem_of_singleton. split.
      * intros [->|H]; [by right|by left].
      * intros [H|(_ & _ & ->)]; [by right|by left].
Qed.

Lemma cache_sound_expire_tile (st : expire_tiles) (x y : Z) :
  cache_sound st -> cache_sound (expire_tile st x y).
Proof. intros Hc. now destruct (expire_tile_sound st x y Hc). Qed.

Lemma cache_sound_merge (self other self' other' : expire_tiles) :
  cache_sound self -> merge_and_destroy self other = Returned (self', other') ->
  cache_sound self'.
Proof.
  intros Hc Hm. apply merge_and_destroy_returned in Hm as (_ & _ & -> & _).
  unfold cache_sound, valid_tile_coord in *. simpl. intros Hx Hy.
  apply elem_of_union. left. now apply Hc.
Qed.

Lemma in_use_cache_sound (coords_to_tile : Q -> Q -> Z -> Q * Q)
    (dsqrt : Q -> Q) (atan2 : Q -> Q -> Q)
    (st : expire_tiles) :
  in_use coords_to_tile dsqrt atan2 st -> cache_sound st.
Proof.
  induction 1 as [max bbox ind Hmax|st st' _ IH Hcall].
  - now apply cache_sound_new.
  - eapply (method_call_preserves cache_sound cache_sound_expire_tile);
      [exact cache_sound_merge|exact Hcall|exact IH].
Qed.

(** X6. The cache of the last tile never swallows a tile: in an object
    built by the constructor and changed by any sequence of method calls
    (and not emptied as the [other] of a merge), after [expire_tile(x, y)]
    with [x] and [y] not above [map_width] the quadkey of [(x, y)] is in the
    set, also when the call is answered from the cache. *)
Theorem expire_tile_records_tile (coords_to_tile : Q -> Q -> Z -> Q * Q)
    (dsqrt : Q -> Q) (atan2 : Q -> Q -> Q)
    (st : expire_tiles) (x y : Z) :
  in_use coords_to_tile dsqrt atan2 st -> x <= map_width st -> y <= map_width st ->
  xy_to_quadkey x y (maxzoom st) ∈ m_dirty_tiles (expire_tile st x y).
Proof.
  intros Hst Hx Hy. apply in_use_cache_sound in Hst.
  destruct (expire_tile_sound st x y Hst) as [_ H]. apply H. by right.
Qed.

Lemma expire_tile_records_tile_witness :
  xy_to_quadkey 2 5 (maxzoom zoom3_a) ∈ m_dirty_tiles (expire_tile zoom3_a 2 5).
Proof.
  apply (expire_tile_records_tile flip_projection (fun d => d) atan2_of_quadrant).
  - apply in_use_call with (st := expire_tile zoom3 3 5); [|apply call_expire_tile].
    apply in_use_call with (st := zoom3); [|apply call_expire_tile].
    apply in_use_new. lia.
  - vm_compute. discriminate.
  - vm_compute. discriminate.
Defined.

(** ** No method removes a tile *)

Lemma keeps_expire_tile (st0 st : expire_tiles) (x y : Z) :
  keeps st0 st -> keeps st0 (expire_tile st x y).
Proof.
  intros [Hsub (Ht & Hb & Hw & Hz)].
  destruct (expire_tile_same_configuration st x y) as (Ht' & Hb' & Hw' & Hz').
  split.
  - intros q Hq. apply Hsub in Hq.
    destruct (expire_tile_dirty st x y) as [E|E]; rewrite E; [done|].
    apply elem_of_union. by right.
  - repeat split; congruence.
Qed.

Lemma keeps_merge (st0 self other self' other' : expire_tiles) :
  keeps st0 self -> merge_and_destroy self other = Returned (self', other') ->
  keeps st0 self'.
Proof.
  intros [Hsub Hcfg] Hm. apply merge_and_destroy_returned in Hm as (_ & _ & -> & _).
  split; [|exact Hcfg]. simpl. intros q Hq. apply elem_of_union. left. now apply Hsub.
Qed.

(** X7. No method removes a dirty tile or changes the configuration of
    the object it is called on: after [expire_tile], a [from_*] or [expire_*]
    method, or [merge_and_destroy] on this object, the set contains the set
    of before, and [tile_width], [max_bbox], [map_width] and [maxzoom] are
    the same. *)
Theorem method_call_keeps_tiles (coords_to_tile : Q -> Q -> Z -> Q * Q)
    (dsqrt : Q -> Q) (atan2 : Q -> Q -> Q)
    (st st' : expire_tiles) :
  method_call coords_to_tile dsqrt atan2 st st' ->
  m_dirty_tiles st ⊆ m_dirty_tiles st' /\ same_configuration st st'.
Proof.
  intros Hcall.
  apply (method_call_preserves (keeps st) (keeps_expire_tile st) coords_to_tile dsqrt atan2
           (keeps_merge st) st st' Hcall).
  split; [done|]. by repeat split.
Qed.

Lemma method_call_keeps_tiles_witness :
  m_dirty_tiles zoom3_a ⊆ m_dirty_tiles (from_bbox_without_buffer zoom3_a 2 7 2 8) /\
  same_configuration zoom3_a (from_bbox_without_buffer zoom3_a 2 7 2 8).
Proof.
  apply (method_call_keeps_tiles flip_projection (fun d => d) atan2_of_quadrant).
  apply (call_from_bbox _ _ _ zoom3_a _ (Qmake 5 2) (round_double (Qmake 159 20))
                        (Qmake 5 2) (round_double (Qmake 159 20))).
  vm_compute. reflexivity.
Defined.

(** ** Sequences of [expire_tile] calls *)

Lemma expire_tile_calls_sound (tiles : list (Z * Z)) :
  forall st, cache_sound st ->
    cache_sound (expire_tile_calls st tiles) /\
    same_configuration st (expire_tile_calls st tiles) /\
    forall q, q ∈ m_dirty_tiles (expire_tile_calls st tiles)
              <-> q ∈ m_dirty_tiles st \/
                  exists x y, (x, y) ∈ tiles /\ x <= map_width st /\ y <= map_width st /\
                              q = xy_to_quadkey x y (maxzoom st).
Proof.
  induction tiles as [|[x y] tiles IH]; intros st Hc.
  - simpl. split; [exact Hc|]. split; [by repeat split|].
    intros q. split; [by left|]. intros [H|(x & y & H & _)]; [done|].
    by apply elem_of_nil in H.
  - cbn [expire_tile_calls foldl]. fold (expire_tile_calls (expire_tile st x y) tiles).
    destruct (expire_tile_sound st x y Hc) as [Hc1 Hq1].
    destruct (expire_tile_same_configuration st x y) as (Ht & Hb & Hw & Hz).
    destruct (IH _ Hc1) as (Hc2 & (Ht' & Hb' & Hw' & Hz') & Hq2).
    split; [exact Hc2|]. split; [repeat split; congruence|].
    intros q. rewrite Hq2, Hq1, <- Hw, <- Hz. split.
    + intros [[H|(Hx & Hy & ->)]|(x' & y' & Hin & Hx & Hy & ->)].
      * by left.
      * right. exists x, y. split; [by apply elem_of_cons; left|done].
      * right. exists x', y'. split; [by apply elem_of_cons; right|done].
    + intros [H|(x' & y' & Hin & Hx & Hy & ->)]; [by left; left|].
      apply elem_of_cons in Hin as [E|Hin].
      * injection E as -> ->. left. by right.
      * right. by exists x', y'.
Qed.

(** The two loops of [from_bbox_without_buffer] call [expire_tile] on the
    tiles of the rectangle, column after column. *)
Lemma from_bbox_without_buffer_calls (st : expire_tiles) (min_x min_y max_x max_y : Z) :
  from_bbox_without_buffer st min_x min_y max_x max_y
  = expire_tile_calls st
      (x ← seqZ min_x (max_x - min_x + 1);
       (fun y => (x, y)) <$> seqZ min_y (max_y - min_y + 1)).
Proof.
  unfold from_bbox_without_buffer, expire_tile_calls.
  generalize (seqZ min_x (max_x - min_x + 1)) as xs.
  generalize (seqZ min_y (max_y - min_y + 1)) as ys.
  intros ys xs. revert st.
  induction xs as [|x xs IH]; intros st; [reflexivity|].
  cbn [foldl]. rewrite bind_cons, foldl_app, <- IH. f_equal.
  now rewrite foldl_fmap.
Qed.

Lemma from_bbox_without_buffer_sound (st : expire_tiles) (min_x min_y max_x max_y : Z) :
  cache_sound st ->
  forall q, q ∈ m_dirty_tiles (from_bbox_without_buffer st min_x min_y max_x max_y)
            <-> q ∈ m_dirty_tiles st \/
                exists x y, min_x <= x <= max_x /\ min_y <= y <= max_y /\
                            x <= map_width st /\ y <= map_width st /\
                            q = xy_to_quadkey x y (maxzoom st).
Proof.
  intros Hc q. rewrite from_bbox_without_buffer_calls.
  destruct (expire_tile_calls_sound
              (x ← seqZ min_x (max_x - min_x + 1);
               (fun y => (x, y)) <$> seqZ min_y (max_y - min_y + 1)) st Hc) as (_ & _ & H).
  rewrite H. clear H. split.
  - intros [H|(x & y & Hin & Hx & Hy & ->)]; [by left|]. right. exists x, y.
    apply list_elem_of_bind in Hin as (x' & Hin & Hx').
    apply list_elem_of_fmap in Hin as (y' & E & Hy'). injection E as -> ->.
    apply elem_of_seqZ in Hx', Hy'. repeat split; (lia || assumption).
  - intros [H|(x & y & Hx & Hy & Hvx & Hvy & ->)]; [by left|]. right. exists x, y.
    split; [|done]. apply list_elem_of_bind. exists x. split.
    + apply list_elem_of_fmap. exists y. split; [done|]. apply elem_of_seqZ. lia.
    + apply elem_of_seqZ. lia.
Qed.

(** X8. With upper bounds below [UINT32_MAX], for which its loops end,
    [from_bbox_without_buffer] adds exactly the quadkeys of the tiles
    [(x, y)] of the rectangle [min_x <= x <= max_x], [min_y <= y <= max_y]
    whose coordinates are not above [map_width]; an empty rectangle
    ([max < min]) adds nothing. *)
Theorem from_bbox_without_buffer_rectangle (coords_to_tile : Q -> Q -> Z -> Q * Q)
    (dsqrt : Q -> Q) (atan2 : Q -> Q -> Q) (st : expire_tiles) (min_x min_y max_x max_y : Z) :
  in_use coords_to_tile dsqrt atan2 st ->
  0 <= min_x -> 0 <= min_y -> max_x < 2 ^ 32 - 1 -> max_y < 2 ^ 32 - 1 ->
  forall q, q ∈ m_dirty_tiles (from_bbox_without_buffer st min_x min_y max_x max_y)
            <-> q ∈ m_dirty_tiles st \/
                exists x y, min_x <= x <= max_x /\ min_y <= y <= max_y /\
                            x <= map_width st /\ y <= map_width st /\
                            q = xy_to_quadkey x y (maxzoom st).
Proof.
  intros Hst _ _ _ _. apply from_bbox_without_buffer_sound.
  eapply in_use_cache_sound, Hst.
Qed.

Lemma from_bbox_without_buffer_rectangle_witness :
  xy_to_quadkey 3 8 3 ∈ m_dirty_tiles (from_bbox_without_buffer zoom3 2 7 3 9)
  <-> xy_to_quadkey 3 8 3 ∈ m_dirty_tiles zoom3 \/
      exists x y, 2 <= x <= 3 /\ 7 <= y <= 9 /\
                  x <= map_width zoom3 /\ y <= map_width zoom3 /\
                  xy_to_quadkey 3 8 3 = xy_to_quadkey x y (maxzoom zoom3).
Proof.
  apply (from_bbox_without_buffer_rectangle flip_projection (fun d => d) atan2_of_quadrant zoom3 2 7 3 9).
  - apply in_use_new. lia.
  - lia.
  - lia.
  - lia.
  - lia.
Defined.

(** ** Merging *)

Lemma new_expire_tiles_fields (max : Z) (bbox : Q) (indeterminate : expire_tiles) :
  1 <= max <= 31 ->
  map_width (new_expire_tiles max bbox indeterminate) = 2 ^ max /\
  maxzoom (new_expire_tiles max bbox indeterminate) = max /\
  tile_width (new_expire_tiles max bbox indeterminate)
  = round_double (Qdiv EARTH_CIRCUMFERENCE (inject_Z (2 ^ max))) /\
  m_dirty_tiles (new_expire_tiles max bbox indeterminate) = ∅.
Proof.
  intros Hmax. unfold new_expire_tiles. destruct (Z.ltb_spec 0 max); [|lia]. simpl.
  rewrite Z.shiftl_1_l.
  assert (2 ^ max < 2 ^ 32) by (apply Z.pow_lt_mono_r; lia).
  assert (0 < 2 ^ max) by (apply Z.pow_pos_nonneg; lia).
  rewrite (wrap32_small (2 ^ max)) by (unfold is_uint32; lia). done.
Qed.

(** X9. Merging is expiring in one object: for two objects constructed
    with the same zoom level, the merge of the object that expired [tiles1]
    with the object that expired [tiles2] succeeds and leaves in this object
    the set of one object that expired [tiles1] and then [tiles2]. *)
Theorem merge_and_destroy_of_calls (max : Z) (bbox1 bbox2 : Q)
    (indeterminate1 indeterminate2 : expire_tiles) (tiles1 tiles2 : list (Z * Z)) :
  1 <= max <= 31 ->
  exists self' other',
    merge_and_destroy
      (expire_tile_calls (new_expire_tiles max bbox1 indeterminate1) tiles1)
      (expire_tile_calls (new_expire_tiles max bbox2 indeterminate2) tiles2)
    = Returned (self', other') /\
    m_dirty_tiles self'
    = m_dirty_tiles (expire_tile_calls (new_expire_tiles max bbox1 indeterminate1)
                                       (tiles1 ++ tiles2)).
Proof.
  intros Hmax.
  set (a := new_expire_tiles max bbox1 indeterminate1).
  set (b := new_expire_tiles max bbox2 indeterminate2).
  destruct (new_expire_tiles_fields max bbox1 indeterminate1 Hmax) as (Hwa & Hza & Hta & Hda).
  destruct (new_expire_tiles_fields max bbox2 indeterminate2 Hmax) as (Hwb & Hzb & Htb & Hdb).
  fold a in Hwa, Hza, Hta, Hda. fold b in Hwb, Hzb, Htb, Hdb.
  assert (Hca : cache_sound a) by now apply cache_sound_new.
  assert (Hcb : cache_sound b) by now apply cache_sound_new.
  destruct (expire_tile_calls_sound tiles1 a Hca) as (_ & (Ht1 & _ & Hw1 & Hz1) & Hq1).
  destruct (expire_tile_calls_sound tiles2 b Hcb) as (_ & (Ht2 & _ & Hw2 & Hz2) & Hq2).
  destruct (expire_tile_calls_sound (tiles1 ++ tiles2) a Hca) as (_ & _ & Hq).
  destruct (merge_and_destroy (expire_tile_calls a tiles1) (expire_tile_calls b tiles2))
    as [[self' other']|e s|] eqn:Em.
  - exists self', other'. split; [reflexivity|]. clear Hta Htb Ht1 Ht2.
    apply merge_and_destroy_returned in Em as (_ & _ & -> & _). simpl.
    apply set_eq. intros q. rewrite elem_of_union, Hq1, Hq2, Hq, Hda, Hdb, Hwa, Hwb, Hza, Hzb.
    split.
    + intros [[H|(x & y & Hin & H)]|[H|(x & y & Hin & H)]];
        try (by apply not_elem_of_empty in H).
      * right. exists x, y. split; [apply elem_of_app; by left|done].
      * right. exists x, y. split; [apply elem_of_app; by right|done].
    + intros [H|(x & y & Hin & H)]; [by apply not_elem_of_empty in H|].
      apply elem_of_app in Hin as [Hin|Hin].
      * left. right. by exists x, y.
      * right. right. by exists x, y.
  - exfalso. unfold merge_and_destroy in Em.
    rewrite <- Hw1, <- Hw2, <- Ht1, <- Ht2, Hwa, Hwb, Hta, Htb, Z.eqb_refl in Em.
    cbn [negb] in Em. rewrite (Qeq_eq_bool _ _ (Qeq_refl _)) in Em. discriminate.
  - exfalso. unfold merge_and_destroy in Em.
    destruct (negb _); [discriminate|]. destruct (negb _); discriminate.
Qed.

Lemma merge_and_destroy_of_calls_witness :
  exists self' other',
    merge_and_destroy
      (expire_tile_calls (new_expire_tiles 3 1 zeroed_expire_tiles) [(3, 5); (2, 5)])
      (expire_tile_calls (new_expire_tiles 3 2 zeroed_expire_tiles) [(2, 5); (0, 8)])
    = Returned (self', other') /\
    m_dirty_tiles self'
    = m_dirty_tiles (expire_tile_calls (new_expire_tiles 3 1 zeroed_expire_tiles)
                                       ([(3, 5); (2, 5)] ++ [(2, 5); (0, 8)])).
Proof. apply merge_and_destroy_of_calls. lia. Defined.

(** X10. After a successful [merge_and_destroy] the emptied object
    [other] still remembers the last tile it expired: expiring that tile
    again changes nothing, and its set stays empty. *)
Theorem merge_and_destroy_other_keeps_cache (self other self' other' : expire_tiles) :
  merge_and_destroy self other = Returned (self', other') ->
  expire_tile other' (last_tile_x other) (last_tile_y other) = other' /\
  m_dirty_tiles other' = ∅.
Proof.
  intros Hm. apply merge_and_destroy_returned in Hm as (_ & _ & _ & ->).
  split; [|reflexivity]. unfold expire_tile. simpl.
  rewrite !Z.eqb_refl. simpl.
  now destruct (negb (valid_tile_coord _ _) || negb (valid_tile_coord _ _)).
Qed.

Lemma merge_and_destroy_other_keeps_cache_witness :
  expire_tile (set_dirty_tiles zoom3_b ∅) (last_tile_x zoom3_b) (last_tile_y zoom3_b)
  = set_dirty_tiles zoom3_b ∅ /\
  m_dirty_tiles (set_dirty_tiles zoom3_b ∅) = ∅.
Proof.
  apply (merge_and_destroy_other_keeps_cache zoom3_a zoom3_b
           (set_dirty_tiles zoom3_a (m_dirty_tiles zoom3_a ∪ m_dirty_tiles zoom3_b))).
  reflexivity.
Defined.

(** ** What was expired is written *)

(** X11. What is expired is written: after the constructor and
    [expire_tile] on a list of tiles of the grid, [output_and_destroy] with
    [minzoom = maxzoom] writes exactly these tiles at [maxzoom], each of them
    once. *)
Theorem expired_tiles_are_written (max : Z) (bbox : Q) (indeterminate : expire_tiles)
    (tiles : list (Z * Z)) :
  1 <= max <= 31 ->
  (forall x y, (x, y) ∈ tiles -> 0 <= x < 2 ^ max /\ 0 <= y < 2 ^ max) ->
  exists out,
    output_and_destroy (expire_tile_calls (new_expire_tiles max bbox indeterminate) tiles) max
    = Some out /\
    NoDup out /\
    forall x y z, (x, y, z) ∈ out <-> z = max /\ (x, y) ∈ tiles.
Proof.
  intros Hmax Htiles.
  set (st0 := new_expire_tiles max bbox indeterminate).
  destruct (new_expire_tiles_fields max bbox indeterminate Hmax) as (Hw0 & Hz0 & _ & Hd0).
  fold st0 in Hw0, Hz0, Hd0.
  destruct (expire_tile_calls_sound tiles st0 (cache_sound_new max bbox indeterminate Hmax))
    as (_ & (_ & _ & Hw & Hz) & Hq).
  set (st := expire_tile_calls st0 tiles) in *.
  assert (Hstored : forall q, q ∈ elements (m_dirty_tiles st)
                              <-> exists x y, (x, y) ∈ tiles /\ q = xy_to_quadkey x y max).
  { intros q. rewrite elem_of_elements, Hq, Hd0, Hw0, Hz0. split.
    - intros [H|(x & y & Hin & _ & _ & ->)]; [by apply not_elem_of_empty in H|].
      by exists x, y.
    - intros (x & y & Hin & ->). right. exists x, y.
      destruct (Htiles x y Hin). repeat split; (lia || assumption). }
  assert (Hrange : forall q, q ∈ elements (m_dirty_tiles st) -> 0 <= q < 2 ^ (2 * max)).
  { intros q Hq'. apply Hstored in Hq' as (x & y & _ & ->).
    apply xy_to_quadkey_range. lia. }
  exists (output_tiles max max (elements (m_dirty_tiles st))).
  split; [|split].
  - unfold output_and_destroy. rewrite <- Hz, Hz0, Z.leb_refl. reflexivity.
  - apply output_tiles_NoDup; (assumption || lia).
  - intros x y z. rewrite output_tiles_elem by (assumption || lia). split.
    + intros (q & v & Hq' & Hv & E). apply Hstored in Hq' as (x' & y' & Hin & ->).
      assert (v = max) by lia. subst v.
      unfold ancestor_tile in E. rewrite quadkey_to_xy_to_quadkey_mod in E by lia.
      simpl in E. rewrite Z.sub_diag, !Z.shiftr_0_r in E.
      destruct (Htiles x' y' Hin). rewrite !Z.mod_small in E by lia.
      injection E as -> -> ->. done.
    + intros [-> Hin]. exists (xy_to_quadkey x y max), max.
      split; [apply Hstored; by exists x, y|]. split; [lia|].
      unfold ancestor_tile. rewrite quadkey_to_xy_to_quadkey_mod by lia.
      simpl. rewrite Z.sub_diag, !Z.shiftr_0_r.
      destruct (Htiles x y Hin). now rewrite !Z.mod_small by lia.
Qed.

Lemma expired_tiles_are_written_witness :
  exists out,
    output_and_destroy
      (expire_tile_calls (new_expire_tiles 3 1 zeroed_expire_tiles) [(3, 5); (2, 5); (3, 5)]) 3
    = Some out /\
    NoDup out /\
    forall x y z, (x, y, z) ∈ out <-> z = 3 /\ (x, y) ∈ [(3, 5); (2, 5); (3, 5)].
Proof.
  apply expired_tiles_are_written; [lia|].
  intros x y Hin. repeat (apply elem_of_cons in Hin as [E|Hin]; [injection E as -> ->; lia|]).
  by apply elem_of_nil in Hin.
Defined.

Lemma output_zoom_levels_length (maxzoom q last : Z) (n : nat) :
  forall dz, (length (output_zoom_levels maxzoom q last n dz) <= n)%nat.
Proof.
  induction n as [|n IH]; intros dz; [reflexivity|].
  cbn [output_zoom_levels]. rewrite length_app. specialize (IH (dz + 1)).
  unfold dirty_tile in *. destruct (_ =? _); cbn [length]; lia.
Qed.

Lemma output_sorted_length (maxzoom minzoom : Z) (tiles : list Z) :
  forall last,
    (length (output_sorted maxzoom minzoom tiles last)
     <= length tiles * Z.to_nat (maxzoom - minzoom + 1))%nat.
Proof.
  induction tiles as [|q rest IH]; intros last; [reflexivity|].
  cbn [output_sorted length]. rewrite length_app.
  assert (H := output_zoom_levels_length maxzoom q last (Z.to_nat (maxzoom - minzoom + 1)) 0).
  specialize (IH q). unfold dirty_tile in *. lia.
Qed.

(** X12. The number of tiles [output_and_destroy] writes is at least the
    number of stored quadkeys and at most that number times the number of
    zoom levels from [minzoom] to [maxzoom]. *)
Theorem output_and_destroy_length (st : expire_tiles) (minzoom : Z) (out : list dirty_tile) :
  well_formed st -> 0 <= minzoom ->
  output_and_destroy st minzoom = Some out ->
  Z.of_nat (size (m_dirty_tiles st)) <= Z.of_nat (length out)
  <= Z.of_nat (size (m_dirty_tiles st)) * (maxzoom st - minzoom + 1).
Proof.
  intros (Hz & _ & Hr) Hmin H. unfold output_and_destroy in H.
  destruct (Z.leb_spec minzoom (maxzoom st)) as [Hle|]; [|discriminate].
  injection H as <-.
  assert (Hr' : forall q, q ∈ elements (m_dirty_tiles st) -> 0 <= q < 2 ^ (2 * maxzoom st)).
  { intros q Hq. apply Hr. now apply elem_of_elements. }
  split.
  - (* every stored quadkey is written at maxzoom *)
    assert (Hf := output_tiles_filter (maxzoom st) minzoom (elements (m_dirty_tiles st))
                    (conj Hmin Hle) (maxzoom st)).
    destruct (decide _) as [_|Hn]; [|lia].
    rewrite Z.sub_diag in Hf.
    destruct (written_spec (maxzoom st) (elements (m_dirty_tiles st)) Hz Hr' 0 ltac:(lia))
      as [Hs He].
    assert (Hp : written_quadkeys (maxzoom st) (elements (m_dirty_tiles st)) 0
                 ≡ₚ elements (m_dirty_tiles st)).
    { apply NoDup_Permutation.
      - now apply StronglySorted_lt_NoDup.
      - apply NoDup_elements.
      - intros b. rewrite He. split.
        + intros (q & Hq & ->). now rewrite Z.shiftr_0_r.
        + intros Hb. exists b. split; [exact Hb|]. now rewrite Z.shiftr_0_r. }
    assert (Hlen := length_filter (fun t => tile_zoom t = maxzoom st)
                      (output_tiles (maxzoom st) minzoom (elements (m_dirty_tiles st)))).
    rewrite Hf, length_fmap, (Permutation_length Hp) in Hlen.
    unfold size, set_size. simpl. lia.
  - unfold output_tiles.
    assert (H := output_sorted_length (maxzoom st) minzoom
                   (merge_sort Z.le (elements (m_dirty_tiles st)))
                   (initial_last_quadkey (maxzoom st))).
    rewrite (Permutation_length (merge_sort_Permutation Z.le _)) in H.
    unfold size, set_size. simpl. nia.
Qed.

Lemma output_and_destroy_length_witness :
  Z.of_nat (size (m_dirty_tiles zoom3_a)) <= Z.of_nat (length [(2, 5, 3); (1, 2, 2); (3, 5, 3)])
  <= Z.of_nat (size (m_dirty_tiles zoom3_a)) * (maxzoom zoom3_a - 2 + 1).
Proof.
  apply (output_and_destroy_length zoom3_a 2 [(2, 5, 3); (1, 2, 2); (3, 5, 3)]).
  - split; [|split].
    + change (maxzoom zoom3_a) with 3. lia.
    + reflexivity.
    + exact zoom3_a_in_range.
  - lia.
  - vm_compute. reflexivity.
Defined.

(** ** The rasterizer *)

Section Casts.

Local Open Scope Q_scope.

Lemma to_uint32_unit_interval (d : Q) (t : Z) :
  (0 <= t < 2 ^ 32)%Z -> inject_Z t <= d -> d < inject_Z t + 1 -> to_uint32 d = Some t.
Proof.
  intros Ht Hlo Hhi.
  assert (E : Qfloor d = t).
  { assert (H1 := Qfloor_le d). assert (H2 := Qlt_floor d).
    assert (Ha : (t <= Qfloor d)%Z).
    { rewrite <- (Qfloor_Z t). now apply Qfloor_resp_le. }
    assert (Hb : (Qfloor d < t + 1)%Z).
    { rewrite Zlt_Qlt. rewrite inject_Z_plus. simpl (inject_Z 1).
      eapply Qle_lt_trans; [exact H1|exact Hhi]. }
    lia. }
  rewrite <- E. apply to_uint32_floor.
  - eapply Qle_trans; [|exact Hlo]. unfold Qle. simpl. lia.
  - lia.
Qed.

Lemma Qtrunc_succ_le (d : Q) : (Qtrunc (d + 1) <= Qtrunc d + 1)%Z.
Proof.
  destruct d as [n den]. unfold Qtrunc, Qplus. simpl.
  rewrite Pos.mul_1_r, Z.mul_1_r.
  destruct (Z.le_gt_cases 0 n) as [Hn|Hn].
  - replace (n + Z.pos den)%Z with (n + 1 * Z.pos den)%Z by lia.
    rewrite Z.quot_add by nia. lia.
  - destruct (Z.le_gt_cases (n + Z.pos den) 0) as [Hm|Hm].
    + replace (n + Z.pos den)%Z with (n + 1 * Z.pos den)%Z by lia.
      rewrite Z.quot_add by nia. lia.
    + rewrite (Z.quot_small (n + Z.pos den)) by lia.
      replace n with (- (- n))%Z by lia.
      rewrite Z.quot_opp_l, (Z.quot_small (- n)) by lia. lia.
Qed.

Lemma to_uint32_le_mono (a b : Q) (ta tb : Z) :
  a <= b -> to_uint32 a = Some ta -> to_uint32 b = Some tb -> (ta <= tb)%Z.
Proof.
  unfold to_uint32. intros Hab Ha Hb. apply Qtrunc_le_mono in Hab.
  destruct (_ && _); [|discriminate]. destruct (_ && _); [|discriminate].
  injection Ha as <-. injection Hb as <-. exact Hab.
Qed.

Lemma to_uint32_succ_le (d : Q) (t t1 : Z) :
  to_uint32 d = Some t -> to_uint32 (d + 1) = Some t1 -> (t1 <= t + 1)%Z.
Proof.
  unfold to_uint32. intros Ha Hb. assert (H := Qtrunc_succ_le d).
  destruct (_ && _); [|discriminate]. destruct (_ && _); [|discriminate].
  injection Ha as <-. injection Hb as <-. exact H.
Qed.

(** The leeway [0.1] of [expire_tiles] lies between 1/16 and 1/8. *)
Lemma leeway_bounds : 1 # 16 <= Expire.TILE_EXPIRY_LEEWAY /\ Expire.TILE_EXPIRY_LEEWAY <= 1 # 8.
Proof. split; vm_compute; discriminate. Qed.

(** The doubles between the integers below [2^32]: the multiples of
    [1/16]. *)
Lemma is_double_sixteenths (t k : Z) :
  (0 <= t <= 2 ^ 32)%Z -> (0 <= k <= 16)%Z -> is_double (inject_Z t + inject_Z k * (1 # 16)).
Proof.
  intros Ht Hk. apply (is_double_comp (inject_Z (16 * t + k) * 2 ^ (-4))).
  - rewrite inject_Z_plus, inject_Z_mult. change (2 ^ (-4)) with (1 # 16).
    change (inject_Z 16) with 16. ring.
  - apply is_double_dyadic; lia.
Qed.

Lemma is_double_uint32 (t : Z) : (0 <= t <= 2 ^ 32)%Z -> is_double (inject_Z t).
Proof. intros Ht. apply is_double_Z. lia. Qed.

(** What a defined cast says of its argument. *)
Lemma to_uint32_spec (q : Q) (c : Z) :
  to_uint32 q = Some c ->
  (0 <= c < 2 ^ 32)%Z /\ q < inject_Z c + 1 /\ (inject_Z c <= q \/ c = 0%Z).
Proof.
  intros H. destruct (Qlt_le_dec q 0) as [Hq|Hq].
  - assert (Hc : (c <= 0)%Z).
    { apply (to_uint32_le_mono q 0 c 0); [lra|exact H|reflexivity]. }
    unfold to_uint32 in H. destruct (_ && _) eqn:E; [|discriminate]. injection H as H.
    apply andb_prop in E as [E1 E2]. apply Z.leb_le in E1. apply Z.ltb_lt in E2.
    assert (E0 : c = 0%Z) by lia. rewrite E0. split; [lia|]. split; [change (inject_Z 0) with 0; lra|by right].
  - assert (Hf := H). unfold to_uint32 in H. destruct (_ && _) eqn:E; [|discriminate].
    injection H as H. apply andb_prop in E as [E1 E2]. apply Z.leb_le in E1.
    apply Z.ltb_lt in E2.
    assert (Efl : Qfloor q = c).
    { rewrite to_uint32_floor in Hf.
      - by injection Hf.
      - exact Hq.
      - destruct q as [n d]. unfold Qtrunc in *. unfold Qfloor. cbn [Qnum Qden] in *.
        unfold Qle in Hq. simpl in Hq. rewrite Z.mul_1_r in Hq.
        rewrite <- Z.quot_div_nonneg by lia. lia. }
    split; [lia|]. rewrite <- Efl. split; [|left; apply Qfloor_le].
    assert (Hlt := Qlt_floor q). rewrite inject_Z_plus in Hlt. exact Hlt.
Qed.

Lemma to_uint32_Z (c : Z) : (0 <= c < 2 ^ 32)%Z -> to_uint32 (inject_Z c) = Some c.
Proof. intros H. apply to_uint32_unit_interval; [exact H|lra|lra]. Qed.

(** A sum or difference that lies, before it is rounded, between an
    integer [t] and a multiple of 1/16 below [t + 1] is cast to [t]. *)
Lemma to_uint32_round_in_tile (q : Q) (t k : Z) :
  (0 <= t < 2 ^ 32)%Z -> (0 <= k < 16)%Z ->
  inject_Z t <= q -> q <= inject_Z t + inject_Z k * (1 # 16) ->
  to_uint32 (round_double q) = Some t.
Proof.
  intros Ht Hk Hlo Hhi.
  assert (H1 := round_double_ge q _ (is_double_uint32 t ltac:(lia)) Hlo).
  assert (H2 := round_double_le q _ (is_double_sixteenths t k ltac:(lia) ltac:(lia)) Hhi).
  apply to_uint32_unit_interval; [exact Ht|exact H1|].
  eapply Qle_lt_trans; [exact H2|].
  assert (Hk' : inject_Z k <= 15) by (change 15 with (inject_Z 15); rewrite <- Zle_Qle; lia).
  lra.
Qed.

(** Adding a leeway and rounding does not lower the cast. *)
Lemma to_uint32_plus_leeway (q l : Q) (c c1 : Z) :
  0 <= l -> to_uint32 q = Some c -> to_uint32 (dadd q l) = Some c1 -> (c <= c1)%Z.
Proof.
  intros Hl Hq H1. destruct (to_uint32_spec q c Hq) as (Hc & _ & [Hle| ->]).
  - apply (to_uint32_le_mono (inject_Z c) (dadd q l)); [|now apply to_uint32_Z|exact H1].
    apply round_double_ge; [apply is_double_uint32; lia|lra].
  - destruct (to_uint32_spec _ _ H1) as (H & _). lia.
Qed.

(** Subtracting a leeway of 1/16 or more and rounding does not raise
    the cast. *)
Lemma to_uint32_minus_leeway (q l : Q) (c c0 : Z) :
  1 # 16 <= l -> to_uint32 q = Some c -> to_uint32 (dsub q l) = Some c0 -> (c0 <= c)%Z.
Proof.
  intros Hl Hq H0. destruct (to_uint32_spec q c Hq) as (Hc & Hlt & _).
  apply (to_uint32_le_mono (dsub q l) (inject_Z c + inject_Z 15 * (1 # 16))); [|exact H0|].
  - apply round_double_le; [apply is_double_sixteenths; lia|].
    change (inject_Z 15) with 15. lra.
  - apply to_uint32_unit_interval; [exact Hc| |]; change (inject_Z 15) with 15; lra.
Qed.

(** The row after the one of [y], computed as the cast of [y + 1], is at
    most the row after the one of [y] with a leeway of 1/16 or more added. *)
Lemma to_uint32_succ_leeway (y l : Q) (n f : Z) :
  1 # 16 <= l -> to_uint32 (dadd y l) = Some n -> to_uint32 (dadd y 1) = Some f ->
  (f <= n + 1)%Z.
Proof.
  intros Hl Hn Hf. destruct (to_uint32_spec _ _ Hn) as (Hc & Hlt & _).
  assert (Hy : y + l < inject_Z (n + 1)).
  { apply Qnot_le_lt. intros Hge.
    assert (H := round_double_ge (y + l) _ (is_double_uint32 (n + 1) ltac:(lia)) Hge).
    unfold dadd in Hlt. rewrite inject_Z_plus in H. change (inject_Z 1) with 1 in H. lra. }
  rewrite inject_Z_plus in Hy. change (inject_Z 1) with 1 in Hy.
  destruct (Z.eq_dec n (2 ^ 32 - 1)%Z) as [->|Hne].
  { destruct (to_uint32_spec _ _ Hf) as (H & _). lia. }
  apply (to_uint32_le_mono (dadd y 1) (inject_Z (n + 1) + inject_Z 15 * (1 # 16)));
    [|exact Hf|].
  - apply round_double_le; [apply is_double_sixteenths; lia|].
    rewrite inject_Z_plus. change (inject_Z 15) with 15. change (inject_Z 1) with 1. lra.
  - apply to_uint32_unit_interval; [lia| |]; change (inject_Z 15) with 15; lra.
Qed.

End Casts.

(** X13. [from_bbox] on a point at least [TILE_EXPIRY_LEEWAY] away from
    the lower edges of its tile and, with the leeway added, at most 7/8 of a
    tile away from them is [expire_tile] on that tile alone, for a tile with
    coordinates below [UINT32_MAX]: the rounding of the two sums and the two
    differences does not reach the next tile. *)
Theorem from_bbox_within_one_tile (st : expire_tiles) (x y : Q) (tile_x tile_y : Z) :
  0 <= tile_x < 2 ^ 32 - 1 -> 0 <= tile_y < 2 ^ 32 - 1 ->
  (inject_Z tile_x + Expire.TILE_EXPIRY_LEEWAY <= x)%Q ->
  (x + Expire.TILE_EXPIRY_LEEWAY <= inject_Z tile_x + (7 # 8))%Q ->
  (inject_Z tile_y + Expire.TILE_EXPIRY_LEEWAY <= y)%Q ->
  (y + Expire.TILE_EXPIRY_LEEWAY <= inject_Z tile_y + (7 # 8))%Q ->
  from_bbox st x y x y = Some (expire_tile st tile_x tile_y).
Proof.
  intros Htx Hty Hx0 Hx1 Hy0 Hy1. destruct leeway_bounds as [Hl1 Hl2].
  unfold from_bbox, dsub, dadd.
  rewrite (to_uint32_round_in_tile (x - Expire.TILE_EXPIRY_LEEWAY)%Q tile_x 14)
    by (try lia; change (inject_Z 14) with 14%Q; lra).
  rewrite (to_uint32_round_in_tile (y - Expire.TILE_EXPIRY_LEEWAY)%Q tile_y 14)
    by (try lia; change (inject_Z 14) with 14%Q; lra).
  rewrite (to_uint32_round_in_tile (x + Expire.TILE_EXPIRY_LEEWAY)%Q tile_x 14)
    by (try lia; change (inject_Z 14) with 14%Q; lra).
  rewrite (to_uint32_round_in_tile (y + Expire.TILE_EXPIRY_LEEWAY)%Q tile_y 14)
    by (try lia; change (inject_Z 14) with 14%Q; lra).
  f_equal. unfold from_bbox_without_buffer.
  replace (tile_x - tile_x + 1) with 1 by lia.
  replace (tile_y - tile_y + 1) with 1 by lia.
  reflexivity.
Qed.

Lemma from_bbox_within_one_tile_witness :
  from_bbox zoom3 (Qmake 5 2) (Qmake 11 2) (Qmake 5 2) (Qmake 11 2)
  = Some (expire_tile zoom3 2 5).
Proof.
  apply from_bbox_within_one_tile.
  - lia.
  - lia.
  - vm_compute. discriminate.
  - vm_compute. discriminate.
  - vm_compute. discriminate.
  - vm_compute. discriminate.
Defined.

Lemma from_bbox_sound (st st' : expire_tiles) (min_x min_y max_x max_y : Q) :
  cache_sound st -> from_bbox st min_x min_y max_x max_y = Some st' ->
  cache_sound st' /\ keeps st st' /\
  forall x y x0 y0 x1 y1,
    to_uint32 (dsub min_x Expire.TILE_EXPIRY_LEEWAY) = Some x0 ->
    to_uint32 (dsub min_y Expire.TILE_EXPIRY_LEEWAY) = Some y0 ->
    to_uint32 (dadd max_x Expire.TILE_EXPIRY_LEEWAY) = Some x1 ->
    to_uint32 (dadd max_y Expire.TILE_EXPIRY_LEEWAY) = Some y1 ->
    x0 <= x <= x1 -> y0 <= y <= y1 -> x <= map_width st -> y <= map_width st ->
    xy_to_quadkey x y (maxzoom st) ∈ m_dirty_tiles st'.
Proof.
  intros Hc H.
  assert (Hc' : cache_sound st')
    by (eapply (from_bbox_preserves cache_sound cache_sound_expire_tile); eassumption).
  assert (Hk : keeps st st').
  { eapply (from_bbox_preserves (keeps st) (keeps_expire_tile st)); [|eassumption].
    split; [done|]. by repeat split. }
  split; [exact Hc'|]. split; [exact Hk|].
  intros x y x0 y0 x1 y1 E1 E2 E3 E4 Hx Hy Hvx Hvy.
  unfold from_bbox in H. rewrite E1, E2, E3, E4 in H. injection H as <-.
  apply from_bbox_without_buffer_sound; [exact Hc|]. right. by exists x, y.
Qed.

Lemma keeps_trans (a b c : expire_tiles) : keeps a b -> keeps b c -> keeps a c.
Proof.
  intros [H1 (Ht1 & Hb1 & Hw1 & Hz1)] [H2 (Ht2 & Hb2 & Hw2 & Hz2)]. split.
  - intros q Hq. apply H2, H1, Hq.
  - repeat split; congruence.
Qed.

(** The loop of [expire_vertical_line] over the rows between the two ends. *)
Lemma expire_vertical_line_loop_sound (x : Q) (column : Z) (rows : list Z) :
  to_uint32 x = Some column ->
  forall st st', cache_sound st ->
    for_each rows (fun st y => column ← to_uint32 x; Some (expire_tile st column y)) st
    = Some st' ->
    cache_sound st' /\ keeps st st' /\
    forall row, row ∈ rows -> column <= map_width st -> row <= map_width st ->
                xy_to_quadkey column row (maxzoom st) ∈ m_dirty_tiles st'.
Proof.
  intros Ex. unfold for_each. rewrite Ex. simpl.
  induction rows as [|r rows IH] using rev_ind; intros st st' Hc H.
  - simpl in H. injection H as <-. split; [exact Hc|]. split.
    + split; [done|]. by repeat split.
    + intros row Hrow. by apply elem_of_nil in Hrow.
  - rewrite foldl_app in H. simpl in H. apply bind_Some in H as (st1 & H1 & H).
    injection H as <-.
    destruct (IH st st1 Hc H1) as (Hc1 & Hk1 & Hrows).
    destruct (expire_tile_sound st1 column r Hc1) as [Hc2 Hq].
    assert (Hk2 : keeps st (expire_tile st1 column r)) by now apply keeps_expire_tile.
    split; [exact Hc2|]. split; [exact Hk2|].
    intros row Hrow Hvc Hvr. apply elem_of_app in Hrow as [Hrow|Hrow].
    + apply Hq. left. now apply Hrows.
    + apply list_elem_of_singleton in Hrow as ->.
      destruct Hk1 as [_ (_ & _ & Hw & Hz)]. apply Hq. right.
      rewrite <- Hw, <- Hz. done.
Qed.

(** X14. [expire_vertical_line] leaves no gap: when its casts are
    defined and [x] and [y2] with the leeway added, as the code rounds them,
    stay below [UINT32_MAX], so that the loops end, every tile of the column
    of [x] from the row of [y1] to the row of [y2] that [expire_tile] accepts
    is in the set. *)
Theorem expire_vertical_line_covers_column (coords_to_tile : Q -> Q -> Z -> Q * Q)
    (dsqrt : Q -> Q) (atan2 : Q -> Q -> Q) (st st' : expire_tiles) (x y1 y2 : Q)
    (column first last row : Z) :
  in_use coords_to_tile dsqrt atan2 st ->
  expire_vertical_line st x y1 y2 = Some st' ->
  (dadd x Expire.TILE_EXPIRY_LEEWAY < inject_Z (2 ^ 32 - 1))%Q ->
  (dadd y2 Expire.TILE_EXPIRY_LEEWAY < inject_Z (2 ^ 32 - 1))%Q ->
  to_uint32 x = Some column -> to_uint32 y1 = Some first -> to_uint32 y2 = Some last ->
  first <= row <= last -> column <= map_width st -> row <= map_width st ->
  xy_to_quadkey column row (maxzoom st) ∈ m_dirty_tiles st'.
Proof.
  intros Hst H _ _ Ex Ey1 Ey2 Hrow Hvc Hvr. apply in_use_cache_sound in Hst.
  unfold expire_vertical_line in H.
  destruct (negb (Qlt_bool y1 y2)); [discriminate|].
  apply bind_Some in H as (st1 & H1 & H).
  apply bind_Some in H as (first' & Efirst & H).
  apply bind_Some in H as (last' & Elast & H).
  apply bind_Some in H as (st2 & H2 & H3).
  rewrite Ey2 in Elast. injection Elast as <-.
  destruct (from_bbox_sound st st1 x y1 x y1 Hst H1) as (Hc1 & Hk1 & Hq1).
  destruct (expire_vertical_line_loop_sound x column _ Ex st1 st2 Hc1 H2) as (Hc2 & Hk2 & Hq2).
  destruct (from_bbox_sound st2 st' x y2 x y2 Hc2 H3) as (Hc3 & Hk3 & Hq3).
  assert (Hk12 := keeps_trans _ _ _ Hk1 Hk2).
  destruct Hk1 as [_ (_ & _ & Hw1 & Hz1)]. destruct Hk12 as [_ (_ & _ & Hw2 & Hz2)].
  destruct leeway_bounds as [Hl16 _].
  assert (Hleeway : (0 <= Expire.TILE_EXPIRY_LEEWAY)%Q) by lra.
  unfold from_bbox in H1, H3.
  destruct (to_uint32 (dsub x _)) as [x0|] eqn:Ex0; [|discriminate].
  destruct (to_uint32 (dsub y1 _)) as [y10|] eqn:Ey10; [|discriminate].
  destruct (to_uint32 (dadd x _)) as [x1|] eqn:Ex1; [|discriminate].
  destruct (to_uint32 (dadd y1 _)) as [y11|] eqn:Ey11; [|discriminate].
  destruct (to_uint32 (dsub y2 _)) as [y20|] eqn:Ey20; [|discriminate].
  destruct (to_uint32 (dadd y2 _)) as [y21|] eqn:Ey21; [|discriminate].
  assert (Hx0 := to_uint32_minus_leeway _ _ _ _ Hl16 Ex Ex0).
  assert (Hx1 := to_uint32_plus_leeway _ _ _ _ Hleeway Ex Ex1).
  assert (Hy10 := to_uint32_minus_leeway _ _ _ _ Hl16 Ey1 Ey10).
  assert (Hy11 := to_uint32_plus_leeway _ _ _ _ Hleeway Ey1 Ey11).
  assert (Hsucc := to_uint32_succ_leeway _ _ _ _ Hl16 Ey11 Efirst).
  destruct (Z.le_gt_cases row y11) as [Hnear|Hfar].
  { (* the row is within the buffer of the southern end *)
    destruct Hk2 as [Hs2 _]. destruct Hk3 as [Hs3 _]. apply Hs3, Hs2.
    apply (Hq1 column row x0 y10 x1 y11); (reflexivity || lia). }
  destruct (Z.eq_dec row last) as [->|Hne2].
  { assert (Hy0 := to_uint32_minus_leeway _ _ _ _ Hl16 Ey2 Ey20).
    assert (Hy1 := to_uint32_plus_leeway _ _ _ _ Hleeway Ey2 Ey21).
    rewrite Hz2.
    apply (Hq3 column last x0 y20 x1 y21); (reflexivity || lia). }
  destruct Hk3 as [Hs3 _]. apply Hs3. rewrite Hz1.
  apply Hq2; [|lia..]. apply elem_of_seqZ. lia.
Qed.

Lemma expire_vertical_line_covers_column_witness :
  xy_to_quadkey 2 3 (maxzoom zoom3)
  ∈ m_dirty_tiles (from_bbox_without_buffer
                     (expire_tile (expire_tile (from_bbox_without_buffer zoom3 2 1 2 1) 2 2) 2 3)
                     2 4 2 4).
Proof.
  apply (expire_vertical_line_covers_column flip_projection (fun d => d) atan2_of_quadrant zoom3 _
           (Qmake 5 2) (Qmake 3 2) (Qmake 9 2) 2 1 4 3).
  - apply in_use_new. lia.
  - vm_compute. reflexivity.
  - vm_compute. reflexivity.
  - vm_compute. reflexivity.
  - vm_compute. reflexivity.
  - vm_compute. reflexivity.
  - vm_compute. reflexivity.
  - lia.
  - change (map_width zoom3) with 8. lia.
  - change (map_width zoom3) with 8. lia.
Defined.

(** ** The scanline structure *)

Lemma Forall2_prefix_refl (b : list (list Z)) : Forall2 prefix b b.
Proof. induction b; constructor; [reflexivity|assumption]. Qed.

Lemma Forall2_prefix_trans (a b c : list (list Z)) :
  Forall2 prefix a b -> Forall2 prefix b c -> Forall2 prefix a c.
Proof.
  intros Hab. revert c. induction Hab as [|x y a b Hxy _ IH]; intros c Hbc.
  - inversion Hbc. constructor.
  - inversion Hbc as [|y' z b' c' Hyz Hbc']. subst. constructor; [|now apply IH].
    now transitivity y.
Qed.

Lemma extends_refl (t : intersecting_tiles_t) : extends t t.
Proof. repeat split; apply Forall2_prefix_refl. Qed.

Lemma extends_trans (a b c : intersecting_tiles_t) :
  extends a b -> extends b c -> extends a c.
Proof.
  intros (H1 & H2 & H3 & H4 & H5 & H6 & H7 & H8) (G1 & G2 & G3 & G4 & G5 & G6 & G7 & G8).
  repeat split; try congruence; eapply Forall2_prefix_trans; eassumption.
Qed.

Lemma emplace_back_at_prefix (bounds bounds' : list (list Z)) (idx value : Z) :
  emplace_back_at bounds idx value = Some bounds' -> Forall2 prefix bounds bounds'.
Proof.
  unfold emplace_back_at. destruct (bounds !! Z.to_nat idx) as [column|] eqn:E; [|discriminate].
  intros H. injection H as <-.
  apply Forall2_same_length_lookup. split; [now rewrite length_insert|].
  intros i old new Hold Hnew.
  destruct (decide (i = Z.to_nat idx)) as [->|Hne].
  - rewrite list_lookup_insert_eq in Hnew by (eapply lookup_lt_Some; eassumption).
    injection Hnew as <-. rewrite E in Hold. injection Hold as <-.
    now apply prefix_app_r.
  - rewrite list_lookup_insert_ne in Hnew by done. rewrite Hold in Hnew.
    now injection Hnew as <-.
Qed.

Lemma add_minimum_extends (t : intersecting_tiles_t) (x : Z) (min : Q) :
  outcome_extends t (add_minimum t x min).
Proof.
  unfold add_minimum. destruct (to_uint32 _); [|exact I].
  destruct (emplace_back_at _ _ _) as [b|] eqn:E; simpl; [|apply extends_refl].
  repeat split; [now apply emplace_back_at_prefix in E|apply Forall2_prefix_refl].
Qed.

Lemma add_maximum_extends (t : intersecting_tiles_t) (x : Z) (max : Q) :
  outcome_extends t (add_maximum t x max).
Proof.
  unfold add_maximum. destruct (to_uint32 _); [|exact I].
  destruct (emplace_back_at _ _ _) as [b|] eqn:E; simpl; [|apply extends_refl].
  repeat split; [apply Forall2_prefix_refl|now apply emplace_back_at_prefix in E].
Qed.

Lemma add_minimum_or_maximum_extends (t : intersecting_tiles_t) (x : Z) (y1 y2 : Q)
    (interior_above : bool) :
  outcome_extends t (add_minimum_or_maximum t x y1 y2 interior_above).
Proof.
  unfold add_minimum_or_maximum.
  destruct interior_above; [apply add_maximum_extends|apply add_minimum_extends].
Qed.

Lemma bind_outcome_extends (t : intersecting_tiles_t) (o : outcome intersecting_tiles_t)
    (k : intersecting_tiles_t -> outcome intersecting_tiles_t) :
  outcome_extends t o -> (forall t1, outcome_extends t1 (k t1)) ->
  outcome_extends t (bind_outcome o k).
Proof.
  intros Ho Hk. destruct o as [t1|e t1|]; simpl in *; [|assumption|exact I].
  specialize (Hk t1). destruct (k t1) as [t2|e t2|]; simpl in *;
    [eapply extends_trans; eassumption|eapply extends_trans; eassumption|exact I].
Qed.

Lemma evaluate_segment_outcome_extends (atan2 : Q -> Q -> Q) (t : intersecting_tiles_t)
    (x1 y1 x2 y2 : Q) (outer_ring : bool) :
  outcome_extends t (evaluate_segment atan2 t x1 y1 x2 y2 outer_ring).
Proof.
  unfold evaluate_segment.
  destruct (to_uint32 _) as [west|]; [|exact I].
  destruct (to_uint32 _) as [east|]; [|exact I].
  destruct (west =? east).
  - destruct (to_uint32 x1) as [column|]; [|exact I].
    apply bind_outcome_extends; [apply add_minimum_extends|].
    intros t1. apply add_maximum_extends.
  - destruct (if Qlt_bool x2 x1 then _ else _) as [[[x1' y1'] x2'] y2'].
    destruct (to_uint32 _) as [start|]; [|exact I].
    destruct (to_uint32 _) as [end_|]; [|exact I].
    generalize (seqZ start (end_ - start + 1)) as stripes. intros stripes.
    induction stripes as [|x stripes IH] using rev_ind; [apply extends_refl|].
    rewrite foldl_app. simpl. unfold evaluate_stripe at 1.
    apply bind_outcome_extends; [exact IH|]. intros t1.
    apply bind_outcome_extends; [apply add_minimum_or_maximum_extends|]. intros t2.
    destruct (_ && _); [apply add_minimum_or_maximum_extends|apply extends_refl].
Qed.

(** X15. [evaluate_segment] only appends: whether it returns or throws
    [std::out_of_range], the structure has the same number of columns as
    before, every column starts with its entries of before, and the offset,
    the leeway, [max_tile_id] and the cursor are unchanged. *)
Theorem evaluate_segment_extends (atan2 : Q -> Q -> Q) (t : intersecting_tiles_t)
    (x1 y1 x2 y2 : Q) (outer_ring : bool) :
  outcome_extends t (evaluate_segment atan2 t x1 y1 x2 y2 outer_ring).
Proof. apply evaluate_segment_outcome_extends. Qed.


Lemma Qlt_bool_true (a b : Q) : Qlt_bool a b = true -> (a < b)%Q.
Proof.
  unfold Qlt_bool. destruct (Qle_bool b a) eqn:E; [discriminate|]. intros _.
  apply Qnot_le_lt. intros H. apply Qle_bool_iff in H. congruence.
Qed.

Lemma Qlt_bool_false (a b : Q) : Qlt_bool a b = false -> (b <= a)%Q.
Proof.
  unfold Qlt_bool. destruct (Qle_bool b a) eqn:E; [|discriminate]. intros _.
  now apply Qle_bool_iff.
Qed.

Lemma Qlt_bool_of_lt (a b : Q) : (a < b)%Q -> Qlt_bool a b = true.
Proof.
  intros H. destruct (Qlt_bool a b) eqn:E; [reflexivity|].
  apply Qlt_bool_false in E. exfalso. eapply Qlt_not_le; eassumption.
Qed.

Section CastOfEqual.

Local Open Scope Q_scope.

Lemma Qtrunc_comp (a b : Q) : a == b -> Qtrunc a = Qtrunc b.
Proof.
  destruct a as [n1 d1], b as [n2 d2]. unfold Qeq, Qtrunc. simpl. intros E.
  rewrite <- (Z.quot_mul_cancel_r n1 (Z.pos d1) (Z.pos d2)) by lia.
  rewrite <- (Z.quot_mul_cancel_r n2 (Z.pos d2) (Z.pos d1)) by lia.
  rewrite E. f_equal. lia.
Qed.

Lemma to_uint32_comp (a b : Q) : a == b -> to_uint32 a = to_uint32 b.
Proof. intros E. unfold to_uint32. now rewrite (Qtrunc_comp a b E). Qed.



End CastOfEqual.






(** ** [sort_bounds] *)

Lemma merge_overlapping_length (bounds : list Z * list Z) (entry : nat) :
  length (merge_overlapping bounds entry).1 = length bounds.1 /\
  length (merge_overlapping bounds entry).2 = length bounds.2.
Proof.
  destruct bounds as [mins maxs]. unfold merge_overlapping.
  destruct (mins !! entry); [|done]. destruct (mins !! _); [|done].
  destruct (maxs !! entry); [|done]. destruct (maxs !! _); [|done].
  destruct (_ <=? _); [|done]. simpl. now rewrite !length_insert.
Qed.

Lemma merge_column_length (mins maxs : list Z) :
  length (merge_column mins maxs).1 = length mins /\
  length (merge_column mins maxs).2 = length maxs.
Proof.
  unfold merge_column.
  generalize (seq 1 (Nat.min (length mins) (length maxs) - 1)) as entries.
  intros entries. induction entries as [|e entries IH] using rev_ind; [done|].
  rewrite foldl_app. simpl.
  destruct (merge_overlapping_length (foldl merge_overlapping (mins, maxs) entries) e).
  lia.
Qed.

Lemma merge_columns_length (min_bounds max_bounds : list (list Z)) :
  Forall2 (fun old new => length old = length new)
          min_bounds (merge_columns min_bounds max_bounds).1 /\
  Forall2 (fun old new => length old = length new)
          max_bounds (merge_columns min_bounds max_bounds).2.
Proof.
  assert (Hrefl : forall b : list (list Z),
             Forall2 (fun old new : list Z => length old = length new) b b).
  { intros b. induction b; constructor; done. }
  revert max_bounds. induction min_bounds as [|mins min_rest IH]; intros max_bounds.
  - simpl. split; [constructor|apply Hrefl].
  - destruct max_bounds as [|maxs max_rest]; [split; apply Hrefl|].
    cbn [merge_columns].
    destruct (merge_column_length mins maxs) as [H1 H2].
    destruct (merge_column mins maxs) as [mins' maxs'].
    destruct (IH max_rest) as [H3 H4].
    destruct (merge_columns min_rest max_rest) as [min_rest' max_rest'].
    simpl in *. split; constructor; done.
Qed.

Lemma Forall2_length_fmap_sort_l (a b : list (list Z)) :
  Forall2 (fun old new => length old = length new) (merge_sort Z.le <$> a) b ->
  Forall2 (fun old new => length old = length new) a (merge_sort Z.le <$> b).
Proof.
  intros H. apply Forall2_fmap_l in H. apply Forall2_fmap_r.
  eapply Forall2_impl; [exact H|]. simpl. intros old new E.
  rewrite (Permutation_length (merge_sort_Permutation Z.le new)).
  now rewrite (Permutation_length (merge_sort_Permutation Z.le old)) in E.
Qed.

Lemma Forall_sorted_fmap_sort (b : list (list Z)) :
  Forall (StronglySorted Z.le) (merge_sort Z.le <$> b).
Proof.
  apply Forall_fmap, Forall_forall. intros column _. simpl.
  apply StronglySorted_merge_sort; apply _.
Qed.

(** X17. [sort_bounds] keeps the number of columns and the number of
    entries of every column, and leaves every column of both vectors in
    ascending order. *)
Theorem sort_bounds_sorted (t : intersecting_tiles_t) :
  Forall (StronglySorted Z.le) (min_bounds (sort_bounds t)) /\
  Forall (StronglySorted Z.le) (max_bounds (sort_bounds t)) /\
  Forall2 (fun old new => length old = length new) (min_bounds t) (min_bounds (sort_bounds t)) /\
  Forall2 (fun old new => length old = length new) (max_bounds t) (max_bounds (sort_bounds t)).
Proof.
  unfold sort_bounds.
  destruct (merge_columns_length (merge_sort Z.le <$> min_bounds t)
                                 (merge_sort Z.le <$> max_bounds t)) as [H1 H2].
  destruct (merge_columns _ _) as [mins maxs]. simpl in *.
  split; [apply Forall_sorted_fmap_sort|]. split; [apply Forall_sorted_fmap_sort|].
  split; now apply Forall2_length_fmap_sort_l.
Qed.

Lemma merge_loop (ps : list (Z * Z)) :
  forall (dm dx : list Z) (pm px : Z) (tm tx : list Z),
    length dm = length dx ->
    foldl merge_overlapping
          (dm ++ pm :: ps.*1 ++ tm, dx ++ px :: ps.*2 ++ tx)
          (seq (S (length dm)) (length ps))
    = (dm ++ (merge_pairs (pm, px) ps).*1 ++ tm,
       dx ++ (merge_pairs (pm, px) ps).*2 ++ tx).
Proof.
  induction ps as [|[em ex] ps IH]; intros dm dx pm px tm tx Hlen; [reflexivity|].
  cbn [length seq foldl fmap list_fmap fst snd app merge_pairs].
  assert (Hm1 : (dm ++ pm :: em :: ps.*1 ++ tm) !! S (length dm) = Some em).
  { rewrite lookup_app_r by lia. now replace (S (length dm) - length dm)%nat with 1%nat by lia. }
  assert (Hm0 : (dm ++ pm :: em :: ps.*1 ++ tm) !! (S (length dm) - 1)%nat = Some pm).
  { apply list_lookup_middle. lia. }
  assert (Hx1 : (dx ++ px :: ex :: ps.*2 ++ tx) !! S (length dm) = Some ex).
  { rewrite lookup_app_r by lia. now replace (S (length dm) - length dx)%nat with 1%nat by lia. }
  assert (Hx0 : (dx ++ px :: ex :: ps.*2 ++ tx) !! (S (length dm) - 1)%nat = Some px).
  { apply list_lookup_middle. lia. }
  unfold merge_overlapping at 2. rewrite Hm1, Hm0, Hx1, Hx0.
  destruct (em <=? px).
  - rewrite (insert_app_r_alt dm _ (S (length dm))) by lia.
    rewrite (insert_app_r_alt dx _ (S (length dm))) by lia.
    replace (S (length dm) - length dm)%nat with 1%nat by lia.
    replace (S (length dm) - length dx)%nat with 1%nat by lia.
    cbn [list_insert insert].
    rewrite (insert_app_r_alt dm _ (S (length dm) - 1)) by lia.
    rewrite (insert_app_r_alt dx _ (S (length dm) - 1)) by lia.
    replace (S (length dm) - 1 - length dm)%nat with 0%nat by lia.
    replace (S (length dm) - 1 - length dx)%nat with 0%nat by lia.
    cbn [list_insert insert].
    specialize (IH (dm ++ [UINT32_MAX]) (dx ++ [UINT32_MAX]) (Z.min em pm) (Z.max ex px) tm tx).
    rewrite !length_app, <- !app_assoc in IH. simpl in IH.
    replace (length dm + 1)%nat with (S (length dm)) in IH by lia.
    rewrite IH by lia. reflexivity.
  - specialize (IH (dm ++ [pm]) (dx ++ [px]) em ex tm tx).
    rewrite !length_app, <- !app_assoc in IH. simpl in IH.
    replace (length dm + 1)%nat with (S (length dm)) in IH by lia.
    rewrite IH by lia. reflexivity.
Qed.

(** [merge_column] is [merge_pairs] on the entries both vectors have; the
    surplus of the longer vector is kept. *)
Lemma merge_column_pairs (pm px : Z) (ps : list (Z * Z))
    (tm tx : list Z) :
  tm = [] \/ tx = [] ->
  merge_column (pm :: ps.*1 ++ tm) (px :: ps.*2 ++ tx)
  = ((merge_pairs (pm, px) ps).*1 ++ tm, (merge_pairs (pm, px) ps).*2 ++ tx).
Proof.
  intros Htail. unfold merge_column.
  assert (E : (Nat.min (length (pm :: ps.*1 ++ tm)) (length (px :: ps.*2 ++ tx)) - 1)%nat
              = length ps).
  { simpl. rewrite !length_app, !length_fmap.
    destruct Htail as [-> | ->]; simpl; lia. }
  rewrite E. exact (merge_loop ps [] [] pm px tm tx eq_refl).
Qed.

Lemma merge_pairs_survivors (ps : list (Z * Z)) :
  forall pm px,
    StronglySorted Z.le (pm :: ps.*1) -> StronglySorted Z.le (px :: ps.*2) ->
    Forall (fun v => v < UINT32_MAX) (pm :: ps.*1) ->
    exists b rest,
      survivors (merge_pairs (pm, px) ps) = (pm, b) :: rest /\
      StronglySorted (fun p q => p.2 < q.1) ((pm, b) :: rest) /\
      StronglySorted Z.le ((pm, b) :: rest).*1 /\
      StronglySorted Z.le ((pm, b) :: rest).*2 /\
      Forall (fun p => p.1 ∈ pm :: ps.*1 /\ p.2 ∈ px :: ps.*2) ((pm, b) :: rest).
Proof.
  induction ps as [|[em ex] ps IH]; intros pm px Hm Hx Hlt.
  - apply Forall_cons in Hlt as [Hpm _].
    exists px, []. simpl. unfold survivors. rewrite filter_cons_True by (intros [=]; lia).
    rewrite filter_nil. split; [reflexivity|].
    split; [repeat constructor|]. split; [repeat constructor|]. split; [repeat constructor|].
    repeat constructor; simpl; by apply elem_of_cons; left.
  - cbn [fmap list_fmap fst snd] in Hm, Hx, Hlt.
    apply StronglySorted_inv in Hm as [Hm Hpm_le]. apply StronglySorted_inv in Hx as [Hx Hpx_le].
    apply Forall_cons in Hpm_le as [Hpm_em Hpm_rest].
    apply Forall_cons in Hpx_le as [Hpx_ex Hpx_rest].
    apply Forall_cons in Hlt as [Hpm Hlt].
    cbn [merge_pairs fst snd]. destruct (Z.leb_spec em px) as [Hmerge|Hsep].
    + rewrite Z.min_r, Z.max_l by lia.
      destruct (IH pm ex) as (b & rest & ES & H1 & H2 & H3 & H4).
      * constructor; [|exact Hpm_rest]. now apply StronglySorted_inv in Hm as [Hm _].
      * exact Hx.
      * apply Forall_cons in Hlt as [_ Hlt]. now constructor.
      * exists b, rest. unfold survivors in *. rewrite filter_cons_False by (intros H; now apply H).
        split; [exact ES|]. split; [exact H1|]. split; [exact H2|]. split; [exact H3|].
        eapply Forall_impl; [exact H4|]. simpl. intros p [Hp1 Hp2]. split.
        -- apply elem_of_cons in Hp1 as [->|Hp1]; [by apply elem_of_cons; left|].
           by do 2 (apply elem_of_cons; right).
        -- by apply elem_of_cons; right.
    + destruct (IH em ex Hm Hx Hlt) as (b & rest & ES & H1 & H2 & H3 & H4).
      exists px, ((em, b) :: rest). unfold survivors in *.
      rewrite filter_cons_True by (intros [=]; lia). rewrite ES.
      assert (Hfst : forall q, q ∈ (em, b) :: rest -> em <= q.1 /\ ex <= q.2).
      { intros q Hq. eapply Forall_forall in H4; [|exact Hq]. destruct H4 as [Hq1 Hq2]. split.
        - apply elem_of_cons in Hq1 as [->|Hq1]; [lia|].
          apply StronglySorted_inv in Hm as [_ Hall].
          eapply Forall_forall in Hall; [exact Hall|exact Hq1].
        - apply elem_of_cons in Hq2 as [->|Hq2]; [lia|].
          apply StronglySorted_inv in Hx as [_ Hall].
          eapply Forall_forall in Hall; [exact Hall|exact Hq2]. }
      split; [reflexivity|]. split; [|split; [|split]].
      * constructor; [exact H1|]. apply Forall_forall. intros q Hq.
        destruct (Hfst q Hq). simpl. lia.
      * rewrite fmap_cons. constructor; [exact H2|].
        apply Forall_forall. intros v Hv. apply list_elem_of_fmap in Hv as (q & -> & Hq).
        destruct (Hfst q Hq). simpl. lia.
      * rewrite fmap_cons. constructor; [exact H3|].
        apply Forall_forall. intros v Hv. apply list_elem_of_fmap in Hv as (q & -> & Hq).
        destruct (Hfst q Hq). simpl. lia.
      * constructor.
        -- simpl. split; by apply elem_of_cons; left.
        -- eapply Forall_impl; [exact H4|]. simpl. intros p [Hp1 Hp2].
           split; by apply elem_of_cons; right.
Qed.

Lemma invalidated_fst (pairs : list (Z * Z)) :
  (filter (fun p => ~ p <> (UINT32_MAX, UINT32_MAX)) pairs).*1
  = replicate (length (filter (fun p => ~ p <> (UINT32_MAX, UINT32_MAX)) pairs)) UINT32_MAX
  /\
  (filter (fun p => ~ p <> (UINT32_MAX, UINT32_MAX)) pairs).*2
  = replicate (length (filter (fun p => ~ p <> (UINT32_MAX, UINT32_MAX)) pairs)) UINT32_MAX.
Proof.
  induction pairs as [|p pairs [IH1 IH2]]; [done|].
  destruct (decide (p = (UINT32_MAX, UINT32_MAX))) as [->|Hne].
  - rewrite filter_cons_True by (intros H; now apply H).
    rewrite !fmap_cons, IH1, IH2. split; reflexivity.
  - rewrite filter_cons_False by (intros H; now apply H). done.
Qed.

Lemma StronglySorted_replicate (k : nat) (v : Z) : StronglySorted Z.le (replicate k v).
Proof.
  induction k as [|k IH]; simpl; constructor; [exact IH|].
  apply Forall_forall. intros x Hx. apply elem_of_replicate in Hx as [-> _]. lia.
Qed.

(** Sorting a vector that is ascending apart from invalidated entries
    moves these to the end. *)
Lemma merge_sort_invalidated (l kept : list Z) (k : nat) :
  l ≡ₚ kept ++ replicate k UINT32_MAX ->
  StronglySorted Z.le kept -> Forall (fun v => v <= UINT32_MAX) kept ->
  merge_sort Z.le l = kept ++ replicate k UINT32_MAX.
Proof.
  intros Hp Hs Hle. apply (StronglySorted_unique Z.le).
  - apply StronglySorted_merge_sort; apply _.
  - apply StronglySorted_app_2; [|exact Hs|apply StronglySorted_replicate].
    intros x y Hx Hy. apply elem_of_replicate in Hy as [-> _].
    eapply Forall_forall in Hle; [exact Hle|exact Hx].
  - now rewrite merge_sort_Permutation.
Qed.

Lemma zip_decompose (a b : list Z) :
  exists (ps : list (Z * Z)) (ta tb : list Z),
    a = ps.*1 ++ ta /\ b = ps.*2 ++ tb /\ (ta = [] \/ tb = []).
Proof.
  revert b. induction a as [|x a IH]; intros b.
  - exists [], [], b. split; [done|]. split; [done|]. by left.
  - destruct b as [|y b].
    + exists [], (x :: a), []. split; [done|]. split; [done|]. by right.
    + destruct (IH b) as (ps & ta & tb & -> & -> & H).
      exists ((x, y) :: ps), ta, tb. done.
Qed.

Lemma concat_fst_zip_length (a b : list (list Z)) :
  (length (concat (zip a b).*1) <= length (concat a))%nat.
Proof.
  revert b. induction a as [|x a IH]; intros b; [done|].
  destruct b as [|y b]; [simpl; lia|].
  cbn [zip_with fmap list_fmap concat fst]. rewrite !length_app. specialize (IH b). lia.
Qed.

Lemma intervals_from_set_cursor (t : intersecting_tiles_t) (x idx_min idx_max : Z)
    (columns : list (list Z * list Z)) :
  forall column,
    intervals_from (set_cursor t x idx_min idx_max) column columns
    = intervals_from t column columns.
Proof.
  induction columns as [|[mins maxs] rest IH]; intros column; [reflexivity|].
  cbn [intervals_from]. now rewrite IH.
Qed.

Lemma read_intervals_from (fuel : nat) :
  forall (t : intersecting_tiles_t) (column idx : nat) (mins maxs : list Z)
         (rest : list (list Z * list Z)),
    current_x t = Z.of_nat column ->
    next_idx_min t = Z.of_nat idx -> next_idx_max t = Z.of_nat idx ->
    drop column (zip (min_bounds t) (max_bounds t)) = (mins, maxs) :: rest ->
    Z.of_nat (length (min_bounds t)) < 2 ^ 32 ->
    Forall (fun c => Z.of_nat (length c) < 2 ^ 32) (min_bounds t) ->
    (length mins - idx + length (concat rest.*1) + S (length rest) <= fuel)%nat ->
    read_intervals fuel t
    = Some (column_intervals t column (drop idx (zip mins maxs))
            ++ intervals_from t (S column) rest).
Proof.
  induction fuel as [|fuel IH]; intros t column idx mins maxs rest Hx Hi Hj Hdrop Hcols Hlens Hfuel;
    [lia|].
  assert (Hzip : zip (min_bounds t) (max_bounds t) !! column = Some (mins, maxs)).
  { rewrite <- (Nat.add_0_r column), <- lookup_drop, Hdrop. reflexivity. }
  apply lookup_zip_with_Some in Hzip as (mins' & maxs' & E & Hmins & Hmaxs).
  injection E as <- <-.
  assert (Hlen : Z.of_nat (length mins) < 2 ^ 32).
  { eapply Forall_lookup_1 in Hlens; [|exact Hmins]. exact Hlens. }
  assert (Hcolumn : (column < length (min_bounds t))%nat) by (eapply lookup_lt_Some; eassumption).
  cbn [read_intervals]. unfold column_has_intervals.
  rewrite Hx, Nat2Z.id, Hmins, Hmaxs, Hi, Hj.
  destruct (Z.ltb_spec (Z.of_nat idx) (Z.of_nat (length mins))) as [H1|H1];
    [destruct (Z.ltb_spec (Z.of_nat idx) (Z.of_nat (length maxs))) as [H2|H2]|]; simpl.
  - (* an entry is left in the column *)
    assert (Hlt1 : (idx < length mins)%nat) by lia.
    assert (Hlt2 : (idx < length maxs)%nat) by lia.
    destruct (lookup_lt_is_Some_2 mins idx Hlt1) as [minimum Hmin].
    destruct (lookup_lt_is_Some_2 maxs idx Hlt2) as [maximum Hmax].
    unfold get_next_pair. rewrite Hx, Nat2Z.id, Hmins, Hmaxs, Hi, Hj, Nat2Z.id, Hmin, Hmax.
    assert (Ewrap : wrap32 (Z.of_nat idx + 1) = Z.of_nat (S idx)).
    { rewrite wrap32_small; [lia|]. unfold is_uint32. lia. }
    rewrite Ewrap.
    assert (Edrop : drop idx (zip mins maxs) = (minimum, maximum) :: drop (S idx) (zip mins maxs)).
    { apply drop_S. apply lookup_zip_with_Some. by exists minimum, maximum. }
    rewrite Edrop. cbn [column_intervals omap list_omap].
    assert (Hrec : read_intervals fuel
                     (set_cursor t (Z.of_nat column) (Z.of_nat (S idx)) (Z.of_nat (S idx)))
                   = Some (column_intervals t column (drop (S idx) (zip mins maxs))
                           ++ intervals_from t (S column) rest)).
    { assert (Hless : (length mins - S idx + length (concat rest.*1) + S (length rest)
                       <= fuel)%nat) by lia.
      rewrite (IH (set_cursor t (Z.of_nat column) (Z.of_nat (S idx)) (Z.of_nat (S idx)))
                  column (S idx) mins maxs rest eq_refl eq_refl eq_refl Hdrop Hcols Hlens Hless).
      now rewrite intervals_from_set_cursor. }
    unfold get_current_x. rewrite Hx.
    destruct (is_valid_bounds_entry t maximum && is_valid_bounds_entry t minimum).
    + rewrite Hrec. reflexivity.
    + rewrite Hrec. reflexivity.
  - (* the maximums of the column are used up *)
    rewrite (drop_ge (zip mins maxs)) by (rewrite length_zip_with; lia).
    cbn [column_intervals omap list_omap app].
    unfold move_to_next_column. rewrite Hx.
    assert (Ewrap : wrap32 (Z.of_nat column + 1) = Z.of_nat (S column)).
    { rewrite wrap32_small; [lia|]. unfold is_uint32. lia. }
    rewrite Ewrap. destruct rest as [|[mins' maxs'] rest'].
    + assert (Hend : (length (zip (min_bounds t) (max_bounds t)) <= S column)%nat).
      { apply (f_equal length) in Hdrop. rewrite length_drop in Hdrop. simpl in Hdrop. lia. }
      rewrite length_zip_with in Hend.
      destruct (Z.ltb_spec (Z.of_nat (S column)) (Z.of_nat (length (min_bounds t))));
        destruct (Z.ltb_spec (Z.of_nat (S column)) (Z.of_nat (length (max_bounds t))));
        simpl; (reflexivity || lia).
    + assert (Hdrop' : drop (S column) (zip (min_bounds t) (max_bounds t))
                       = (mins', maxs') :: rest').
      { replace (S column) with (column + 1)%nat by lia.
        rewrite <- drop_drop, Hdrop. reflexivity. }
      assert (Hmore : (S column < length (zip (min_bounds t) (max_bounds t)))%nat).
      { apply (f_equal length) in Hdrop'. rewrite length_drop in Hdrop'. simpl in Hdrop'. lia. }
      rewrite length_zip_with in Hmore.
      destruct (Z.ltb_spec (Z.of_nat (S column)) (Z.of_nat (length (min_bounds t)))); [|lia].
      destruct (Z.ltb_spec (Z.of_nat (S column)) (Z.of_nat (length (max_bounds t)))); [|lia].
      simpl.
      assert (Hless : (length mins' - 0 + length (concat rest'.*1) + S (length rest')
                       <= fuel)%nat).
      { cbn [fmap list_fmap concat fst length] in Hfuel. rewrite length_app in Hfuel. lia. }
      rewrite (IH (set_cursor t (Z.of_nat (S column)) 0 0) (S column) 0%nat mins' maxs' rest'
                  eq_refl eq_refl eq_refl Hdrop' Hcols Hlens Hless).
      now rewrite intervals_from_set_cursor.
  - (* the minimums of the column are used up *)
    rewrite (drop_ge (zip mins maxs)) by (rewrite length_zip_with; lia).
    cbn [column_intervals omap list_omap app].
    unfold move_to_next_column. rewrite Hx.
    assert (Ewrap : wrap32 (Z.of_nat column + 1) = Z.of_nat (S column)).
    { rewrite wrap32_small; [lia|]. unfold is_uint32. lia. }
    rewrite Ewrap. destruct rest as [|[mins' maxs'] rest'].
    + assert (Hend : (length (zip (min_bounds t) (max_bounds t)) <= S column)%nat).
      { apply (f_equal length) in Hdrop. rewrite length_drop in Hdrop. simpl in Hdrop. lia. }
      rewrite length_zip_with in Hend.
      destruct (Z.ltb_spec (Z.of_nat (S column)) (Z.of_nat (length (min_bounds t))));
        destruct (Z.ltb_spec (Z.of_nat (S column)) (Z.of_nat (length (max_bounds t))));
        simpl; (reflexivity || lia).
    + assert (Hdrop' : drop (S column) (zip (min_bounds t) (max_bounds t))
                       = (mins', maxs') :: rest').
      { replace (S column) with (column + 1)%nat by lia.
        rewrite <- drop_drop, Hdrop. reflexivity. }
      assert (Hmore : (S column < length (zip (min_bounds t) (max_bounds t)))%nat).
      { apply (f_equal length) in Hdrop'. rewrite length_drop in Hdrop'. simpl in Hdrop'. lia. }
      rewrite length_zip_with in Hmore.
      destruct (Z.ltb_spec (Z.of_nat (S column)) (Z.of_nat (length (min_bounds t)))); [|lia].
      destruct (Z.ltb_spec (Z.of_nat (S column)) (Z.of_nat (length (max_bounds t)))); [|lia].
      simpl.
      assert (Hless : (length mins' - 0 + length (concat rest'.*1) + S (length rest')
                       <= fuel)%nat).
      { cbn [fmap list_fmap concat fst length] in Hfuel. rewrite length_app in Hfuel. lia. }
      rewrite (IH (set_cursor t (Z.of_nat (S column)) 0 0) (S column) 0%nat mins' maxs' rest'
                  eq_refl eq_refl eq_refl Hdrop' Hcols Hlens Hless).
      now rewrite intervals_from_set_cursor.
Qed.

(** X20. The loop that reads the intervals ends without an exception
    when both vectors have a column, and visits, column after column, exactly
    the pairs of a minimum and the maximum at the same index that are both
    below [max_tile_id], each with the tile column [column + offset_x]. *)
Theorem read_intervals_all (t : intersecting_tiles_t) (fuel : nat) :
  current_x t = 0 -> next_idx_min t = 0 -> next_idx_max t = 0 ->
  min_bounds t <> [] -> max_bounds t <> [] ->
  Z.of_nat (length (min_bounds t)) < 2 ^ 32 ->
  Forall (fun c => Z.of_nat (length c) < 2 ^ 32) (min_bounds t) ->
  (intervals_fuel t <= fuel)%nat ->
  read_intervals fuel t = Some (all_intervals t).
Proof.
  intros Hx Hi Hj Hmin Hmax Hcols Hlens Hfuel. unfold all_intervals.
  destruct (min_bounds t) as [|mins min_rest] eqn:Emin; [done|].
  destruct (max_bounds t) as [|maxs max_rest] eqn:Emax; [done|].
  rewrite (read_intervals_from fuel t 0 0 mins maxs (zip min_rest max_rest));
    try (rewrite ?Emin, ?Emax; done).
  unfold intervals_fuel in Hfuel. rewrite Emin in Hfuel. simpl in Hfuel.
  rewrite length_app in Hfuel.
  assert (H1 := concat_fst_zip_length min_rest max_rest).
  assert (H2 : (length (zip min_rest max_rest) <= length min_rest)%nat)
    by (rewrite length_zip_with; lia).
  lia.
Qed.

Lemma read_intervals_all_witness :
  read_intervals (intervals_fuel (sort_bounds three_intervals)) (sort_bounds three_intervals)
  = Some (all_intervals (sort_bounds three_intervals)).
Proof.
  apply read_intervals_all.
  - reflexivity.
  - reflexivity.
  - reflexivity.
  - vm_compute. discriminate.
  - vm_compute. discriminate.
  - vm_compute. reflexivity.
  - repeat constructor.
  - lia.
Defined.

Lemma StronglySorted_omap {A B : Type} (R : relation A) (R' : relation B)
    (f : A -> option B) (l : list A) :
  (forall x y x' y', R x y -> f x = Some x' -> f y = Some y' -> R' x' y') ->
  StronglySorted R l -> StronglySorted R' (omap f l).
Proof.
  intros Hf Hs. induction Hs as [|x l Hs IH Hall]; [constructor|].
  cbn [omap list_omap]. destruct (f x) as [x'|] eqn:Ex; [|exact IH].
  constructor; [exact IH|]. apply Forall_forall. intros y' Hy'.
  apply list_elem_of_omap in Hy' as (y & Hy & Ey).
  eapply Forall_forall in Hall; [|exact Hy]. eauto.
Qed.

Lemma column_intervals_invalidated (t : intersecting_tiles_t) (column : nat)
    (entries : list (Z * Z)) :
  max_tile_id t <= UINT32_MAX ->
  Forall (fun p => p.1 = UINT32_MAX \/ p.2 = UINT32_MAX) entries ->
  column_intervals t column entries = [].
Proof.
  intros Hmax Hall. induction Hall as [|[lo hi] entries Hp _ IH]; [reflexivity|].
  unfold column_intervals in *. cbn [omap list_omap]. rewrite IH.
  unfold is_valid_bounds_entry. simpl in Hp.
  destruct (Z.ltb_spec hi (max_tile_id t)), (Z.ltb_spec lo (max_tile_id t));
    simpl; (reflexivity || lia).
Qed.

Lemma column_intervals_sorted (t : intersecting_tiles_t) (column : nat)
    (entries : list (Z * Z)) :
  StronglySorted (fun p q => p.2 < q.1) entries ->
  StronglySorted (fun a b : Z * Z * Z => a.2 < b.1.2)
                 (column_intervals t column entries).
Proof.
  apply StronglySorted_omap. intros [lo hi] [lo' hi'] a b Hlt Ea Eb.
  destruct (_ && _); [|discriminate]. destruct (_ && _); [|discriminate].
  injection Ea as <-. injection Eb as <-. exact Hlt.
Qed.

(** One column through the merge and the last sort of [sort_bounds]: the
    pairs present at the end are the entries the merge has not invalidated,
    in their order, followed by pairs that hold an invalidated entry. *)
Lemma sorted_column_pairs (pm px : Z) (ps : list (Z * Z)) (tm tx : list Z) :
  tm = [] \/ tx = [] ->
  StronglySorted Z.le (pm :: ps.*1 ++ tm) -> StronglySorted Z.le (px :: ps.*2 ++ tx) ->
  Forall (fun v => v < UINT32_MAX) (pm :: ps.*1 ++ tm) ->
  Forall (fun v => v < UINT32_MAX) (px :: ps.*2 ++ tx) ->
  exists junk,
    zip (merge_sort Z.le (merge_column (pm :: ps.*1 ++ tm) (px :: ps.*2 ++ tx)).1)
        (merge_sort Z.le (merge_column (pm :: ps.*1 ++ tm) (px :: ps.*2 ++ tx)).2)
    = survivors (merge_pairs (pm, px) ps) ++ junk /\
    Forall (fun p => p.1 = UINT32_MAX \/ p.2 = UINT32_MAX) junk.
Proof.
  intros Htail Hm0 Hx0 Hmins Hmaxs.
  rewrite merge_column_pairs by exact Htail. cbn [fst snd].
  rewrite app_comm_cons in Hm0, Hx0.
  apply StronglySorted_app in Hm0 as (Hm_cross & Hm_ps & Hm_tail).
  apply StronglySorted_app in Hx0 as (Hx_cross & Hx_ps & Hx_tail).
  rewrite app_comm_cons in Hmins, Hmaxs.
  apply Forall_app in Hmins as [Hmins_ps Hmins_tail].
  apply Forall_app in Hmaxs as [Hmaxs_ps Hmaxs_tail].
  destruct (merge_pairs_survivors ps pm px Hm_ps Hx_ps Hmins_ps)
    as (b & rest & ES & Hsep & Hs1 & Hs2 & Hmem).
  set (merged := merge_pairs (pm, px) ps) in *.
  set (dead := filter (fun p => ~ p <> (UINT32_MAX, UINT32_MAX)) merged).
  destruct (invalidated_fst merged) as [Ed1 Ed2]. fold dead in Ed1, Ed2.
  assert (Hperm : merged ≡ₚ survivors merged ++ dead).
  { symmetry. apply filter_app_complement. }
  assert (EM : merge_sort Z.le (merged.*1 ++ tm)
               = ((survivors merged).*1 ++ tm) ++ replicate (length dead) UINT32_MAX).
  { apply merge_sort_invalidated.
    - assert (Hp : merged.*1 ≡ₚ (survivors merged).*1 ++ dead.*1)
        by (rewrite <- fmap_app; apply fmap_Permutation, Hperm).
      etransitivity; [apply Permutation_app_tail, Hp|].
      rewrite Ed1, <- !app_assoc. apply Permutation_app_head, Permutation_app_comm.
    - rewrite ES. apply StronglySorted_app_2; [|exact Hs1|exact Hm_tail].
      intros v w Hv Hw. apply list_elem_of_fmap in Hv as (q & -> & Hq).
      eapply Forall_forall in Hmem; [|exact Hq]. destruct Hmem as [Hq1 _].
      now apply Hm_cross.
    - apply Forall_app. split.
      + rewrite ES. apply Forall_forall. intros v Hv.
        apply list_elem_of_fmap in Hv as (q & -> & Hq).
        eapply Forall_forall in Hmem; [|exact Hq]. destruct Hmem as [Hq1 _].
        eapply Forall_forall in Hmins_ps; [|exact Hq1]. simpl in Hmins_ps. lia.
      + eapply Forall_impl; [exact Hmins_tail|]. simpl. intros; lia. }
  assert (EX : merge_sort Z.le (merged.*2 ++ tx)
               = ((survivors merged).*2 ++ tx) ++ replicate (length dead) UINT32_MAX).
  { apply merge_sort_invalidated.
    - assert (Hp : merged.*2 ≡ₚ (survivors merged).*2 ++ dead.*2)
        by (rewrite <- fmap_app; apply fmap_Permutation, Hperm).
      etransitivity; [apply Permutation_app_tail, Hp|].
      rewrite Ed2, <- !app_assoc. apply Permutation_app_head, Permutation_app_comm.
    - rewrite ES. apply StronglySorted_app_2; [|exact Hs2|exact Hx_tail].
      intros v w Hv Hw. apply list_elem_of_fmap in Hv as (q & -> & Hq).
      eapply Forall_forall in Hmem; [|exact Hq]. destruct Hmem as [_ Hq2].
      now apply Hx_cross.
    - apply Forall_app. split.
      + rewrite ES. apply Forall_forall. intros v Hv.
        apply list_elem_of_fmap in Hv as (q & -> & Hq).
        eapply Forall_forall in Hmem; [|exact Hq]. destruct Hmem as [_ Hq2].
        eapply Forall_forall in Hmaxs_ps; [|exact Hq2]. simpl in Hmaxs_ps. lia.
      + eapply Forall_impl; [exact Hmaxs_tail|]. simpl. intros; lia. }
  exists (zip (tm ++ replicate (length dead) UINT32_MAX)
              (tx ++ replicate (length dead) UINT32_MAX)).
  split.
  - rewrite EM, EX, <- !app_assoc.
    rewrite zip_with_app by now rewrite !length_fmap.
    fold (zip (survivors merged).*1 (survivors merged).*2). now rewrite zip_fst_snd.
  - apply Forall_forall. intros [lo hi] Hp. simpl.
    destruct Htail as [-> | ->]; simpl in Hp.
    + left. apply elem_of_zip_l in Hp. now apply elem_of_replicate in Hp as [-> _].
    + right. apply elem_of_zip_r in Hp. now apply elem_of_replicate in Hp as [-> _].
Qed.

(** One column through [sort_bounds]: sort, merge, sort. *)
Lemma sorted_column_disjoint (t : intersecting_tiles_t) (column : nat) (mins maxs : list Z) :
  max_tile_id t <= UINT32_MAX ->
  Forall (fun v => v < UINT32_MAX) mins -> Forall (fun v => v < UINT32_MAX) maxs ->
  StronglySorted (fun a b : Z * Z * Z => a.2 < b.1.2)
    (column_intervals t column
       (zip (merge_sort Z.le (merge_column (merge_sort Z.le mins) (merge_sort Z.le maxs)).1)
            (merge_sort Z.le (merge_column (merge_sort Z.le mins) (merge_sort Z.le maxs)).2))).
Proof.
  intros Hmax Hmins Hmaxs.
  assert (Hm0 : StronglySorted Z.le (merge_sort Z.le mins))
    by (apply StronglySorted_merge_sort; apply _).
  assert (Hx0 : StronglySorted Z.le (merge_sort Z.le maxs))
    by (apply StronglySorted_merge_sort; apply _).
  rewrite <- (merge_sort_Permutation Z.le mins) in Hmins.
  rewrite <- (merge_sort_Permutation Z.le maxs) in Hmaxs.
  destruct (merge_sort Z.le mins) as [|pm m0]; [constructor|].
  destruct (merge_sort Z.le maxs) as [|px x0].
  { assert (E : merge_column (pm :: m0) [] = (pm :: m0, [])) by reflexivity.
    rewrite E. cbn [fst snd]. change (merge_sort Z.le []) with (@nil Z).
    destruct (merge_sort Z.le (pm :: m0)); constructor. }
  destruct (zip_decompose m0 x0) as (ps & tm & tx & -> & -> & Htail).
  destruct (sorted_column_pairs pm px ps tm tx Htail Hm0 Hx0 Hmins Hmaxs)
    as (junk & -> & Hjunk).
  unfold column_intervals. rewrite omap_app.
  fold (column_intervals t column (survivors (merge_pairs (pm, px) ps))).
  fold (column_intervals t column junk).
  rewrite (column_intervals_invalidated t column junk Hmax Hjunk), app_nil_r.
  apply column_intervals_sorted.
  rewrite app_comm_cons in Hm0, Hx0, Hmins.
  apply StronglySorted_app in Hm0 as (_ & Hm_ps & _).
  apply StronglySorted_app in Hx0 as (_ & Hx_ps & _).
  apply Forall_app in Hmins as [Hmins_ps _].
  destruct (merge_pairs_survivors ps pm px Hm_ps Hx_ps Hmins_ps)
    as (b & rest & -> & Hsep & _).
  exact Hsep.
Qed.

(** Every pair of a minimum and a maximum the merge loop starts from lies
    within a pair it does not invalidate. *)
Lemma merge_pairs_covers (ps : list (Z * Z)) :
  forall pm px q,
    StronglySorted Z.le (pm :: ps.*1) -> StronglySorted Z.le (px :: ps.*2) ->
    Forall (fun v => v < UINT32_MAX) (pm :: ps.*1) ->
    (pm <= q.1 /\ q.2 <= px) \/ q ∈ ps ->
    exists s, s ∈ survivors (merge_pairs (pm, px) ps) /\ s.1 <= q.1 /\ q.2 <= s.2.
Proof.
  induction ps as [|[em ex] ps IH]; intros pm px q Hm Hx Hlt Hq.
  - apply Forall_cons in Hlt as [Hpm _]. exists (pm, px). simpl. unfold survivors.
    rewrite filter_cons_True by (intros [=]; lia). split; [by apply elem_of_cons; left|].
    destruct Hq as [Hq|Hq]; [exact Hq|by apply elem_of_nil in Hq].
  - cbn [fmap list_fmap fst snd] in Hm, Hx, Hlt.
    apply StronglySorted_inv in Hm as [Hm Hpm_le]. apply StronglySorted_inv in Hx as [Hx Hpx_le].
    apply Forall_cons in Hpm_le as [Hpm_em Hpm_rest].
    apply Forall_cons in Hpx_le as [Hpx_ex Hpx_rest].
    apply Forall_cons in Hlt as [Hpm Hlt].
    cbn [merge_pairs fst snd]. destruct (Z.leb_spec em px) as [Hmerge|Hsep].
    + rewrite Z.min_r, Z.max_l by lia. unfold survivors.
      rewrite filter_cons_False by (intros H; now apply H).
      apply (IH pm ex q).
      * constructor; [|exact Hpm_rest]. now apply StronglySorted_inv in Hm as [Hm _].
      * exact Hx.
      * apply Forall_cons in Hlt as [_ Hlt]. now constructor.
      * destruct Hq as [[Hq1 Hq2]|Hq]; [left; lia|].
        apply elem_of_cons in Hq as [->|Hq]; [left; simpl; lia|by right].
    + unfold survivors. rewrite filter_cons_True by (intros [=]; lia).
      destruct Hq as [Hq|Hq].
      * exists (pm, px). split; [by apply elem_of_cons; left|exact Hq].
      * destruct (IH em ex q Hm Hx Hlt) as (s & Hs & Hcover).
        { apply elem_of_cons in Hq as [->|Hq]; [left; simpl; lia|by right]. }
        exists s. split; [by apply elem_of_cons; right|exact Hcover].
Qed.

Lemma merge_columns_lookup (min_bounds max_bounds : list (list Z)) :
  forall (column : nat) (mins maxs : list Z),
    (merge_columns min_bounds max_bounds).1 !! column = Some mins ->
    (merge_columns min_bounds max_bounds).2 !! column = Some maxs ->
    exists mins0 maxs0,
      min_bounds !! column = Some mins0 /\ max_bounds !! column = Some maxs0 /\
      merge_column mins0 maxs0 = (mins, maxs).
Proof.
  revert max_bounds. induction min_bounds as [|mins0 min_rest IH];
    intros max_bounds column mins maxs Hmin Hmax.
  - simpl in Hmin. by rewrite lookup_nil in Hmin.
  - destruct max_bounds as [|maxs0 max_rest].
    + simpl in Hmax. by rewrite lookup_nil in Hmax.
    + cbn [merge_columns] in Hmin, Hmax.
      destruct (merge_column mins0 maxs0) as [mins1 maxs1] eqn:E.
      specialize (IH max_rest).
      destruct (merge_columns min_rest max_rest) as [min_rest' max_rest'].
      destruct column as [|column]; simpl in *.
      * injection Hmin as <-. injection Hmax as <-. by exists mins0, maxs0.
      * now apply IH.
Qed.

(** X18. After [sort_bounds] the intervals of a column do not overlap:
    for entries below [UINT32_MAX], the pairs of a minimum and the maximum at
    the same index that are valid, in the order of the column, each end
    strictly below the beginning of all later ones. *)
Theorem sort_bounds_disjoint (t : intersecting_tiles_t) (column : nat) (mins maxs : list Z) :
  max_tile_id t <= UINT32_MAX ->
  Forall (Forall (fun v => v < UINT32_MAX)) (min_bounds t) ->
  Forall (Forall (fun v => v < UINT32_MAX)) (max_bounds t) ->
  min_bounds (sort_bounds t) !! column = Some mins ->
  max_bounds (sort_bounds t) !! column = Some maxs ->
  StronglySorted (fun a b : Z * Z * Z => a.2 < b.1.2)
                 (column_intervals (sort_bounds t) column (zip mins maxs)).
Proof.
  intros Hmax Hmins Hmaxs Emin Emax.
  assert (Eid : max_tile_id (sort_bounds t) = max_tile_id t).
  { unfold sort_bounds. now destruct (merge_columns _ _). }
  unfold sort_bounds in Emin, Emax.
  destruct (merge_columns (merge_sort Z.le <$> min_bounds t) (merge_sort Z.le <$> max_bounds t))
    as [min_merged max_merged] eqn:Em.
  simpl in Emin, Emax. rewrite list_lookup_fmap in Emin, Emax.
  destruct (min_merged !! column) as [mins1|] eqn:E1; [|discriminate].
  destruct (max_merged !! column) as [maxs1|] eqn:E2; [|discriminate].
  injection Emin as <-. injection Emax as <-.
  destruct (merge_columns_lookup (merge_sort Z.le <$> min_bounds t)
              (merge_sort Z.le <$> max_bounds t) column mins1 maxs1)
    as (mins0 & maxs0 & H1 & H2 & Hcol).
  { now rewrite Em. }
  { now rewrite Em. }
  rewrite list_lookup_fmap in H1, H2.
  destruct (min_bounds t !! column) as [mins_t|] eqn:E3; [|discriminate].
  destruct (max_bounds t !! column) as [maxs_t|] eqn:E4; [|discriminate].
  injection H1 as <-. injection H2 as <-.
  eapply Forall_lookup_1 in Hmins; [|exact E3].
  eapply Forall_lookup_1 in Hmaxs; [|exact E4].
  assert (H := sorted_column_disjoint (sort_bounds t) column mins_t maxs_t
                 ltac:(rewrite Eid; exact Hmax) Hmins Hmaxs).
  rewrite Hcol in H. exact H.
Qed.

Lemma sort_bounds_disjoint_witness :
  StronglySorted (fun a b : Z * Z * Z => a.2 < b.1.2)
    (column_intervals (sort_bounds three_intervals) 0
       (zip [1; 6; UINT32_MAX] [4; 7; UINT32_MAX])).
Proof.
  apply sort_bounds_disjoint.
  - vm_compute. discriminate.
  - repeat constructor.
  - repeat constructor.
  - reflexivity.
  - reflexivity.
Defined.

Lemma sorted_column_covers (mins maxs : list Z) (i : nat) (lo hi : Z) :
  Forall (fun v => v < UINT32_MAX) mins -> Forall (fun v => v < UINT32_MAX) maxs ->
  merge_sort Z.le mins !! i = Some lo -> merge_sort Z.le maxs !! i = Some hi ->
  exists j a b,
    merge_sort Z.le (merge_column (merge_sort Z.le mins) (merge_sort Z.le maxs)).1 !! j = Some a /\
    merge_sort Z.le (merge_column (merge_sort Z.le mins) (merge_sort Z.le maxs)).2 !! j = Some b /\
    a <= lo /\ hi <= b /\ b < UINT32_MAX.
Proof.
  intros Hmins Hmaxs Hlo Hhi.
  assert (Hm0 : StronglySorted Z.le (merge_sort Z.le mins))
    by (apply StronglySorted_merge_sort; apply _).
  assert (Hx0 : StronglySorted Z.le (merge_sort Z.le maxs))
    by (apply StronglySorted_merge_sort; apply _).
  rewrite <- (merge_sort_Permutation Z.le mins) in Hmins.
  rewrite <- (merge_sort_Permutation Z.le maxs) in Hmaxs.
  destruct (merge_sort Z.le mins) as [|pm m0]; [by rewrite lookup_nil in Hlo|].
  destruct (merge_sort Z.le maxs) as [|px x0]; [by rewrite lookup_nil in Hhi|].
  destruct (zip_decompose m0 x0) as (ps & tm & tx & -> & -> & Htail).
  destruct (sorted_column_pairs pm px ps tm tx Htail Hm0 Hx0 Hmins Hmaxs)
    as (junk & Ezip & _).
  rewrite app_comm_cons in Hm0, Hx0, Hmins, Hmaxs.
  apply StronglySorted_app in Hm0 as (_ & Hm_ps & _).
  apply StronglySorted_app in Hx0 as (_ & Hx_ps & _).
  apply Forall_app in Hmins as [Hmins_ps _]. apply Forall_app in Hmaxs as [Hmaxs_ps _].
  assert (Hq : (pm <= (lo, hi).1 /\ (lo, hi).2 <= px) \/ (lo, hi) ∈ ps).
  { destruct i as [|i]; simpl in Hlo, Hhi.
    - injection Hlo as <-. injection Hhi as <-. left. simpl. lia.
    - right. destruct (decide (i < length ps)%nat) as [Hi|Hi].
      + rewrite lookup_app_l in Hlo, Hhi by (rewrite length_fmap; exact Hi).
        rewrite list_lookup_fmap in Hlo, Hhi.
        destruct (ps !! i) as [[lo' hi']|] eqn:E; [|discriminate].
        simpl in Hlo, Hhi. injection Hlo as <-. injection Hhi as <-.
        eapply list_elem_of_lookup_2, E.
      + exfalso. rewrite lookup_app_r in Hlo, Hhi by (rewrite length_fmap; lia).
        destruct Htail as [-> | ->]; [by rewrite lookup_nil in Hlo|by rewrite lookup_nil in Hhi]. }
  destruct (merge_pairs_covers ps pm px (lo, hi) Hm_ps Hx_ps Hmins_ps Hq)
    as ([a b] & Hs & Ha & Hb).
  destruct (merge_pairs_survivors ps pm px Hm_ps Hx_ps Hmins_ps)
    as (b0 & rest & ES & _ & _ & _ & Hmem).
  assert (Hb_lt : b < UINT32_MAX).
  { rewrite ES in Hs. eapply Forall_forall in Hmem; [|exact Hs]. destruct Hmem as [_ Hb2].
    eapply Forall_forall in Hmaxs_ps; [|exact Hb2]. exact Hmaxs_ps. }
  apply list_elem_of_lookup_1 in Hs as [j Hj].
  assert (Hzip : zip (merge_sort Z.le (merge_column (pm :: ps.*1 ++ tm) (px :: ps.*2 ++ tx)).1)
                     (merge_sort Z.le (merge_column (pm :: ps.*1 ++ tm) (px :: ps.*2 ++ tx)).2)
                 !! j = Some (a, b)).
  { rewrite Ezip. apply lookup_app_l_Some, Hj. }
  apply lookup_zip_with_Some in Hzip as (a' & b' & E & Ha' & Hb').
  injection E as <- <-. exists j, a, b. done.
Qed.

Lemma merge_columns_lookup_2 (min_bounds max_bounds : list (list Z)) :
  forall (column : nat) (mins0 maxs0 : list Z),
    min_bounds !! column = Some mins0 -> max_bounds !! column = Some maxs0 ->
    (merge_columns min_bounds max_bounds).1 !! column = Some (merge_column mins0 maxs0).1 /\
    (merge_columns min_bounds max_bounds).2 !! column = Some (merge_column mins0 maxs0).2.
Proof.
  revert max_bounds. induction min_bounds as [|mins min_rest IH];
    intros max_bounds column mins0 maxs0 Hmin Hmax.
  - by rewrite lookup_nil in Hmin.
  - destruct max_bounds as [|maxs max_rest]; [by rewrite lookup_nil in Hmax|].
    cbn [merge_columns]. specialize (IH max_rest).
    destruct (merge_column mins maxs) as [mins1 maxs1] eqn:E.
    destruct (merge_columns min_rest max_rest) as [min_rest' max_rest'].
    destruct column as [|column]; simpl in *.
    + injection Hmin as <-. injection Hmax as <-. now rewrite E.
    + now apply IH.
Qed.

(** X19. [sort_bounds] loses no row: the interval from the [i]-th
    smallest minimum to the [i]-th smallest maximum of a column lies within
    the interval of some index of that column after [sort_bounds], whose
    maximum is not an invalidated entry. *)
Theorem sort_bounds_covers (t : intersecting_tiles_t) (column i : nat)
    (mins0 maxs0 : list Z) (lo hi : Z) :
  Forall (Forall (fun v => v < UINT32_MAX)) (min_bounds t) ->
  Forall (Forall (fun v => v < UINT32_MAX)) (max_bounds t) ->
  min_bounds t !! column = Some mins0 -> max_bounds t !! column = Some maxs0 ->
  merge_sort Z.le mins0 !! i = Some lo -> merge_sort Z.le maxs0 !! i = Some hi ->
  exists mins maxs j a b,
    min_bounds (sort_bounds t) !! column = Some mins /\
    max_bounds (sort_bounds t) !! column = Some maxs /\
    mins !! j = Some a /\ maxs !! j = Some b /\
    a <= lo /\ hi <= b /\ b < UINT32_MAX.
Proof.
  intros Hmins Hmaxs Emin Emax Hlo Hhi.
  eapply Forall_lookup_1 in Hmins; [|exact Emin].
  eapply Forall_lookup_1 in Hmaxs; [|exact Emax].
  destruct (sorted_column_covers mins0 maxs0 i lo hi Hmins Hmaxs Hlo Hhi)
    as (j & a & b & Ha & Hb & Hcover).
  destruct (merge_columns_lookup_2 (merge_sort Z.le <$> min_bounds t)
              (merge_sort Z.le <$> max_bounds t) column
              (merge_sort Z.le mins0) (merge_sort Z.le maxs0)) as [H1 H2].
  { now rewrite list_lookup_fmap, Emin. }
  { now rewrite list_lookup_fmap, Emax. }
  unfold sort_bounds.
  destruct (merge_columns (merge_sort Z.le <$> min_bounds t) (merge_sort Z.le <$> max_bounds t))
    as [min_merged max_merged].
  simpl in *. eexists _, _, j, a, b.
  rewrite !list_lookup_fmap, H1, H2. simpl. done.
Qed.

Lemma sort_bounds_covers_witness :
  exists mins maxs j a b,
    min_bounds (sort_bounds three_intervals) !! 0%nat = Some mins /\
    max_bounds (sort_bounds three_intervals) !! 0%nat = Some maxs /\
    mins !! j = Some a /\ maxs !! j = Some b /\
    a <= 2 /\ 4 <= b /\ b < UINT32_MAX.
Proof.
  apply (sort_bounds_covers three_intervals 0 1 [6; 1; 2] [3; 7; 4]).
  - repeat constructor.
  - repeat constructor.
  - reflexivity.
  - reflexivity.
  - reflexivity.
  - reflexivity.
Defined.

Section WithinBoundingBox.

Local Open Scope Q_scope.




End WithinBoundingBox.





(** ** Reading linestrings and polygons *)

Lemma lookup_at_pos {A : Type} (before after : list A) (x : A) (pos : nat) :
  pos = length before -> (before ++ x :: after) !! pos = Some x.
Proof. intros ->. now apply list_lookup_middle. Qed.

Lemma read_point_at (wkb : parser_t) (before after : list wkb_item) (c : coordinates) :
  wkb_data wkb = before ++ Wkb_point c :: after -> wkb_pos wkb = length before ->
  read_point wkb = Some (c, advance wkb 1).
Proof.
  intros Hdata Hpos. unfold read_point, advance.
  rewrite Hdata, (lookup_at_pos before after _ _ Hpos). do 3 f_equal. lia.
Qed.

Lemma read_length_at (wkb : parser_t) (before after : list wkb_item) (n : Z) :
  wkb_data wkb = before ++ Wkb_length n :: after -> wkb_pos wkb = length before ->
  read_length wkb = Some (n, advance wkb 1).
Proof.
  intros Hdata Hpos. unfold read_length, advance.
  rewrite Hdata, (lookup_at_pos before after _ _ Hpos). do 3 f_equal. lia.
Qed.

Lemma advance_advance (wkb : parser_t) (n m : nat) :
  advance (advance wkb n) m = advance wkb (n + m).
Proof. unfold advance. simpl. f_equal. lia. Qed.

Lemma from_wkb_line_loop_points (points : list coordinates) :
  forall (wkb : parser_t) (before after : list wkb_item) (prev : coordinates),
    wkb_data wkb = before ++ (Wkb_point <$> points) ++ after ->
    wkb_pos wkb = length before ->
    from_wkb_line_loop (length points) prev wkb
    = Some (line_segments prev points, advance wkb (length points)).
Proof.
  induction points as [|cur points IH]; intros wkb before after prev Hdata Hpos.
  - simpl. unfold advance. destruct wkb. simpl. do 3 f_equal. lia.
  - cbn [length from_wkb_line_loop line_segments].
    rewrite (read_point_at wkb before _ cur Hdata Hpos).
    rewrite (IH (advance wkb 1) (before ++ [Wkb_point cur]) after cur).
    + rewrite advance_advance. reflexivity.
    + simpl. rewrite Hdata, <- app_assoc. reflexivity.
    + simpl. rewrite Hpos, length_app. simpl. lia.
Qed.

Lemma from_wkb_line_at (wkb : parser_t) (before after : list wkb_item)
    (points : list coordinates) :
  wkb_data wkb = before ++ line_items points ++ after -> wkb_pos wkb = length before ->
  from_wkb_line wkb = Some (line_calls points, advance wkb (S (length points))).
Proof.
  intros Hdata Hpos. unfold from_wkb_line, line_items in *.
  rewrite (read_length_at wkb before _ _ Hdata Hpos).
  destruct points as [|first [|second points]].
  - reflexivity.
  - simpl. unfold from_wkb_point.
    rewrite (read_point_at (advance wkb 1) (before ++ [Wkb_length 1]) after first).
    + now rewrite advance_advance.
    + simpl. rewrite Hdata, <- app_assoc. reflexivity.
    + simpl. rewrite Hpos, length_app. simpl. lia.
  - destruct (Z.eqb_spec (Z.of_nat (length (first :: second :: points))) 0) as [E|_];
      [simpl in E; lia|].
    destruct (Z.eqb_spec (Z.of_nat (length (first :: second :: points))) 1) as [E|_];
      [simpl in E; lia|].
    rewrite (read_point_at (advance wkb 1)
               (before ++ [Wkb_length (Z.of_nat (length (first :: second :: points)))])
               (((Wkb_point <$> second :: points) : list wkb_item) ++ after) first).
    + replace (Z.to_nat (Z.of_nat (length (first :: second :: points)) - 1))
        with (length (second :: points)) by (simpl; lia).
      rewrite (from_wkb_line_loop_points (second :: points) (advance (advance wkb 1) 1)
                 (before ++ [Wkb_length (Z.of_nat (length (first :: second :: points)));
                             Wkb_point first]) after first).
      * rewrite !advance_advance. cbn [line_calls]. do 3 f_equal.
      * simpl. rewrite Hdata, <- app_assoc. reflexivity.
      * simpl. rewrite Hpos, length_app. simpl. lia.
    + simpl. rewrite Hdata, <- app_assoc. reflexivity.
    + simpl. rewrite Hpos, length_app. simpl. lia.
Qed.

(** X21. [from_wkb_line] on a linestring of [n] points reads the length
    and the [n] points and calls nothing for [n = 0], [from_point] for
    [n = 1], and [from_line_lon_lat] on each of the [n - 1] pairs of
    consecutive points otherwise. *)
Theorem from_wkb_line_calls (before after : list wkb_item) (points : list coordinates) :
  from_wkb_line {| wkb_data := before ++ line_items points ++ after;
                   wkb_pos := length before |}
  = Some (line_calls points,
          {| wkb_data := before ++ line_items points ++ after;
             wkb_pos := length before + S (length points) |}).
Proof.
  exact (from_wkb_line_at {| wkb_data := before ++ line_items points ++ after;
                             wkb_pos := length before |}
                          before after points eq_refl eq_refl).
Qed.

(** ** Polygons larger than [max_bbox] *)

(** The bounding box loop of [from_wkb_polygon] reads the points and
    returns corners that enclose the corners it starts from and every point
    read. *)
Lemma bounding_box_loop_points (points : list coordinates) :
  forall (wkb : parser_t) (before after : list wkb_item) (min max : coordinates),
    wkb_data wkb = before ++ (Wkb_point <$> points) ++ after ->
    wkb_pos wkb = length before ->
    exists min' max',
      bounding_box_loop (length points) min max wkb
      = Some (min', max', advance wkb (length points)) /\
      (cx min' <= cx min /\ cy min' <= cy min /\ cx max <= cx max' /\ cy max <= cy max')%Q /\
      forall p, p ∈ points ->
        (cx min' <= cx p /\ cx p <= cx max' /\ cy min' <= cy p /\ cy p <= cy max')%Q.
Proof.
  induction points as [|c points IH]; intros wkb before after min max Hdata Hpos.
  - exists min, max. split; [|split].
    + simpl. unfold advance. destruct wkb. simpl. do 3 f_equal. lia.
    + repeat split; apply Qle_refl.
    + intros p Hp. by apply elem_of_nil in Hp.
  - cbn [length bounding_box_loop].
    rewrite (read_point_at wkb before _ c Hdata Hpos).
    set (min1 := if Qlt_bool (cx c) (cx min) then mk_coordinates (cx c) (cy min) else min).
    set (min2 := if Qlt_bool (cy c) (cy min1) then mk_coordinates (cx min1) (cy c) else min1).
    set (max1 := if Qlt_bool (cx max) (cx c) then mk_coordinates (cx c) (cy max) else max).
    set (max2 := if Qlt_bool (cy max1) (cy c) then mk_coordinates (cx max1) (cy c) else max1).
    assert (Hmin : (cx min2 <= cx min /\ cx min2 <= cx c /\
                    cy min2 <= cy min /\ cy min2 <= cy c)%Q).
    { subst min2 min1.
      destruct (Qlt_bool (cx c) (cx min)) eqn:E1; simpl;
        destruct (Qlt_bool (cy c) _) eqn:E2; simpl;
        try apply Qlt_bool_true in E1; try apply Qlt_bool_false in E1;
        try apply Qlt_bool_true in E2; try apply Qlt_bool_false in E2;
        simpl in *; repeat split; lra. }
    assert (Hmax : (cx max <= cx max2 /\ cx c <= cx max2 /\
                    cy max <= cy max2 /\ cy c <= cy max2)%Q).
    { subst max2 max1.
      destruct (Qlt_bool (cx max) (cx c)) eqn:E1; simpl;
        destruct (Qlt_bool _ (cy c)) eqn:E2; simpl;
        try apply Qlt_bool_true in E1; try apply Qlt_bool_false in E1;
        try apply Qlt_bool_true in E2; try apply Qlt_bool_false in E2;
        simpl in *; repeat split; lra. }
    destruct (IH (advance wkb 1) (before ++ [Wkb_point c]) after min2 max2)
      as (min' & max' & E & Hb & Hp).
    + simpl. rewrite Hdata, <- app_assoc. reflexivity.
    + simpl. rewrite Hpos, length_app. simpl. lia.
    + exists min', max'. split; [|split].
      * rewrite E, advance_advance. reflexivity.
      * repeat split; lra.
      * intros p Hin. apply elem_of_cons in Hin as [->|Hin]; [repeat split; lra|].
        now apply Hp.
Qed.

(** X22. A polygon whose outer ring has two points whose difference in
    [x] or in [y], rounded as the code rounds it, is above [max_bbox] is
    expired as the linestring of its outer ring and nothing else, whatever
    its inner rings are: no ring is filled and no inner ring is expired. *)
Theorem from_wkb_polygon_evil_outer_ring (coords_to_tile : Q -> Q -> Z -> Q * Q)
    (atan2 : Q -> Q -> Q) (map_width : Z) (max_bbox : Q) (outer : list coordinates)
    (inner : list (list coordinates)) (a b : coordinates) :
  a ∈ outer -> b ∈ outer ->
  (max_bbox < dsub (cx b) (cx a))%Q \/ (max_bbox < dsub (cy b) (cy a))%Q ->
  fst <$> from_wkb_polygon coords_to_tile atan2 map_width max_bbox
            {| wkb_data := polygon_items (outer :: inner); wkb_pos := 0 |}
  = Some (line_calls outer).
Proof.
  intros Ha Hb Hbig.
  destruct outer as [|initpt rest]; [by apply elem_of_nil in Ha|].
  set (after := concat (map (fun ring => Wkb_length (Z.of_nat (length ring))
                                         :: map Wkb_point ring) inner)).
  set (wkb := {| wkb_data := polygon_items ((initpt :: rest) :: inner); wkb_pos := 0 |}).
  assert (Hdata : wkb_data wkb
                  = [Wkb_length (Z.of_nat (length ((initpt :: rest) :: inner)))]
                    ++ line_items (initpt :: rest) ++ after).
  { reflexivity. }
  destruct (bounding_box_loop_points rest (advance wkb 3)
              [Wkb_length (Z.of_nat (length ((initpt :: rest) :: inner)));
               Wkb_length (Z.of_nat (length (initpt :: rest)));
               Wkb_point initpt] after initpt initpt)
    as (min & max & Ebox & _ & Hpoints); [reflexivity|reflexivity|].
  assert (Hall : forall p, p ∈ initpt :: rest ->
                   (cx min <= cx p /\ cx p <= cx max /\ cy min <= cy p /\ cy p <= cy max)%Q).
  { intros p Hp. apply elem_of_cons in Hp as [->|Hp]; [|now apply Hpoints].
    destruct (bounding_box_loop_points rest (advance wkb 3)
                [Wkb_length (Z.of_nat (length ((initpt :: rest) :: inner)));
                 Wkb_length (Z.of_nat (length (initpt :: rest)));
                 Wkb_point initpt] after initpt initpt)
      as (min0 & max0 & Ebox0 & Hcorner & _); [reflexivity|reflexivity|].
    rewrite Ebox in Ebox0. injection Ebox0 as <- <-. lra. }
  rewrite (from_wkb_polygon_evil coords_to_tile atan2 map_width max_bbox wkb
             (advance wkb 1) (advance wkb 2) (advance wkb 3)
             (advance (advance wkb 3) (length rest))
             (Z.of_nat (length ((initpt :: rest) :: inner)))
             (Z.of_nat (length (initpt :: rest))) initpt min max).
  - rewrite (from_wkb_line_at _ [Wkb_length (Z.of_nat (length ((initpt :: rest) :: inner)))]
               after (initpt :: rest)); [reflexivity|exact Hdata|reflexivity].
  - reflexivity.
  - reflexivity.
  - reflexivity.
  - replace (Z.to_nat (Z.of_nat (length (initpt :: rest)) - 1)) with (length rest)
      by (simpl; lia).
    exact Ebox.
  - destruct (Hall a Ha) as (? & ? & ? & ?). destruct (Hall b Hb) as (? & ? & ? & ?).
    apply orb_true_iff. destruct Hbig as [Hx|Hy].
    + left. apply Qlt_bool_of_lt. eapply Qlt_le_trans; [exact Hx|].
      apply round_double_monotone. lra.
    + right. apply Qlt_bool_of_lt. eapply Qlt_le_trans; [exact Hy|].
      apply round_double_monotone. lra.
  - simpl. lia.
Qed.

Lemma from_wkb_polygon_evil_outer_ring_witness :
  fst <$> from_wkb_polygon flip_projection atan2_of_quadrant 8 5
            {| wkb_data := polygon_items (outer_ring :: [inner_ring]); wkb_pos := 0 |}
  = Some (line_calls outer_ring).
Proof.
  apply (from_wkb_polygon_evil_outer_ring flip_projection atan2_of_quadrant 8 5
           outer_ring [inner_ring] (mk_coordinates 0 0) (mk_coordinates 10 0)).
  - apply elem_of_cons. by left.
  - apply elem_of_cons. right. apply elem_of_cons. by left.
  - left. vm_compute. reflexivity.
Defined.

Lemma read_header_at (wkb : parser_t) (before after : list wkb_item) (type : geometry_type) :
  wkb_data wkb = before ++ Wkb_header type :: after -> wkb_pos wkb = length before ->
  read_header wkb = Some (type, advance wkb 1).
Proof.
  intros Hdata Hpos. unfold read_header, advance.
  rewrite Hdata, (lookup_at_pos before after _ _ Hpos). do 3 f_equal. lia.
Qed.

Lemma from_wkb_parts_lines (lines : list (list coordinates)) :
  forall (wkb : parser_t) (before after : list wkb_item),
    wkb_data wkb
    = before ++ concat ((fun points => Wkb_header wkb_line :: line_items points) <$> lines)
             ++ after ->
    wkb_pos wkb = length before ->
    fst <$> from_wkb_parts (length lines) from_wkb_line wkb
    = Some (concat (line_calls <$> lines)).
Proof.
  induction lines as [|points lines IH]; intros wkb before after Hdata Hpos; [reflexivity|].
  cbn [length from_wkb_parts fmap list_fmap concat] in *.
  rewrite <- !app_assoc in Hdata. cbn [app] in Hdata.
  rewrite (read_header_at wkb before _ wkb_line Hdata Hpos).
  rewrite (from_wkb_line_at (advance wkb 1) (before ++ [Wkb_header wkb_line])
             (concat ((fun points => Wkb_header wkb_line :: line_items points) <$> lines)
              ++ after) points).
  - specialize (IH (advance (advance wkb 1) (S (length points)))
                   (before ++ Wkb_header wkb_line :: line_items points) after).
    destruct (from_wkb_parts (length lines) from_wkb_line _) as [[calls' wkb']|].
    + simpl in *. f_equal. f_equal.
      assert (E : Some calls' = Some (concat (line_calls <$> lines))).
      { apply IH.
        - rewrite Hdata, <- !app_assoc. reflexivity.
        - rewrite Hpos, length_app. unfold line_items. simpl. rewrite length_fmap. lia. }
      now injection E.
    + exfalso. simpl in IH. discriminate IH.
      * rewrite Hdata, <- !app_assoc. reflexivity.
      * rewrite Hpos, length_app. unfold line_items. simpl. rewrite length_fmap. lia.
  - simpl. rewrite Hdata, <- !app_assoc. reflexivity.
  - simpl. rewrite Hpos, length_app. simpl. lia.
Qed.

(** X23. A multi-linestring is expired as its linestrings, one after
    the other. *)
Theorem from_wkb_calls_multi_line (coords_to_tile : Q -> Q -> Z -> Q * Q)
    (atan2 : Q -> Q -> Q) (map_width : Z)
    (max_bbox : Q) (lines : list (list coordinates)) :
  fst <$> from_wkb_calls coords_to_tile atan2 map_width max_bbox
            {| wkb_data := multi_line_items lines; wkb_pos := 0 |}
  = Some (concat (line_calls <$> lines)).
Proof.
  unfold from_wkb_calls, multi_line_items, read_header, read_length. simpl.
  rewrite Nat2Z.id.
  apply (from_wkb_parts_lines lines _
           [Wkb_header wkb_multi_line; Wkb_length (Z.of_nat (length lines))] []).
  - simpl. now rewrite app_nil_r.
  - reflexivity.
Qed.
